(** * Countdown clock of the Christmas protocol app

    A shallow embedding of [components/Clock.tsx] (duration arithmetic,
    digit table, digit decomposition, the timer effect), of the date logic
    and of [handleGenerate] in [App.tsx], followed by the properties of the
    specification stated over them.

    Numbers.  A JavaScript time value is an integral number of milliseconds
    and is modelled by [Z].  The operators [/], [%] and [Math.floor] of
    [calculateTimeLeft] are modelled over the exact rationals [Q]: binary64
    rounding is not part of the model.  A value that may be [NaN] is an
    [option Z], with [None] for [NaN]. *)

From Stdlib Require Import ZArith QArith Qround Lia Ascii String.
From stdpp Require Import gmap strings list fin_maps pretty.

Local Open Scope Z_scope.

(** ** JavaScript operators used by the program *)

Module JsNum.

(** [Math.floor]. *)
Definition floor (x : Q) : Z := Qfloor x.

(** Truncation toward zero, the integer quotient behind [%]. *)
Definition trunc (x : Q) : Z :=
  if Qle_bool 0 x then Qfloor x else Qceiling x.

(** The remainder operator [x % y]: the result has the sign of [x]. *)
Definition rem (x y : Q) : Q := (x - y * inject_Z (trunc (x / y)))%Q.

(** [Number.prototype.toString] on an integer. *)
Definition toString (value : Z) : string := pretty value.

(** [parseInt] on one character of a string ([None] when the index is out
    of range): a decimal digit gives its value, anything else [NaN]. *)
Definition parseInt (c : option ascii) : option Z :=
  match c with
  | Some c =>
      let n := Z.of_N (Ascii.N_of_ascii c) in
      if (48 <=? n) && (n <=? 57) then Some (n - 48) else None
  | None => None
  end.

End JsNum.

Module JsString.

(** [s[i]]. *)
Definition at_ (s : string) (i : nat) : option ascii := String.get i s.

Fixpoint repeat (c : ascii) (n : nat) : string :=
  match n with
  | O => EmptyString
  | S n => String c (repeat c n)
  end.

(** [s.padStart(targetLength, c)] for a one-character filler [c]. *)
Definition padStart (targetLength : nat) (c : ascii) (s : string) : string :=
  (repeat c (targetLength - String.length s) +:+ s)%string.

End JsString.

(** ** types.ts *)

Record CountdownTime : Set := mkCountdownTime
  { days : Z; hours : Z; minutes : Z; seconds : Z }.

Inductive ThemeMode : Set := Theme24 | ThemeELF.

Inductive AppState : Set := IDLE | PROCESSING | COMPLETE | ERROR.

(** ** Clock.tsx: the duration *)

Definition zeroTime : CountdownTime :=
  {| days := 0; hours := 0; minutes := 0; seconds := 0 |}.

(** [calculateTimeLeft], with the value read from [new Date()] passed as
    [now].  [target] and [now] are time values in milliseconds. *)
Definition calculateTimeLeft (target now : Z) : CountdownTime :=
  let difference : Q := inject_Z (target - now) in
  if Qle_bool difference 0 then
    {| days := 0; hours := 0; minutes := 0; seconds := 0 |}
  else
    {| days := JsNum.floor (difference / inject_Z (1000 * 60 * 60 * 24));
       hours := JsNum.floor
                  (JsNum.rem (difference / inject_Z (1000 * 60 * 60)) 24);
       minutes := JsNum.floor (JsNum.rem (difference / 1000 / 60) 60);
       seconds := JsNum.floor (JsNum.rem (difference / 1000) 60) |}.

(** Milliseconds represented by the four fields of a duration. *)
Definition toMillis (t : CountdownTime) : Z :=
  ((days t * 24 + hours t) * 60 + minutes t) * 60 * 1000 + seconds t * 1000.

(** ** Clock.tsx: glyphs *)

(** The seven segment outlines, in declaration order. *)
Definition SEGMENT_PATHS : list (string * string) :=
  [ ("a", "M 22,10 L 78,10 L 68,26 L 32,26 Z");
    ("b", "M 80,12 L 80,76 L 64,66 L 64,28 Z");
    ("c", "M 80,84 L 80,148 L 64,132 L 64,94 Z");
    ("d", "M 22,150 L 78,150 L 68,134 L 32,134 Z");
    ("e", "M 20,84 L 20,148 L 36,132 L 36,94 Z");
    ("f", "M 20,12 L 20,76 L 36,66 L 36,28 Z");
    ("g", "M 22,80 L 32,70 L 68,70 L 78,80 L 68,90 L 32,90 Z") ].

Definition segmentKeys : list string := SEGMENT_PATHS.*1.

Definition DIGIT_SEGMENTS : gmap Z (list string) :=
  list_to_map
    [ (0, ["a"; "b"; "c"; "d"; "e"; "f"]);
      (1, ["b"; "c"]);
      (2, ["a"; "b"; "d"; "e"; "g"]);
      (3, ["a"; "b"; "c"; "d"; "g"]);
      (4, ["b"; "c"; "f"; "g"]);
      (5, ["a"; "c"; "d"; "f"; "g"]);
      (6, ["a"; "c"; "d"; "e"; "f"; "g"]);
      (7, ["a"; "b"; "c"]);
      (8, ["a"; "b"; "c"; "d"; "e"; "f"; "g"]);
      (9, ["a"; "b"; "c"; "d"; "f"; "g"]) ].

(** [DIGIT_SEGMENTS[value] || []]: the table has no entry for [NaN]. *)
Definition activeSegments (value : option Z) : list string :=
  match value with
  | Some value => default [] (DIGIT_SEGMENTS !! value)
  | None => []
  end.

Inductive Variant : Set := large | small.

(** What [SevenSegmentDigit] draws: the class and filter of the [svg], the
    dim group over all seven outlines, and the bright group over the active
    segments (key and outline). *)
Record DigitSvg := mkDigitSvg
  { svgClass : string;
    svgFilter : string;
    inactiveClass : string;
    inactivePaths : list string;
    activeClass : string;
    activePaths : list (string * option string) }.

Definition SevenSegmentDigit
    (value : option Z) (pulse : bool) (className : string)
    (theme : ThemeMode) : DigitSvg :=
  let activeSegments := activeSegments value in
  let is24 := match theme with Theme24 => true | ThemeELF => false end in
  let activeColor := if is24 then "fill-yellow-500" else "fill-red-600" in
  let pulseColor := if is24 then "fill-yellow-300" else "fill-red-400" in
  let inactiveColor :=
    if is24 then "fill-yellow-900/10" else "fill-red-900/10" in
  let glowStyle :=
    if is24
    then (if pulse then "drop-shadow(0 0 8px rgba(234,179,8,0.9))"
          else "drop-shadow(0 0 2px rgba(234,179,8,0.5))")
    else (if pulse then "drop-shadow(0 0 8px rgba(220, 38, 38, 0.5))"
          else "drop-shadow(0 0 1px rgba(220, 38, 38, 0.2))") in
  {| svgClass := className;
     svgFilter := glowStyle;
     inactiveClass := inactiveColor;
     inactivePaths := SEGMENT_PATHS.*2;
     activeClass :=
       "transition-opacity duration-75 " +:+
       (if pulse then pulseColor else activeColor);
     activePaths :=
       (λ segKey,
          (segKey,
           (list_to_map SEGMENT_PATHS : gmap string string) !! segKey))
       <$> activeSegments |}.

(** What [Separator] draws: the class of the [svg] and of its two dots. *)
Definition Separator
    (pulse : bool) (className : string) (theme : ThemeMode)
    : string * string :=
  let color :=
    match theme with
    | Theme24 => if pulse then "fill-yellow-300" else "fill-yellow-500"
    | ThemeELF => if pulse then "fill-red-400" else "fill-red-600"
    end in
  (className, color +:+ " transition-opacity duration-75").

(** The two digits [renderGroup] hands to [SevenSegmentDigit]. *)
Definition groupDigits (value : Z) : option Z * option Z :=
  let s := JsString.padStart 2 "0" (JsNum.toString value) in
  let d1 := JsNum.parseInt (JsString.at_ s 0) in
  let d2 := JsNum.parseInt (JsString.at_ s 1) in
  (d1, d2).

Record GroupView := mkGroupView
  { digit1 : DigitSvg; digit2 : DigitSvg;
    label : string; labelStyle : string }.

Definition digitClass (variant : Variant) : string :=
  match variant with
  | large => "w-8 h-14 md:w-12 md:h-20 lg:w-14 lg:h-24"
  | small => "w-5 h-8 md:w-6 md:h-10"
  end.

Definition separatorClass (variant : Variant) : string :=
  match variant with
  | large => "w-6 h-14 md:w-8 md:h-20 lg:w-10 lg:h-24"
  | small => "w-3 h-8 md:w-4 md:h-10"
  end.

Definition labelClass (variant : Variant) (theme : ThemeMode) : string :=
  match variant with
  | large =>
      "text-[10px] md:text-xs tracking-[0.2em] mt-1 uppercase " +:+
      match theme with
      | Theme24 => "text-yellow-700"
      | ThemeELF => "text-red-800 font-serif font-bold"
      end
  | small =>
      "text-[8px] tracking-widest mt-0.5 uppercase " +:+
      match theme with
      | Theme24 => "text-yellow-700/80"
      | ThemeELF => "text-red-800/80"
      end
  end.

Definition renderGroup
    (variant : Variant) (theme : ThemeMode) (pulse : bool)
    (value : Z) (label : string) : GroupView :=
  let '(d1, d2) := groupDigits value in
  {| digit1 := SevenSegmentDigit d1 pulse (digitClass variant) theme;
     digit2 := SevenSegmentDigit d2 pulse (digitClass variant) theme;
     label := label;
     labelStyle := labelClass variant theme |}.

Inductive Element :=
  | Group (g : GroupView)
  | Sep (s : string * string).

(** The element tree returned by [Clock] for the current state. *)
Definition render
    (variant : Variant) (theme : ThemeMode)
    (timeLeft : CountdownTime) (pulse : bool) : list Element :=
  [ Group (renderGroup variant theme pulse (days timeLeft) "Days");
    Sep (Separator pulse (separatorClass variant) theme);
    Group (renderGroup variant theme pulse (hours timeLeft) "Hours");
    Sep (Separator pulse (separatorClass variant) theme);
    Group (renderGroup variant theme pulse (minutes timeLeft) "Min");
    Sep (Separator pulse (separatorClass variant) theme);
    Group (renderGroup variant theme pulse (seconds timeLeft) "Sec") ].

(** The part of a digit that is not styling: the active segments. *)
Definition segmentsOf (d : DigitSvg) : list string := (activePaths d).*1.

(** The part of the element tree that is not styling: per group, the label
    and the active segments of its two digits. *)
Definition glyphs (e : Element) : option (string * list string * list string) :=
  match e with
  | Group g => Some (label g, segmentsOf (digit1 g), segmentsOf (digit2 g))
  | Sep _ => None
  end.

(** ** Clock.tsx: the component and its timers

    The component runs on a virtual clock [wall] in milliseconds, which
    only moves forward and which [new Date()] reads.  The browser keeps a
    table of active timers; [setInterval] and [setTimeout] add an entry
    under a fresh id, [clearInterval] removes one, and a timer can only run
    while it is in the table.  Timers run when they are due: time does not
    pass beyond the due time of a timer in the table.

    The library's part is modelled as follows.  Activation renders with the
    initial state; a re-render puts the new props in place.  Either leaves
    the effect to be run when one of the dependencies differs from those of
    the render before, or at activation: the render is on display first,
    and the effect runs afterwards, as an event of its own ([RunEffect]),
    before time passes and before the component is rendered again or
    deactivated.  Running the effect runs the function returned by the
    effect before it, then the effect.  Deactivation runs the function
    returned by the last effect.  A state setter called after its
    activation ended does nothing.

    The dependencies are compared as the library compares them: the target
    by the identity of the [Date] object, the callback by the identity of
    the function.  A [Date] object handed to the component is not changed
    afterwards, so the same object brings the same time value. *)

Record ClockProps := mkClockProps
  { targetDate : Z;          (* time value of the target *)
    targetRef : nat;         (* identity of the [Date] object *)
    onTick : option nat;     (* identity of the callback, when given *)
    variant : Variant;
    theme : ThemeMode }.

(** The closures handed to the browser. [inst] is the activation of the
    component whose state setters the closure holds. *)
Inductive TimerTask :=
  | Tick (inst : nat) (target : Z) (cb : option nat)
  | PulseOff (inst : nat).

Record Timer := mkTimer
  { due : Z;
    repeating : option Z;    (* the period of an interval *)
    task : TimerTask }.

Record Browser := mkBrowser
  { wall : Z;
    timers : gmap nat Timer;
    nextTimer : nat }.

Record Component := mkComponent
  { instance : nat;          (* activations so far *)
    mounted : bool;
    props : ClockProps;
    timeLeft : CountdownTime;
    pulse : bool;
    timer : option nat;      (* the id held by the effect's cleanup *)
    pending : bool }.        (* the effect of the last render is still to run *)

(** [ticks] and [calls] record, newest first, when the interval callback ran
    and which [onTick] callback was invoked when. *)
Record World := mkWorld
  { browser : Browser;
    clock : Component;
    ticks : list Z;
    calls : list (nat * Z) }.

Inductive Event :=
  | Mount (p : ClockProps)
  | Update (p : ClockProps)
  | Unmount
  | RunEffect
  | Elapse (dt : Z)
  | Fire (id : nat).

Module Timers.

Definition setInterval (f : TimerTask) (ms : Z) (b : Browser)
    : nat * Browser :=
  (nextTimer b,
   {| wall := wall b;
      timers := <[nextTimer b :=
                    {| due := wall b + ms; repeating := Some ms;
                       task := f |}]> (timers b);
      nextTimer := S (nextTimer b) |}).

Definition setTimeout (f : TimerTask) (ms : Z) (b : Browser)
    : nat * Browser :=
  (nextTimer b,
   {| wall := wall b;
      timers := <[nextTimer b :=
                    {| due := wall b + ms; repeating := None;
                       task := f |}]> (timers b);
      nextTimer := S (nextTimer b) |}).

Definition clearInterval (id : nat) (b : Browser) : Browser :=
  {| wall := wall b; timers := delete id (timers b);
     nextTimer := nextTimer b |}.

(** The entry of a timer that is about to run: an interval is armed
    again one period later, a timeout leaves the table. *)
Definition rearm (id : nat) (t : Timer) (b : Browser) : Browser :=
  {| wall := wall b;
     timers :=
       match repeating t with
       | Some ms =>
           <[id := {| due := wall b + ms; repeating := Some ms;
                      task := task t |}]> (timers b)
       | None => delete id (timers b)
       end;
     nextTimer := nextTimer b |}.

Definition advance (dt : Z) (b : Browser) : Browser :=
  {| wall := wall b + dt; timers := timers b; nextTimer := nextTimer b |}.

(** The repeating timers of the table. *)
Definition intervals (b : Browser) : gmap nat Timer :=
  filter (λ kt, is_Some (repeating kt.2)) (timers b).

End Timers.

Module Clock.

Definition withBrowser (b : Browser) (w : World) : World :=
  {| browser := b; clock := clock w; ticks := ticks w; calls := calls w |}.

Definition withClock (c : Component) (w : World) : World :=
  {| browser := browser w; clock := c; ticks := ticks w;
     calls := calls w |}.

(** A state setter of activation [inst]: it updates the state of that
    activation while it is mounted and does nothing otherwise. *)
Definition live (inst : nat) (c : Component) : bool :=
  mounted c && bool_decide (instance c = inst).

Definition setTimeLeft (inst : nat) (v : CountdownTime) (w : World)
    : World :=
  let c := clock w in
  if live inst c then
    withClock {| instance := instance c; mounted := mounted c;
                 props := props c; timeLeft := v; pulse := pulse c;
                 timer := timer c; pending := pending c |} w
  else w.

Definition setPulse (inst : nat) (v : bool) (w : World) : World :=
  let c := clock w in
  if live inst c then
    withClock {| instance := instance c; mounted := mounted c;
                 props := props c; timeLeft := timeLeft c; pulse := v;
                 timer := timer c; pending := pending c |} w
  else w.

Definition setTimer (v : option nat) (w : World) : World :=
  let c := clock w in
  withClock {| instance := instance c; mounted := mounted c;
               props := props c; timeLeft := timeLeft c; pulse := pulse c;
               timer := v; pending := pending c |} w.

Definition setPending (v : bool) (w : World) : World :=
  let c := clock w in
  withClock {| instance := instance c; mounted := mounted c;
               props := props c; timeLeft := timeLeft c; pulse := pulse c;
               timer := timer c; pending := v |} w.

Definition invoke (cb : option nat) (w : World) : World :=
  match cb with
  | Some f =>
      {| browser := browser w; clock := clock w; ticks := ticks w;
         calls := (f, wall (browser w)) :: calls w |}
  | None => w
  end.

Definition logTick (w : World) : World :=
  {| browser := browser w; clock := clock w;
     ticks := wall (browser w) :: ticks w; calls := calls w |}.

(** The body of the effect: the first computation and the timer loop. *)
Definition effect (w : World) : World :=
  let inst := instance (clock w) in
  let target := targetDate (props (clock w)) in
  let cb := onTick (props (clock w)) in
  let w := setTimeLeft inst
             (calculateTimeLeft target (wall (browser w))) w in
  let '(id, b) :=
    Timers.setInterval (Tick inst target cb) 1000 (browser w) in
  setTimer (Some id) (withBrowser b w).

(** The function returned by the effect. *)
Definition cleanup (w : World) : World :=
  match timer (clock w) with
  | Some id =>
      setTimer None (withBrowser (Timers.clearInterval id (browser w)) w)
  | None => w
  end.

(** The dependency list [[targetDate, onTick]], compared by identity. *)
Definition depsChanged (p q : ClockProps) : bool :=
  negb (bool_decide (targetRef p = targetRef q)
        && bool_decide (onTick p = onTick q)).

(** The same [Date] object with another time value: an object changed
    after it was handed over. *)
Definition mutated (p q : ClockProps) : bool :=
  bool_decide (targetRef p = targetRef q)
  && negb (bool_decide (targetDate p = targetDate q)).

(** What a timer does when the browser runs it. *)
Definition runTask (t : TimerTask) (w : World) : World :=
  match t with
  | Tick inst target cb =>
      let w := logTick w in
      let w := setTimeLeft inst
                 (calculateTimeLeft target (wall (browser w))) w in
      let w := setPulse inst true w in
      let w := invoke cb w in
      withBrowser (Timers.setTimeout (PulseOff inst) 100 (browser w)).2 w
  | PulseOff inst => setPulse inst false w
  end.

(** The first render of an activation: the initial state of the two
    [useState] hooks, and the effect still to run. *)
Definition fresh (p : ClockProps) (c : Component) : Component :=
  {| instance := S (instance c); mounted := true; props := p;
     timeLeft := {| days := 0; hours := 0; minutes := 0; seconds := 0 |};
     pulse := false; timer := None; pending := true |}.

Definition withProps (p : ClockProps) (c : Component) : Component :=
  {| instance := instance c; mounted := mounted c; props := p;
     timeLeft := timeLeft c; pulse := pulse c; timer := timer c;
     pending := pending c |}.

Definition unmounted (c : Component) : Component :=
  {| instance := instance c; mounted := false; props := props c;
     timeLeft := timeLeft c; pulse := pulse c; timer := timer c;
     pending := false |}.

(** Running the effect that a render left to run: the function returned by
    the effect before it, then the effect. *)
Definition runEffect (w : World) : World :=
  setPending false (effect (cleanup w)).

(** The library runs an effect that is still to run before it renders the
    component again or deactivates it. *)
Definition flush (w : World) : World :=
  if pending (clock w) then runEffect w else w.

(** A re-render with the props [p]: the state is kept, and the effect is
    left to run when a dependency differs. *)
Definition rerender (p : ClockProps) (w : World) : World :=
  let w' := withClock (withProps p (clock w)) w in
  if depsChanged (props (clock w)) p then setPending true w' else w'.

Definition teardown (w : World) : World :=
  let w' := cleanup w in withClock (unmounted (clock w')) w'.

(** One step of the component; [None] when the event cannot happen in
    the state. *)
Definition step (w : World) (e : Event) : option World :=
  match e with
  | Mount p =>
      if mounted (clock w) then None
      else Some (withClock (fresh p (clock w)) w)
  | Update p =>
      if mounted (clock w) && negb (mutated (props (clock w)) p)
      then Some (rerender p (flush w))
      else None
  | Unmount =>
      if mounted (clock w) then Some (teardown (flush w)) else None
  | RunEffect =>
      if pending (clock w) then Some (runEffect w) else None
  | Elapse dt =>
      let b := browser w in
      if negb (pending (clock w)) &&
         bool_decide (0 <= dt) &&
         bool_decide (map_Forall (λ _ t, wall b + dt <= due t) (timers b))
      then Some (withBrowser (Timers.advance dt b) w)
      else None
  | Fire id =>
      let b := browser w in
      match timers b !! id with
      | Some t =>
          if bool_decide (due t <= wall b)
          then Some (runTask (task t)
                       (withBrowser (Timers.rearm id t b) w))
          else None
      | None => None
      end
  end.

Fixpoint run (w : World) (es : list Event) : option World :=
  match es with
  | [] => Some w
  | e :: es =>
      match step w e with
      | Some w' => run w' es
      | None => None
      end
  end.

(** Before the first activation, at time [t0]. *)
Definition init (t0 : Z) : World :=
  {| browser := {| wall := t0; timers := ∅; nextTimer := 0 |};
     clock :=
       {| instance := 0; mounted := false;
          props := {| targetDate := 0; targetRef := 0; onTick := None;
                      variant := large; theme := Theme24 |};
          timeLeft :=
            {| days := 0; hours := 0; minutes := 0; seconds := 0 |};
          pulse := false; timer := None; pending := false |};
     ticks := []; calls := [] |}.

Definition reachable (w : World) : Prop :=
  ∃ t0 es, run (init t0) es = Some w.

(** What the component shows in a state. *)
Definition view (w : World) : list Element :=
  let c := clock w in
  render (variant (props c)) (theme (props c)) (timeLeft c) (pulse c).

End Clock.

(** ** The built-in [Date]

    The time-value arithmetic of the language standard (Day, DayFromYear,
    YearFromTime, MonthFromTime, DateFromTime, MakeDay, MakeDate, TimeClip),
    with a local time zone at a fixed offset [tza] from UTC.  A [Date] is an
    [option Z]: [None] is the invalid date, whose time value is [NaN]. *)

Module JsDate.

Definition msPerDay : Z := 86400000.

Definition Day (t : Z) : Z := t / msPerDay.

Definition TimeWithinDay (t : Z) : Z := t mod msPerDay.

Definition DaysInYear (y : Z) : Z :=
  if negb (y mod 4 =? 0) then 365
  else if negb (y mod 100 =? 0) then 366
  else if negb (y mod 400 =? 0) then 365
  else 366.

Definition DayFromYear (y : Z) : Z :=
  365 * (y - 1970) + (y - 1969) / 4 - (y - 1901) / 100 + (y - 1601) / 400.

Definition TimeFromYear (y : Z) : Z := msPerDay * DayFromYear y.

(** The year of a day number: the largest [y] with [DayFromYear y <= d],
    found from the mean length of a year and one correction. *)
Definition YearFromDay (d : Z) : Z :=
  let y := 1970 + 400 * d / 146097 in
  if d <? DayFromYear y then y - 1
  else if DayFromYear (y + 1) <=? d then y + 1
  else y.

Definition YearFromTime (t : Z) : Z := YearFromDay (Day t).

(** One in a leap year, zero otherwise. *)
Definition leap (y : Z) : Z := if DaysInYear y =? 366 then 1 else 0.

Definition InLeapYear (t : Z) : Z := leap (YearFromTime t).

Definition DayWithinYear (t : Z) : Z :=
  Day t - DayFromYear (YearFromTime t).

(** Day within the year on which month [m] (0 to 11) starts. *)
Definition monthStart (m leap : Z) : Z :=
  match m with
  | 0 => 0
  | 1 => 31
  | 2 => 59 + leap
  | 3 => 90 + leap
  | 4 => 120 + leap
  | 5 => 151 + leap
  | 6 => 181 + leap
  | 7 => 212 + leap
  | 8 => 243 + leap
  | 9 => 273 + leap
  | 10 => 304 + leap
  | _ => 334 + leap
  end.

Definition MonthFromTime (t : Z) : Z :=
  let d := DayWithinYear t in
  let leap := InLeapYear t in
  if d <? 31 then 0
  else if d <? 59 + leap then 1
  else if d <? 90 + leap then 2
  else if d <? 120 + leap then 3
  else if d <? 151 + leap then 4
  else if d <? 181 + leap then 5
  else if d <? 212 + leap then 6
  else if d <? 243 + leap then 7
  else if d <? 273 + leap then 8
  else if d <? 304 + leap then 9
  else if d <? 334 + leap then 10
  else 11.

Definition DateFromTime (t : Z) : Z :=
  DayWithinYear t - monthStart (MonthFromTime t) (InLeapYear t) + 1.

Definition MakeTime (hour min sec ms : Z) : Z :=
  hour * 3600000 + min * 60000 + sec * 1000 + ms.

Definition MakeDay (year month date : Z) : Z :=
  let ym := year + month / 12 in
  let mn := month mod 12 in
  DayFromYear ym + monthStart mn (leap ym) + date - 1.

Definition MakeDate (day time : Z) : Z := day * msPerDay + time.

Definition TimeClip (t : Z) : option Z :=
  if Z.abs t >? 8640000000000000 then None else Some t.

Section Local.

(** Offset of local time from UTC, in milliseconds. *)
Variable tza : Z.

Definition LocalTime (t : Z) : Z := t + tza.

Definition UTC (t : Z) : Z := t - tza.

(** [new Date(year, month, date)]. *)
Definition construct (year month date : Z) : option Z :=
  let yr :=
    if (0 <=? year) && (year <=? 99) then 1900 + year else year in
  TimeClip (UTC (MakeDate (MakeDay yr month date) (MakeTime 0 0 0 0))).

(** [getFullYear] on a valid date. *)
Definition getFullYear (t : Z) : Z := YearFromTime (LocalTime t).

(** [setFullYear(year)]: the new time value of the date. *)
Definition setFullYear (this : option Z) (year : Z) : option Z :=
  let t := match this with Some tv => LocalTime tv | None => 0 end in
  let newDate := MakeDay year (MonthFromTime t) (DateFromTime t) in
  TimeClip (UTC (MakeDate newDate (TimeWithinDay t))).

(** [a > b] on a valid date [a] and a date [b]: false against [NaN]. *)
Definition gt (a : Z) (b : option Z) : bool :=
  match b with
  | Some tv => tv <? a
  | None => false
  end.

End Local.

End JsDate.

(** ** App.tsx *)

Module App.

(** The value of [targetChristmas] set by the first effect, for the time
    value [now] read from [new Date()]. *)
Definition nextChristmas (tza now : Z) : option Z :=
  let currentYear := JsDate.getFullYear tza now in
  let xmas := JsDate.construct tza currentYear 11 25 in
  if JsDate.gt now xmas
  then JsDate.setFullYear tza xmas (currentYear + 1)
  else xmas.

Record State := mkState
  { appState : AppState;
    theme : ThemeMode;
    uploadedImage : option string;
    generatedImage : option string;
    errorMessage : option string }.

(** A caught value, as far as [handleGenerate] looks at it. *)
Record Error := mkError { message : string }.

(** How the promise of [generateCharacterImage] settles. *)
Inductive Settled :=
  | Fulfilled (result : string)
  | Rejected (error : Error).

Definition setAppState (v : AppState) (s : State) : State :=
  {| appState := v; theme := theme s; uploadedImage := uploadedImage s;
     generatedImage := generatedImage s; errorMessage := errorMessage s |}.

Definition setGeneratedImage (v : option string) (s : State) : State :=
  {| appState := appState s; theme := theme s;
     uploadedImage := uploadedImage s; generatedImage := v;
     errorMessage := errorMessage s |}.

Definition setErrorMessage (v : option string) (s : State) : State :=
  {| appState := appState s; theme := theme s;
     uploadedImage := uploadedImage s;
     generatedImage := generatedImage s; errorMessage := v |}.

(** [a || b] on strings: the empty string is falsy. *)
Definition orElse (a b : string) : string :=
  match a with
  | EmptyString => b
  | _ => a
  end.

(** [handleGenerate] up to the [await]: the arguments of the call it
    makes and the state it leaves, or [None] when it returns at once. *)
Definition handleGenerate_call (s : State)
    : option (string * ThemeMode * State) :=
  match uploadedImage s with
  | None | Some EmptyString => None
  | Some img =>
      Some (img, theme s, setErrorMessage None (setAppState PROCESSING s))
  end.

(** [handleGenerate] after the [await], on the state of that moment. *)
Definition handleGenerate_resume (o : Settled) (s : State) : State :=
  match o with
  | Fulfilled result =>
      setAppState COMPLETE (setGeneratedImage (Some result) s)
  | Rejected error =>
      setAppState ERROR
        (setErrorMessage
           (Some (orElse (message error) "An unexpected error occurred."))
           s)
  end.

(** The whole handler, for a given behaviour of the generation call. *)
Definition handleGenerate
    (generateCharacterImage : string → ThemeMode → Settled) (s : State)
    : State :=
  match handleGenerate_call s with
  | Some (img, mode, s') =>
      handleGenerate_resume (generateCharacterImage img mode) s'
  | None => s
  end.

End App.

(** ** Vocabulary of the properties *)

Definition nonNegative (t : CountdownTime) : Prop :=
  0 <= days t ∧ 0 <= hours t ∧ 0 <= minutes t ∧ 0 <= seconds t.

(** Tens and units digit of a value. *)
Definition tensUnits (value : Z) : option Z * option Z :=
  (Some (value / 10 mod 10), Some (value mod 10)).

(** Local midnight at the start of December 25 of year [y], as a UTC time
    value. *)
Definition christmasMidnight (tza y : Z) : Z :=
  JsDate.UTC tza (JsDate.MakeDate (JsDate.MakeDay y 11 25) 0).

(** The local calendar fields of a time value. *)
Definition localFields (tza t : Z) : Z * Z * Z * Z :=
  let l := JsDate.LocalTime tza t in
  (JsDate.YearFromTime l, JsDate.MonthFromTime l, JsDate.DateFromTime l,
   JsDate.TimeWithinDay l).

(** The table once the function returned by the effect has run. *)
Definition cleared (w : World) : gmap nat Timer :=
  match timer (clock w) with
  | Some id => delete id (timers (browser w))
  | None => timers (browser w)
  end.

(** ** Invariant of the component and its timers *)

Module Inv.

(** Time of the latest run of the interval callback, if any. *)
Definition lastTick (w : World) : option Z := head (ticks w).

(** What holds of every timer in the table: its id has been handed out
    and it is not overdue.  A repeating timer is the one-second interval
    held by the cleanup of the mounted component; it runs a closure of the
    current activation, the closure of the current props once the effect
    of the last render has run; the duration on display is the one its
    closure computed a period before it is due, at an instant not before
    the latest tick.  A one-shot timer clears the pulse of some activation
    and is due within 100 ms of the latest tick. *)
Definition timerOk (w : World) (id : nat) (t : Timer) : Prop :=
  (id < nextTimer (browser w))%nat ∧
  wall (browser w) <= due t ∧
  match repeating t with
  | Some ms =>
      ms = 1000 ∧
      mounted (clock w) = true ∧
      timer (clock w) = Some id ∧
      ∃ target cb τ,
        task t = Tick (instance (clock w)) target cb ∧
        (pending (clock w) = false ->
         target = targetDate (props (clock w)) ∧
         cb = onTick (props (clock w))) ∧
        due t = τ + 1000 ∧ τ <= wall (browser w) ∧
        timeLeft (clock w) = calculateTimeLeft target τ ∧
        (∀ τ', lastTick w = Some τ' -> τ' <= τ)
  | None =>
      ∃ inst τ, task t = PulseOff inst ∧
                (inst <= instance (clock w))%nat ∧
                lastTick w = Some τ ∧ due t <= τ + 100
  end.

Record holds (w : World) : Prop := mk
  { timers_ok : map_Forall (timerOk w) (timers (browser w));
    ticks_past : ∀ τ, lastTick w = Some τ -> τ <= wall (browser w);
    handle :
      if mounted (clock w)
      then (timer (clock w) = None ∧ pending (clock w) = true)
           ∨ ∃ id t, timer (clock w) = Some id ∧
                     timers (browser w) !! id = Some t ∧
                     is_Some (repeating t)
      else timer (clock w) = None ∧ pending (clock w) = false;
    pulsing :
      mounted (clock w) = true -> pulse (clock w) = true ->
      ∃ id t τ, timers (browser w) !! id = Some t ∧
                repeating t = None ∧
                task t = PulseOff (instance (clock w)) ∧
                lastTick w = Some τ ∧ due t = τ + 100 }.

End Inv.

(** The events of a list leave the target at [T]. *)
Definition keepsTarget (T : Z) (es : list Event) : Prop :=
  Forall (λ e, match e with
               | Mount p | Update p => targetDate p = T
               | _ => True
               end) es.

(** The events of a list leave the dependencies of the effect alone, the
    [Date] object [d] and the callback [cb], and the component mounted. *)
Definition keepsDeps (d : nat) (cb : option nat) (es : list Event) : Prop :=
  Forall (λ e, match e with
               | Mount _ | Unmount => False
               | Update p => targetRef p = d ∧ onTick p = cb
               | _ => True
               end) es.

(** The callback invocations of ticks [n], ..., 1 of an interval started at
    [t0], newest first. *)
Definition callsFrom (f : nat) (t0 : Z) (n : nat) : list (nat * Z) :=
  (λ k, (f, t0 + 1000 * Z.of_nat k)) <$> reverse (seq 1 n).

(** No activation among the events of a list. *)
Definition noMount (es : list Event) : Prop :=
  Forall (λ e, match e with Mount _ => False | _ => True end) es.

(** Props, events and states with the theme blanked. *)
Definition eraseProps (p : ClockProps) : ClockProps :=
  {| targetDate := targetDate p; targetRef := targetRef p;
     onTick := onTick p; variant := variant p; theme := Theme24 |}.

Definition eraseEvent (e : Event) : Event :=
  match e with
  | Mount p => Mount (eraseProps p)
  | Update p => Update (eraseProps p)
  | _ => e
  end.

Definition eraseWorld (w : World) : World :=
  Clock.withClock
    (Clock.withProps (eraseProps (props (clock w))) (clock w)) w.

(** The displayed duration is zero, the target [T] lies in the past, and
    the component, when mounted, counts down to [T]. *)
Definition atZero (T : Z) (w : World) : Prop :=
  Inv.holds w ∧ timeLeft (clock w) = zeroTime ∧ T <= wall (browser w) ∧
  (mounted (clock w) = true -> targetDate (props (clock w)) = T).

(** A timer id that has been handed out and is no longer in the table. *)
Definition dead (id : nat) (w : World) : Prop :=
  (id < nextTimer (browser w))%nat ∧ timers (browser w) !! id = None.

(** The state of the component [n] ticks after its effect ran at [t0] with
    target [T], [Date] object [d] and callback [f], when the interval has
    id [id0] and [before] are the earlier invocations. *)
Definition ticking
    (T : Z) (d : nat) (f : nat) (t0 : Z) (id0 : nat)
    (before : list (nat * Z)) (n : nat) (w : World) : Prop :=
  Inv.holds w ∧
  mounted (clock w) = true ∧
  pending (clock w) = false ∧
  timer (clock w) = Some id0 ∧
  targetDate (props (clock w)) = T ∧
  targetRef (props (clock w)) = d ∧
  onTick (props (clock w)) = Some f ∧
  (∃ t, timers (browser w) !! id0 = Some t ∧
        due t = t0 + 1000 * (Z.of_nat n + 1)) ∧
  calls w = callsFrom f t0 n ++ before ∧
  t0 + 1000 * Z.of_nat n <= wall (browser w).

(** The component, when mounted, counts down to [T]; the duration shown is
    the one computed for [T] at an instant from [τ0] on that is not in the
    future; and every interval callback in the table computes for [T]. *)
Definition shownSince (T τ0 : Z) (w : World) : Prop :=
  (mounted (clock w) = true -> targetDate (props (clock w)) = T) ∧
  (∃ τ, τ0 <= τ <= wall (browser w) ∧
        timeLeft (clock w) = calculateTimeLeft T τ) ∧
  (∀ id t inst target cb,
     timers (browser w) !! id = Some t -> task t = Tick inst target cb ->
     target = T).

(** ** Vocabulary of the further properties *)

(** A character that [parseInt] reads as a decimal digit. *)
Definition digitChar (c : ascii) : bool :=
  let n := Z.of_N (Ascii.N_of_ascii c) in (48 <=? n) && (n <=? 57).

Fixpoint allDigits (s : string) : bool :=
  match s with
  | EmptyString => true
  | String c s => digitChar c && allDigits s
  end.

(** A value of [parseInt] that is a decimal digit. *)
Definition isDigit (d : option Z) : Prop := ∃ n, d = Some n ∧ 0 <= n <= 9.

(** The true remaining time, clamped at zero. *)
Definition remaining (w : World) : Z :=
  Z.max 0 (targetDate (props (clock w)) - wall (browser w)).

(** Consecutive entries of a log of instants, newest first, lie at least one
    second apart. *)
Fixpoint spaced (l : list Z) : Prop :=
  match l with
  | a :: l' =>
      match l' with
      | b :: _ => b + 1000 <= a
      | [] => True
      end ∧ spaced l'
  | [] => True
  end.

(** The one-shot timers of the table. *)
Definition timeouts (b : Browser) : gmap nat Timer :=
  filter (λ kt, repeating kt.2 = None) (timers b).

(** At most one one-shot timer is pending. *)
Definition oneTimeout (w : World) : Prop :=
  ∀ id1 t1 id2 t2,
    timers (browser w) !! id1 = Some t1 -> repeating t1 = None ->
    timers (browser w) !! id2 = Some t2 -> repeating t2 = None ->
    id1 = id2.

(** ** services/geminiService.ts

    Strings are sequences of code units; the searches below look for ASCII
    text only.  The image element, the canvas and the generation API are
    the environment: what they produce is an argument of the functions. *)

Module JsText.

(** The part of [s] before the first [c] and the rest from that [c] on. *)
Fixpoint break (c : ascii) (s : string) : string * string :=
  match s with
  | EmptyString => (EmptyString, EmptyString)
  | String a s' =>
      if Ascii.eqb a c then (EmptyString, s)
      else let '(before, rest) := break c s' in (String a before, rest)
  end.

(** [s.includes(sub)]. *)
Fixpoint includes (sub s : string) : bool :=
  String.prefix sub s ||
  match s with
  | EmptyString => false
  | String _ s' => includes sub s'
  end.

(** [s.split(c)[1]], when [s] contains [c]. *)
Definition secondField (c : ascii) (s : string) : option string :=
  match (break c s).2 with
  | EmptyString => None
  | String _ rest => Some (break c rest).1
  end.

(** [s.toLowerCase()] on the letters A to Z. *)
Definition lowerChar (a : ascii) : ascii :=
  let n := Ascii.N_of_ascii a in
  if ((65 <=? n) && (n <=? 90))%N then Ascii.ascii_of_N (n + 32) else a.

Fixpoint toLowerCase (s : string) : string :=
  match s with
  | EmptyString => EmptyString
  | String a s' => String (lowerChar a) (toLowerCase s')
  end.

(** Whether the character [c] occurs in [s]. *)
Fixpoint occurs (c : ascii) (s : string) : bool :=
  match s with
  | EmptyString => false
  | String a s' => Ascii.eqb a c || occurs c s'
  end.

(** [s.startsWith(p)], giving the rest of [s]. *)
Fixpoint stripPrefix (p s : string) : option string :=
  match p, s with
  | EmptyString, _ => Some s
  | String a p', String b s' =>
      if Ascii.eqb a b then stripPrefix p' s' else None
  | String _ _, EmptyString => None
  end.

End JsText.

Module Gemini.

(** What loading the image gave: its size and, when a 2d context could be
    had, the canvas's [toDataURL('image/jpeg', 0.8)] as a function of the
    size of the canvas; or an error. *)
Inductive ImageLoad :=
  | Loaded (width height : Z) (toDataURL : option (Z → Z → string))
  | LoadError.

(** The size [resizeImage] draws at: the width and the height, which need
    not be whole. *)
Definition drawSize (width height maxWidth : Z) : Z * Q :=
  if width >? maxWidth
  then (maxWidth,
        (inject_Z height * (inject_Z maxWidth / inject_Z width))%Q)
  else (width, inject_Z height).

(** The size of the canvas: a canvas dimension is a whole number, the
    fraction is dropped. *)
Definition canvasSize (width height maxWidth : Z) : Z * Z :=
  let '(w, h) := drawSize width height maxWidth in (w, JsNum.trunc h).

(** The string [resizeImage] resolves with; it never rejects. *)
Definition resizeImage (load : ImageLoad) (base64Str : string) : string :=
  match load with
  | Loaded width height (Some toDataURL) =>
      let '(w, h) := canvasSize width height 1024 in toDataURL w h
  | Loaded _ _ None => base64Str
  | LoadError => base64Str
  end.

(** The match of [/^data:([^;]+);base64,/]: its first group. *)
Definition mimeMatch (s : string) : option string :=
  match JsText.stripPrefix "data:" s with
  | Some r =>
      let '(m, rest) := JsText.break ";" r in
      match m, JsText.stripPrefix ";base64," rest with
      | String _ _, Some _ => Some m
      | _, _ => None
      end
  | None => None
  end.

Definition mimeTypeOf (resizedBase64 : string) : string :=
  match mimeMatch resizedBase64 with
  | Some m => m
  | None => "image/jpeg"
  end.

Definition cleanBase64Of (resizedBase64 : string) : string :=
  match JsText.secondField "," resizedBase64 with
  | Some d => d
  | None => resizedBase64
  end.

(** The double-quote character. *)
Definition dq : string := String (Ascii.ascii_of_nat 34) EmptyString.

Definition prompt24 : string :=
  "
        Create a cinematic DVD cover art in the style of the TV show " +:+ dq +:+
  "24" +:+ dq +:+
  ", featuring the person from the input image as a special agent.
        
        Visual Style Requirements:
        - Color Grading: Cool blue/cyan and black, high contrast, gritty texture.
        - Aesthetics: Digital noise, scanlines, split-screen composition elements.
        - Subject: The person should look intense, focused, and ready for action.
        - Overlay: Include a digital clock reading 23:59:59 in the background.
        
        Ensure the output is a high-quality, realistic image.
      ".

Definition promptELF : string :=
  "
        Create a movie poster featuring the person from the input image dressed as a Christmas Elf (Buddy the Elf style).
        
        Visual Style Requirements:
        - Costume: Green tunic with white fur collar, yellow tights.
        - Background: A magical, snowy North Pole workshop or cityscape.
        - Atmosphere: Bright, joyful, high-key lighting, festive colors (Green, Red, Gold).
        - Expression: Cheerful and full of Christmas spirit.
        
        Ensure the output is a high-quality, realistic image.
      ".

Record Request := mkRequest
  { model : string;
    mimeType : string;        (* parts[0].inlineData.mimeType *)
    data : string;            (* parts[0].inlineData.data *)
    text : string;            (* parts[1].text *)
    aspectRatio : string }.

Definition requestOf (resizedBase64 : string) (mode : ThemeMode) : Request :=
  {| model := "gemini-2.5-flash-image";
     mimeType := mimeTypeOf resizedBase64;
     data := cleanBase64Of resizedBase64;
     text := match mode with Theme24 => prompt24 | ThemeELF => promptELF end;
     aspectRatio := "3:4" |}.

(** A part of a candidate: [inlineData], with its [data] when it has one,
    and [text]. *)
Record Part := mkPart
  { inlineData : option (option string);
    partText : option string }.

(** A candidate: [finishReason] and [content.parts], when present. *)
Record Candidate := mkCandidate
  { finishReason : option string;
    parts : option (list Part) }.

(** A thrown value: an [Error] object with its name and message, or
    anything else, given by its conversion to a string. *)
Inductive Thrown :=
  | ErrorObject (name message : string)
  | OtherValue (asString : string).

(** [new Error(message)]. *)
Definition newError (message : string) : Thrown := ErrorObject "Error" message.

(** [error.toString()]. *)
Definition toString (e : Thrown) : string :=
  match e with
  | ErrorObject name message =>
      match name, message with
      | EmptyString, _ => message
      | _, EmptyString => name
      | _, _ => name +:+ ": " +:+ message
      end
  | OtherValue s => s
  end.

(** [error.message]; absent on a value that is not an [Error]. *)
Definition messageOf (e : Thrown) : option string :=
  match e with
  | ErrorObject _ message => Some message
  | OtherValue _ => None
  end.

(** What the client did: the candidates of the response of
    [ai.models.generateContent] (none when the field is absent), or the value
    thrown by the call or by the construction of the client. *)
Inductive ApiResult :=
  | Returns (candidates : list Candidate)
  | Throws (e : Thrown).

(** How the promise of [generateCharacterImage] settles. *)
Inductive Outcome :=
  | Resolve (result : string)
  | Reject (e : Thrown).

(** A template literal prints an absent value as "undefined". *)
Definition interpolate (v : option string) : string :=
  match v with
  | Some s => s
  | None => "undefined"
  end.

(** The first part that has [inlineData]. *)
Definition firstInline (ps : list Part) : option (option string) :=
  match List.find (λ p, bool_decide (is_Some (inlineData p))) ps with
  | Some p => inlineData p
  | None => None
  end.

(** [parts.find(p => p.text)?.text]: the empty string is falsy. *)
Definition firstText (ps : list Part) : option string :=
  match List.find (λ p, match partText p with
                        | Some (String _ _) => true
                        | _ => false
                        end) ps with
  | Some p => partText p
  | None => None
  end.

(** The [try] block from the response on: the value it returns, or the
    error it throws. *)
Definition readResponse (candidates : list Candidate) : string + Thrown :=
  let candidate := head candidates in
  let reason := candidate ≫= finishReason in
  if bool_decide (reason = Some "SAFETY") then
    inr (newError "Security Protocol Engaged: Image content flagged by safety filters. Please try a different photo.")
  else if bool_decide (reason = Some "OTHER") then
    inr (newError "Protocol Failed: Model processing error. Try reducing image complexity.")
  else
    let ps := default [] (candidate ≫= parts) in
    match firstInline ps with
    | Some blob => inl ("data:image/png;base64," +:+ interpolate blob)
    | None =>
        match firstText ps with
        | Some (String a t) =>
            let textOutput := String a t in
            if JsText.includes "sorry" (JsText.toLowerCase textOutput)
               || JsText.includes "cannot" (JsText.toLowerCase textOutput)
            then inr (newError "Request Denied: The model refused the prompt. Try a clearer face photo.")
            else inr (newError ("Model Response: " +:+
                                String.substring 0 100 textOutput +:+ "..."))
        | _ =>
            inr (newError "Transmission Incomplete: No image data received from satellite.")
        end
    end.

(** The [catch] block. *)
Definition translate (error : Thrown) : Outcome :=
  let msg := toString error in
  if JsText.includes "403" msg then
    Reject (newError "Access Denied: API Key invalid or expired.")
  else if JsText.includes "503" msg then
    Reject (newError "Network Congestion: CTU Servers overloaded. Please retry.")
  else if JsText.includes "400" msg then
    Reject (newError "Data Corruption: Invalid image format or prompt rejected.")
  else
    match error with
    | ErrorObject _ _ => Reject error
    | OtherValue _ =>
        Reject (newError "System Failure: Unknown error occurred during generation.")
    end.

(** The function after the call of the API. *)
Definition settle (r : ApiResult) : Outcome :=
  match r with
  | Returns candidates =>
      match readResponse candidates with
      | inl result => Resolve result
      | inr error => translate error
      end
  | Throws error => translate error
  end.

(** [generateCharacterImage], for a given outcome of loading the image and
    a given behaviour of the API. *)
Definition generateCharacterImage
    (load : ImageLoad) (api : Request → ApiResult)
    (base64Image : string) (mode : ThemeMode) : Outcome :=
  let resizedBase64 := resizeImage load base64Image in
  settle (api (requestOf resizedBase64 mode)).

(** The settled promise as [handleGenerate] sees it. *)
Definition settled (o : Outcome) : App.Settled :=
  match o with
  | Resolve result => App.Fulfilled result
  | Reject e => App.Rejected {| App.message := default "" (messageOf e) |}
  end.

End Gemini.

Module Page.

Import App.

(** A string or null in a condition: null and the empty string are falsy. *)
Definition truthy (v : option string) : bool :=
  match v with
  | Some (String _ _) => true
  | _ => false
  end.

Definition setTheme (f : ThemeMode → ThemeMode) (s : State) : State :=
  {| appState := appState s; theme := f (theme s);
     uploadedImage := uploadedImage s; generatedImage := generatedImage s;
     errorMessage := errorMessage s |}.

Definition setUploadedImage (v : option string) (s : State) : State :=
  {| appState := appState s; theme := theme s; uploadedImage := v;
     generatedImage := generatedImage s; errorMessage := errorMessage s |}.

(** The state of the first render. *)
Definition initial : State :=
  {| appState := IDLE; theme := Theme24; uploadedImage := None;
     generatedImage := None; errorMessage := None |}.

(** [reader.onloadend], for the [reader.result] of that moment: null when
    the file could not be read. *)
Definition onloadend (result : option string) (s : State) : State :=
  setErrorMessage None (setAppState IDLE (setUploadedImage result s)).

Definition reset (s : State) : State :=
  setErrorMessage None
    (setGeneratedImage None (setUploadedImage None (setAppState IDLE s))).

(** [toggleTheme] reads [appState] as rendered. *)
Definition toggleTheme (s : State) : State :=
  let s' := setTheme (λ prev, match prev with
                              | Theme24 => ThemeELF
                              | ThemeELF => Theme24
                              end) s in
  match appState s with
  | COMPLETE => reset s'
  | _ => s'
  end.

(** What is rendered. *)
Definition setupShown (s : State) : bool :=
  match appState s with
  | COMPLETE => false
  | _ => true
  end.

Definition finalShown (s : State) : bool :=
  match appState s with
  | COMPLETE => truthy (generatedImage s)
  | _ => false
  end.

Definition fileInputShown (s : State) : bool :=
  setupShown s && negb (truthy (uploadedImage s)).

Definition previewShown (s : State) : bool :=
  setupShown s && truthy (uploadedImage s).

Definition generateEnabled (s : State) : bool :=
  setupShown s &&
  negb (negb (truthy (uploadedImage s)) ||
        match appState s with PROCESSING => true | _ => false end).

Definition spinnerShown (s : State) : bool :=
  setupShown s && match appState s with PROCESSING => true | _ => false end.

(** The text of the error banner, when it is rendered. *)
Definition banner (s : State) : option string :=
  match appState s with
  | ERROR =>
      Some (orElse (default "" (errorMessage s)) "Unknown error occurred.")
  | _ => None
  end.

(** The page with what is under way: the file reads begun and not ended,
    and the calls of [generateCharacterImage] not settled, each with its
    arguments.  The state updates of one handler are taken together, as
    one render. *)
Record World := mkWorld
  { state : State;
    reads : nat;
    calls : list (string * ThemeMode) }.

Definition start : World := {| state := initial; reads := 0; calls := [] |}.

Inductive Event :=
  | Pick                              (* a file is chosen in the input *)
  | Loadend (result : option string)  (* a read ends *)
  | ClickGenerate
  | Settle (i : nat) (load : Gemini.ImageLoad)
           (api : Gemini.Request → Gemini.ApiResult)
                                      (* the i-th call settles *)
  | ClickRemove                       (* the button on the preview *)
  | ClickNew                          (* the button on the result *)
  | ClickToggle.

(** One event; [None] when the page does not offer it. *)
Definition step (w : World) (e : Event) : option World :=
  let s := state w in
  match e with
  | Pick =>
      if fileInputShown s
      then Some {| state := s; reads := S (reads w); calls := calls w |}
      else None
  | Loadend result =>
      match reads w with
      | S n => Some {| state := onloadend result s; reads := n;
                       calls := calls w |}
      | O => None
      end
  | ClickGenerate =>
      if generateEnabled s then
        match handleGenerate_call s with
        | Some (img, mode, s') =>
            Some {| state := s'; reads := reads w;
                    calls := calls w ++ [(img, mode)] |}
        | None => Some w
        end
      else None
  | Settle i load api =>
      match calls w !! i with
      | Some (img, mode) =>
          let o := Gemini.generateCharacterImage load api img mode in
          Some {| state := handleGenerate_resume (Gemini.settled o) s;
                  reads := reads w; calls := delete i (calls w) |}
      | None => None
      end
  | ClickRemove =>
      if previewShown s
      then Some {| state := reset s; reads := reads w; calls := calls w |}
      else None
  | ClickNew =>
      if finalShown s
      then Some {| state := reset s; reads := reads w; calls := calls w |}
      else None
  | ClickToggle =>
      Some {| state := toggleTheme s; reads := reads w; calls := calls w |}
  end.

Fixpoint run (w : World) (es : list Event) : option World :=
  match es with
  | [] => Some w
  | e :: es =>
      match step w e with
      | Some w' => run w' es
      | None => None
      end
  end.

Definition reachable (w : World) : Prop := ∃ es, run start es = Some w.

(** What holds of every page. *)
Record holds (w : World) : Prop := mkHolds
  { error_has_message :
      appState (state w) = ERROR ->
      ∃ m, errorMessage (state w) = Some m ∧ m ≠ "";
    complete_has_image :
      appState (state w) = COMPLETE ->
      ∃ d, generatedImage (state w) = Some ("data:image/png;base64," +:+ d);
    processing_has_call :
      appState (state w) = PROCESSING ->
      calls w ≠ [] ∧ truthy (uploadedImage (state w)) = true;
    calls_have_image :
      Forall (λ c, c.1 ≠ "") (calls w) }.

(** No event of the list settles a call. *)
Definition noSettle (es : list Event) : Prop :=
  Forall (λ e, match e with Settle _ _ _ => False | _ => True end) es.

End Page.

(** ** App.tsx and Clock.tsx together

    [App] always renders one [Clock] and hands it [targetChristmas] and the
    [handleTick] of the render, a new function each time; [handleTick] sets
    [tickActive] and clears it 50 ms later.  A state update that changes
    the state renders [App] again, and with it [Clock]; one that does not
    change it renders nothing.  The effect that a render of [Clock] leaves
    to run is an event of its own, as for the component alone.  The
    timeouts of [handleTick] are kept beside the timers of [Clock]; time
    passes neither of them. *)

Module Site.

Record State := mkState
  { world : World;           (* the browser and the clock on display *)
    tickActive : bool;
    flashes : list Z;        (* due times of the timeouts of [handleTick] *)
    renders : nat }.         (* renders so far: the [handleTick] in use *)

Definition withWorld (w : World) (s : State) : State :=
  {| world := w; tickActive := tickActive s; flashes := flashes s;
     renders := renders s |}.

(** A render of [App]: the clock receives its props with the new
    [handleTick].  The element is kept, or, when the page changes phase,
    the clock of the other phase replaces it. *)
Definition render (target : Z) (ref : nat) (v : Variant) (th : ThemeMode)
    (replace : bool) (s : State) : option State :=
  let p := {| targetDate := target; targetRef := ref;
              onTick := Some (S (renders s)); variant := v; theme := th |} in
  w' ← (if replace
        then Clock.step (world s) Unmount ≫= λ w, Clock.step w (Mount p)
        else Clock.step (world s) (Update p));
  Some {| world := w'; tickActive := tickActive s; flashes := flashes s;
          renders := S (renders s) |}.

(** [setTickActive]. *)
Definition setTickActive (v : bool) (s : State) : option State :=
  if bool_decide (tickActive s = v) then Some s
  else
    let p := props (clock (world s)) in
    render (targetDate p) (targetRef p) (variant p) (theme p) false
      {| world := world s; tickActive := v; flashes := flashes s;
         renders := renders s |}.

Definition handleTick (s : State) : option State :=
  s' ← setTickActive true s;
  Some {| world := world s'; tickActive := tickActive s';
          flashes := flashes s' ++ [wall (browser (world s')) + 50];
          renders := renders s' |}.

Inductive Event :=
  | Wait (dt : Z)
  | RunClock (id : nat)      (* a timer of the clock runs *)
  | RunFlash (i : nat)       (* a timeout of [handleTick] runs *)
  | Effect                   (* the effect left by a render of the clock *)
  | Render (target : Z) (ref : nat) (v : Variant) (th : ThemeMode)
           (replace : bool). (* [App] renders for another reason *)

Definition step (s : State) (e : Event) : option State :=
  match e with
  | Wait dt =>
      if bool_decide
           (Forall (λ d, wall (browser (world s)) + dt <= d) (flashes s))
      then w' ← Clock.step (world s) (Elapse dt); Some (withWorld w' s)
      else None
  | RunClock id =>
      w' ← Clock.step (world s) (Fire id);
      match task <$> timers (browser (world s)) !! id with
      | Some (Tick _ _ (Some _)) => handleTick (withWorld w' s)
      | _ => Some (withWorld w' s)
      end
  | RunFlash i =>
      match flashes s !! i with
      | Some d =>
          if bool_decide (d <= wall (browser (world s)))
          then setTickActive false
                 {| world := world s; tickActive := tickActive s;
                    flashes := delete i (flashes s); renders := renders s |}
          else None
      | None => None
      end
  | Effect => w' ← Clock.step (world s) RunEffect; Some (withWorld w' s)
  | Render target ref v th replace => render target ref v th replace s
  end.

Fixpoint run (s : State) (es : list Event) : option State :=
  match es with
  | [] => Some s
  | e :: es =>
      match step s e with
      | Some s' => run s' es
      | None => None
      end
  end.

(** The first render, at time [t0]: the target is still [new Date()]. *)
Definition start (t0 : Z) : State :=
  let p := {| targetDate := t0; targetRef := 0; onTick := Some 0%nat;
              variant := small; theme := Theme24 |} in
  {| world := Clock.withClock (Clock.fresh p (clock (Clock.init t0)))
                (Clock.init t0);
     tickActive := false; flashes := []; renders := 0 |}.

Definition reachable (s : State) : Prop :=
  ∃ t0 es, run (start t0) es = Some s.

(** Consecutive entries of a log of instants, newest first, lie at least
    [gap] apart. *)
Fixpoint spacedBy (gap : Z) (l : list Z) : Prop :=
  match l with
  | a :: l' =>
      match l' with
      | b :: _ => b + gap <= a
      | [] => True
      end ∧ spacedBy gap l'
  | [] => True
  end.

(** Every repeating timer of the table is due at [d] or later, or is not
    due yet and about to be replaced by an effect that is still to run. *)
Definition intervalsFrom (d : Z) (w : World) : Prop :=
  ∀ id t, timers (browser w) !! id = Some t -> is_Some (repeating t) ->
          d <= due t ∨
          (pending (clock w) = true ∧ wall (browser w) < due t).

(** What holds of the page and its clock at all times. *)
Record holds (s : State) : Prop := mkHolds
  { clock_holds : Inv.holds (world s);
    clock_mounted : mounted (clock (world s)) = true;
    callback :
      ∃ f, onTick (props (clock (world s))) = Some f ∧ (f <= renders s)%nat;
    closures :
      ∀ id t inst target cb,
        timers (browser (world s)) !! id = Some t ->
        task t = Tick inst target cb -> is_Some cb;
    flash :
      match Inv.lastTick (world s) with
      | Some τ =>
          (flashes s = [] ∧ tickActive s = false ∧
           τ + 50 <= wall (browser (world s)) ∧
           intervalsFrom (τ + 1050) (world s))
          ∨ (flashes s = [τ + 50] ∧ tickActive s = true ∧
             wall (browser (world s)) <= τ + 50)
      | None => flashes s = [] ∧ tickActive s = false
      end;
    gaps : spacedBy 1050 (ticks (world s));
    called : (calls (world s)).*2 = ticks (world s) }.

End Site.

(** * Properties *)

(** ** Arithmetic of the number operators *)

Section NumberFacts.

Lemma floor_div_inject (n m : Z) :
  JsNum.floor (inject_Z n / inject_Z m) = n / m.
Proof. unfold JsNum.floor. symmetry. apply Zdiv_Qdiv. Qed.

Lemma floor_sub_inject (x : Q) (k : Z) :
  JsNum.floor (x - inject_Z k) = JsNum.floor x - k.
Proof.
  unfold JsNum.floor. destruct x as [n d].
  unfold Qminus, Qplus, Qopp, inject_Z, Qfloor. simpl.
  rewrite Z.mul_1_r, Pos.mul_1_r.
  replace (n + - k * Z.pos d) with (n + (- k) * Z.pos d) by ring.
  rewrite Z.div_add by discriminate. ring.
Qed.

Lemma trunc_nonneg (x : Q) : (0 <= x)%Q -> JsNum.trunc x = Qfloor x.
Proof.
  intros H. unfold JsNum.trunc.
  apply Qle_bool_iff in H. now rewrite H.
Qed.

Lemma floor_div_Z (x : Q) (m : Z) :
  0 < m -> JsNum.floor (x / inject_Z m) = JsNum.floor x / m.
Proof.
  intros Hm. unfold JsNum.floor. destruct x as [n d].
  destruct m as [|p|p]; try lia.
  unfold Qdiv, Qmult, Qinv, inject_Z, Qfloor. simpl.
  rewrite Z.mul_1_r, Pos2Z.inj_mul.
  now rewrite Z.div_div by lia.
Qed.

Lemma div_inject_nonneg (x : Q) (m : Z) :
  (0 <= x)%Q -> 0 < m -> (0 <= x / inject_Z m)%Q.
Proof.
  intros Hx Hm. apply Qle_shift_div_l.
  - change 0%Q with (inject_Z 0). rewrite <- Zlt_Qlt. exact Hm.
  - now rewrite Qmult_0_l.
Qed.

(** [Math.floor (x % m)] on a non-negative [x] and a positive integer [m]
    is the integer part of [x] reduced modulo [m]. *)
Lemma floor_rem (x : Q) (m : Z) :
  (0 <= x)%Q -> 0 < m ->
  JsNum.floor (JsNum.rem x (inject_Z m)) = JsNum.floor x mod m.
Proof.
  intros Hx Hm. unfold JsNum.rem.
  rewrite trunc_nonneg by now apply div_inject_nonneg.
  fold (JsNum.floor (x / inject_Z m)). rewrite floor_div_Z by exact Hm.
  assert (E : (x - inject_Z m * inject_Z (JsNum.floor x / m) ==
               x - inject_Z (m * (JsNum.floor x / m)))%Q)
    by now rewrite inject_Z_mult.
  unfold JsNum.floor at 1. rewrite E. fold (JsNum.floor
    (x - inject_Z (m * (JsNum.floor x / m)))).
  rewrite floor_sub_inject. rewrite Z.mod_eq by lia. reflexivity.
Qed.

End NumberFacts.

(** ** The duration *)

Lemma calculateTimeLeft_past (T N : Z) :
  T <= N -> calculateTimeLeft T N = zeroTime.
Proof.
  intros H. unfold calculateTimeLeft.
  assert (E : Qle_bool (inject_Z (T - N)) 0 = true).
  { apply Qle_bool_iff. change 0%Q with (inject_Z 0).
    rewrite <- Zle_Qle. lia. }
  now rewrite E.
Qed.

Section Duration.

Variables T N : Z.
Hypothesis future : N < T.

Lemma difference_pos : Qle_bool (inject_Z (T - N)) 0 = false.
Proof.
  apply not_true_iff_false. rewrite Qle_bool_iff.
  change 0%Q with (inject_Z 0). rewrite <- Zle_Qle. lia.
Qed.

Lemma difference_nonneg : (0 <= inject_Z (T - N))%Q.
Proof. change 0%Q with (inject_Z 0). rewrite <- Zle_Qle. lia. Qed.

Lemma days_div : days (calculateTimeLeft T N) = (T - N) / 86400000.
Proof.
  unfold calculateTimeLeft. rewrite difference_pos. cbn [days].
  now rewrite floor_div_inject.
Qed.

Lemma hours_div : hours (calculateTimeLeft T N) = ((T - N) / 3600000) mod 24.
Proof.
  unfold calculateTimeLeft. rewrite difference_pos. cbn [hours].
  change 24%Q with (inject_Z 24).
  rewrite floor_rem, floor_div_inject; try lia; try reflexivity.
  apply div_inject_nonneg; [apply difference_nonneg | reflexivity].
Qed.

Lemma minutes_div : minutes (calculateTimeLeft T N) = ((T - N) / 60000) mod 60.
Proof.
  unfold calculateTimeLeft. rewrite difference_pos. cbn [minutes].
  change 60%Q with (inject_Z 60). change 1000%Q with (inject_Z 1000).
  rewrite floor_rem; try lia.
  - rewrite floor_div_Z, floor_div_inject by lia.
    now rewrite Z.div_div by lia.
  - apply div_inject_nonneg; [|lia].
    apply div_inject_nonneg; [apply difference_nonneg | lia].
Qed.

Lemma seconds_div : seconds (calculateTimeLeft T N) = ((T - N) / 1000) mod 60.
Proof.
  unfold calculateTimeLeft. rewrite difference_pos. cbn [seconds].
  change 60%Q with (inject_Z 60). change 1000%Q with (inject_Z 1000).
  rewrite floor_rem, floor_div_inject; try lia; try reflexivity.
  apply div_inject_nonneg; [apply difference_nonneg | lia].
Qed.

(** The four fields represent the difference rounded down to a second. *)
Lemma toMillis_div : toMillis (calculateTimeLeft T N) = (T - N) / 1000 * 1000.
Proof.
  unfold toMillis.
  rewrite days_div, hours_div, minutes_div, seconds_div.
  set (x := T - N).
  Z.div_mod_to_equations. lia.
Qed.

End Duration.

Lemma calculateTimeLeft_nonNegative (T N : Z) :
  nonNegative (calculateTimeLeft T N).
Proof.
  destruct (Z_le_gt_dec T N) as [H|H].
  - rewrite calculateTimeLeft_past by exact H. repeat split; reflexivity.
  - assert (F : N < T) by lia. unfold nonNegative.
    rewrite (days_div _ _ F), (hours_div _ _ F), (minutes_div _ _ F),
      (seconds_div _ _ F).
    Z.div_mod_to_equations. lia.
Qed.

(** C2.  For a target [T] after the current instant [N], [days] is the
    number of whole days in [T - N], the other fields are within their
    ranges, the milliseconds represented by the four fields do not exceed
    [T - N] and fall short of it by less than a second; a difference of
    90061000 ms gives one day, one hour, one minute and one second. *)
Theorem duration_of_future_target (T N : Z) :
  N < T ->
  let t := calculateTimeLeft T N in
  days t = (T - N) / 86400000 ∧
  0 <= hours t < 24 ∧ 0 <= minutes t < 60 ∧ 0 <= seconds t < 60 ∧
  toMillis t <= T - N ∧ T - N - toMillis t < 1000 ∧
  calculateTimeLeft (N + 90061000) N =
    {| days := 1; hours := 1; minutes := 1; seconds := 1 |}.
Proof.
  intros F t. subst t.
  rewrite (toMillis_div _ _ F), (days_div _ _ F), (hours_div _ _ F),
    (minutes_div _ _ F), (seconds_div _ _ F).
  repeat split; try (Z.div_mod_to_equations; lia).
  assert (F' : N < N + 90061000) by lia.
  pose proof (days_div _ _ F') as Hd. pose proof (hours_div _ _ F') as Hh.
  pose proof (minutes_div _ _ F') as Hm.
  pose proof (seconds_div _ _ F') as Hs.
  destruct (calculateTimeLeft (N + 90061000) N) as [a b c e].
  cbn [days hours minutes seconds] in *.
  replace (N + 90061000 - N) with 90061000 in * by lia.
  now subst.
Qed.

Lemma duration_of_future_target_witness :
  let t := calculateTimeLeft 1735084800000 1734998400500 in
  days t = (1735084800000 - 1734998400500) / 86400000 ∧
  0 <= hours t < 24 ∧ 0 <= minutes t < 60 ∧ 0 <= seconds t < 60 ∧
  toMillis t <= 1735084800000 - 1734998400500 ∧
  1735084800000 - 1734998400500 - toMillis t < 1000 ∧
  calculateTimeLeft (1734998400500 + 90061000) 1734998400500 =
    {| days := 1; hours := 1; minutes := 1; seconds := 1 |}.
Proof.
  apply (duration_of_future_target 1735084800000 1734998400500). lia.
Defined.

(** ** Glyphs *)

Lemma DIGIT_SEGMENTS_outside (value : Z) :
  ¬ (0 <= value <= 9) -> DIGIT_SEGMENTS !! value = None.
Proof.
  intros H. apply not_elem_of_list_to_map. cbn.
  rewrite !elem_of_cons, elem_of_nil. lia.
Qed.

Lemma digit_cases (value : Z) :
  0 <= value <= 9 ->
  value ∈ [0; 1; 2; 3; 4; 5; 6; 7; 8; 9].
Proof. intros H. rewrite !elem_of_cons. lia. Qed.

Lemma segmentsOf_digit
    (value : option Z) (pulse : bool) (className : string)
    (theme : ThemeMode) :
  segmentsOf (SevenSegmentDigit value pulse className theme) =
  activeSegments value.
Proof.
  unfold segmentsOf, SevenSegmentDigit. cbn [activePaths].
  rewrite <- list_fmap_compose. apply list_fmap_id.
Qed.

(** C3.  The digit renderer draws exactly the segments of the table; for a
    value from 0 to 9 this is the table's entry, a non-empty list without
    repetition of segments among a to g; for any other integer, and for
    NaN, no segment is active. *)
Theorem digit_segments_total
    (value : Z) (pulse : bool) (className : string) (theme : ThemeMode) :
  segmentsOf (SevenSegmentDigit (Some value) pulse className theme) =
    activeSegments (Some value) ∧
  segmentsOf (SevenSegmentDigit None pulse className theme) = [] ∧
  if bool_decide (0 <= value <= 9)
  then DIGIT_SEGMENTS !! value = Some (activeSegments (Some value)) ∧
       activeSegments (Some value) ≠ [] ∧
       NoDup (activeSegments (Some value)) ∧
       activeSegments (Some value) ⊆ ["a"; "b"; "c"; "d"; "e"; "f"; "g"] ∧
       activeSegments (Some value) ⊆ segmentKeys
  else activeSegments (Some value) = [].
Proof.
  split; [apply segmentsOf_digit|]. split; [apply segmentsOf_digit|].
  case_bool_decide as H.
  - apply digit_cases in H.
    repeat (apply elem_of_cons in H as [->|H];
            [split; [vm_compute; reflexivity|];
             split; [vm_compute; discriminate|];
             split; [compute_done|]; split; compute_done |]).
    now apply elem_of_nil in H.
  - unfold activeSegments. now rewrite DIGIT_SEGMENTS_outside.
Qed.

(** ** Digit pairs *)

Lemma groupDigits_below_100 (value : Z) :
  0 <= value < 100 -> groupDigits value = tensUnits value.
Proof.
  intros H.
  assert (A : forallb
                (λ n, bool_decide
                        (groupDigits (Z.of_nat n) = tensUnits (Z.of_nat n)))
                (seq 0 100) = true) by (vm_compute; reflexivity).
  rewrite forallb_forall in A.
  specialize (A (Z.to_nat value)).
  rewrite Z2Nat.id in A by lia.
  apply bool_decide_eq_true_1 with (1 := A ltac:(apply in_seq; lia)).
Qed.

Lemma groupDigits_single (n : Z) :
  0 <= n <= 9 -> groupDigits n = (Some 0, Some n).
Proof.
  intros H. rewrite groupDigits_below_100 by lia. unfold tensUnits.
  rewrite Z.div_small, Z.mod_0_l, Z.mod_small by lia. reflexivity.
Qed.

(** Three-digit values are cut to their first two characters. *)
Lemma groupDigits_three_digits (value : Z) :
  100 <= value < 1000 ->
  groupDigits value = (Some (value / 100), Some (value / 10 mod 10)).
Proof.
  intros H.
  assert (A : forallb
                (λ n, bool_decide
                        (groupDigits (Z.of_nat n) =
                         (Some (Z.of_nat n / 100),
                          Some (Z.of_nat n / 10 mod 10))))
                (seq 100 900) = true) by (vm_compute; reflexivity).
  rewrite forallb_forall in A.
  specialize (A (Z.to_nat value)).
  rewrite Z2Nat.id in A by lia.
  apply bool_decide_eq_true_1 with (1 := A ltac:(apply in_seq; lia)).
Qed.

(** C4, at the value 100 (a countdown of one hundred days): the digits
    shown are 1 and 0, the first two characters of the decimal string,
    where the tens and units digits are 0 and 0; at 358 they are 3 and 5
    where tens and units are 5 and 8. *)
Theorem groupDigits_drops_units :
  groupDigits 100 = (Some 1, Some 0) ∧ tensUnits 100 = (Some 0, Some 0) ∧
  groupDigits 358 = (Some 3, Some 5) ∧ tensUnits 358 = (Some 5, Some 8) ∧
  days (calculateTimeLeft (100 * 86400000) 0) = 100.
Proof. vm_compute. repeat split; reflexivity. Qed.

(** ** The theme and the glyphs *)

Lemma activePaths_theme
    (value : option Z) (pulse : bool) (className : string) :
  activePaths (SevenSegmentDigit value pulse className Theme24) =
  activePaths (SevenSegmentDigit value pulse className ThemeELF).
Proof. reflexivity. Qed.

Lemma glyphs_render_theme
    (variant : Variant) (theme theme' : ThemeMode)
    (timeLeft : CountdownTime) (pulse : bool) :
  glyphs <$> render variant theme timeLeft pulse =
  glyphs <$> render variant theme' timeLeft pulse.
Proof.
  unfold render, renderGroup. cbn [fmap list_fmap].
  repeat match goal with
         | |- context [groupDigits ?v] => destruct (groupDigits v)
         end.
  cbn [glyphs label digit1 digit2]. now rewrite !segmentsOf_digit.
Qed.

(** ** handleGenerate *)

Lemma orElse_nonempty (a b : string) : a ≠ "" -> App.orElse a b = a.
Proof. destruct a; [congruence | reflexivity]. Qed.

Lemma handleGenerate_call_some (s : App.State) (img : string) :
  App.uploadedImage s = Some img -> img ≠ "" ->
  App.handleGenerate_call s =
  Some (img, App.theme s,
        App.setErrorMessage None (App.setAppState PROCESSING s)).
Proof.
  intros E Hne. unfold App.handleGenerate_call. rewrite E.
  destruct img; [congruence | reflexivity].
Qed.

(** ** Calendar arithmetic *)

Module DateFacts.

Import JsDate.

Lemma DayFromYear_succ (y : Z) :
  DayFromYear (y + 1) = DayFromYear y + DaysInYear y.
Proof.
  unfold DayFromYear, DaysInYear.
  repeat match goal with
         | |- context [?a =? ?b] => destruct (Z.eqb_spec a b); cbn [negb]
         end;
    Z.div_mod_to_equations; lia.
Qed.

Lemma DaysInYear_range (y : Z) : DaysInYear y = 365 ∨ DaysInYear y = 366.
Proof.
  unfold DaysInYear.
  repeat match goal with
         | |- context [?a =? ?b] => destruct (Z.eqb_spec a b); cbn [negb]
         end; auto.
Qed.

Lemma DayFromYear_lt (a b : Z) : a < b -> DayFromYear a < DayFromYear b.
Proof.
  intros H. unfold DayFromYear. Z.div_mod_to_equations. lia.
Qed.

Lemma DayFromYear_le (a b : Z) : a <= b -> DayFromYear a <= DayFromYear b.
Proof.
  intros H. unfold DayFromYear. Z.div_mod_to_equations. lia.
Qed.

Lemma YearFromDay_spec (d : Z) :
  DayFromYear (YearFromDay d) <= d < DayFromYear (YearFromDay d + 1).
Proof.
  unfold YearFromDay.
  set (y := 1970 + 400 * d / 146097).
  assert (L : DayFromYear (y - 1) <= d < DayFromYear (y + 2)).
  { subst y. unfold DayFromYear. Z.div_mod_to_equations. lia. }
  destruct (Z.ltb_spec d (DayFromYear y)) as [A|A].
  - replace (y - 1 + 1) with y by lia. lia.
  - destruct (Z.leb_spec (DayFromYear (y + 1)) d) as [B|B].
    + replace (y + 1 + 1) with (y + 2) by lia. lia.
    + lia.
Qed.

Lemma YearFromDay_unique (y d : Z) :
  DayFromYear y <= d < DayFromYear (y + 1) -> YearFromDay d = y.
Proof.
  intros H. pose proof (YearFromDay_spec d) as S.
  destruct (Z.lt_trichotomy (YearFromDay d) y) as [L|[E|G]]; [|exact E|].
  - pose proof (DayFromYear_le (YearFromDay d + 1) y). lia.
  - pose proof (DayFromYear_le (y + 1) (YearFromDay d)). lia.
Qed.

Lemma leap_range (y : Z) : DaysInYear y = 365 + leap y.
Proof.
  unfold leap. destruct (DaysInYear_range y) as [-> | ->]; reflexivity.
Qed.

(** The time value of a day within a year and a time within the day. *)
Section Within.

Variables y n ms : Z.
Hypothesis n_range : 0 <= n < DaysInYear y.
Hypothesis ms_range : 0 <= ms < msPerDay.

Local Abbreviation t := (MakeDate (DayFromYear y + n) ms).

Lemma Day_within : Day t = DayFromYear y + n.
Proof.
  unfold Day, MakeDate, msPerDay in *.
  Z.div_mod_to_equations. lia.
Qed.

Lemma TimeWithinDay_within : TimeWithinDay t = ms.
Proof.
  unfold TimeWithinDay, MakeDate, msPerDay in *.
  Z.div_mod_to_equations. lia.
Qed.

Lemma YearFromTime_within : YearFromTime t = y.
Proof.
  unfold YearFromTime. rewrite Day_within.
  apply YearFromDay_unique. rewrite DayFromYear_succ. lia.
Qed.

Lemma DayWithinYear_within : DayWithinYear t = n.
Proof.
  unfold DayWithinYear. rewrite YearFromTime_within, Day_within. lia.
Qed.

Lemma InLeapYear_within : InLeapYear t = leap y.
Proof. unfold InLeapYear. now rewrite YearFromTime_within. Qed.

End Within.

(** A time value decomposes into its year, day within the year and time
    within the day. *)
Lemma decompose (t : Z) :
  t = MakeDate (DayFromYear (YearFromTime t) + DayWithinYear t)
        (TimeWithinDay t) ∧
  0 <= DayWithinYear t < DaysInYear (YearFromTime t) ∧
  0 <= TimeWithinDay t < msPerDay.
Proof.
  pose proof (YearFromDay_spec (Day t)) as S.
  rewrite DayFromYear_succ in S.
  unfold DayWithinYear, YearFromTime, MakeDate, TimeWithinDay, Day,
    msPerDay in *.
  repeat split; try lia; Z.div_mod_to_equations; lia.
Qed.

Lemma MakeDay_december25 (y : Z) :
  MakeDay y 11 25 = DayFromYear y + (358 + leap y).
Proof.
  unfold MakeDay. change (11 / 12) with 0. change (11 mod 12) with 11.
  rewrite Z.add_0_r. cbn [monthStart]. lia.
Qed.

Lemma december25_day (y : Z) : 0 <= 358 + leap y < DaysInYear y.
Proof. rewrite leap_range. unfold leap. destruct (_ =? _); lia. Qed.

(** December 25 of year [y] at local time [ms] within the day. *)
Section December25.

Variables y ms : Z.
Hypothesis ms_range : 0 <= ms < msPerDay.

Local Abbreviation t := (MakeDate (MakeDay y 11 25) ms).

Lemma december25_fields :
  YearFromTime t = y ∧ MonthFromTime t = 11 ∧ DateFromTime t = 25 ∧
  TimeWithinDay t = ms.
Proof.
  rewrite MakeDay_december25.
  pose proof (december25_day y) as R.
  pose proof (YearFromTime_within _ _ _ R ms_range) as Hy.
  pose proof (DayWithinYear_within _ _ _ R ms_range) as Hd.
  pose proof (InLeapYear_within _ _ _ R ms_range) as Hl.
  assert (Hm : MonthFromTime
                 (MakeDate (DayFromYear y + (358 + leap y)) ms) = 11).
  { unfold MonthFromTime. rewrite Hd, Hl.
    assert (0 <= leap y <= 1) by (unfold leap; destruct (_ =? _); lia).
    repeat match goal with
           | |- context [?a <? ?b] =>
               destruct (Z.ltb_spec a b); [lia|]
           end.
    reflexivity. }
  repeat split; [exact Hy | exact Hm | | ].
  - unfold DateFromTime. rewrite Hm, Hd, Hl. cbn [monthStart]. lia.
  - now apply TimeWithinDay_within.
Qed.

End December25.

(** A time value whose month is 11 and whose date is 25 lies on the day
    [MakeDay y 11 25] of its year. *)
Lemma on_december25 (t : Z) :
  MonthFromTime t = 11 -> DateFromTime t = 25 ->
  t = MakeDate (MakeDay (YearFromTime t) 11 25) (TimeWithinDay t).
Proof.
  intros Hm Hd. destruct (decompose t) as (E & R & _).
  rewrite MakeDay_december25.
  unfold DateFromTime in Hd. rewrite Hm in Hd. cbn [monthStart] in Hd.
  assert (L : InLeapYear t = leap (YearFromTime t)) by reflexivity.
  rewrite L in Hd.
  replace (358 + leap (YearFromTime t)) with (DayWithinYear t) by lia.
  exact E.
Qed.

End DateFacts.

(** ** The target of the countdown *)

Section Target.

Import JsDate DateFacts.

Variable tza : Z.
Hypothesis tza_range : - msPerDay < tza < msPerDay.

Lemma LocalTime_UTC (t : Z) : LocalTime tza (UTC tza t) = t.
Proof. unfold LocalTime, UTC. lia. Qed.

Lemma christmasMidnight_eq (y : Z) :
  christmasMidnight tza y = UTC tza (MakeDate (MakeDay y 11 25) 0).
Proof. reflexivity. Qed.

Lemma MakeDate_time (d ms : Z) : MakeDate d ms = MakeDate d 0 + ms.
Proof. unfold MakeDate. lia. Qed.

Lemma MakeTime_0 : MakeTime 0 0 0 0 = 0.
Proof. reflexivity. Qed.

Lemma TimeClip_in_range (t : Z) :
  Z.abs t <= 8640000000000000 -> TimeClip t = Some t.
Proof.
  intros H. unfold TimeClip.
  destruct (Z.gtb_spec (Z.abs t) 8640000000000000); [lia | reflexivity].
Qed.

Lemma christmasMidnight_fields (y : Z) :
  localFields tza (christmasMidnight tza y) = (y, 11, 25, 0).
Proof.
  unfold localFields. rewrite christmasMidnight_eq, LocalTime_UTC.
  assert (R : 0 <= 0 < msPerDay) by (unfold msPerDay; lia).
  destruct (december25_fields y 0 R) as (-> & -> & -> & ->).
  reflexivity.
Qed.

Lemma christmasMidnight_bounds (y : Z) :
  (DayFromYear y + 358) * msPerDay - tza <= christmasMidnight tza y
    <= (DayFromYear y + 359) * msPerDay - tza.
Proof.
  rewrite christmasMidnight_eq. unfold UTC, MakeDate.
  rewrite MakeDay_december25.
  assert (0 <= leap y <= 1) by (unfold leap; destruct (_ =? _); lia).
  unfold msPerDay in *. lia.
Qed.

Variable now : Z.
Hypothesis now_range : 0 <= now <= 8600000000000000.

Local Abbreviation y := (getFullYear tza now).

Lemma currentYear_range :
  1969 <= y ∧ DayFromYear y <= 99537038 ∧ - 365 <= DayFromYear y.
Proof.
  unfold getFullYear, YearFromTime.
  set (d := Day (LocalTime tza now)).
  assert (D : -1 <= d <= 99537038).
  { subst d. unfold Day, LocalTime, msPerDay in *.
    Z.div_mod_to_equations. lia. }
  pose proof (YearFromDay_spec d) as S.
  assert (Y : 1969 <= YearFromDay d).
  { destruct (Z_lt_le_dec (YearFromDay d) 1969) as [L|L]; [|exact L].
    pose proof (DayFromYear_le (YearFromDay d + 1) 1969 ltac:(lia)) as Q.
    change (DayFromYear 1969) with (-365) in Q. lia. }
  split; [exact Y|]. split; [lia|].
  pose proof (DayFromYear_le 1969 (YearFromDay d) Y) as Q.
  change (DayFromYear 1969) with (-365) in Q. lia.
Qed.

Lemma clip_christmas (k : Z) :
  0 <= k <= 1 ->
  TimeClip (christmasMidnight tza (y + k)) =
  Some (christmasMidnight tza (y + k)).
Proof.
  intros Hk. destruct currentYear_range as (_ & U & L).
  pose proof (christmasMidnight_bounds (y + k)) as B.
  assert (S : DayFromYear y <= DayFromYear (y + k) <= DayFromYear y + 366).
  { assert (k = 0 ∨ k = 1) as [-> | ->] by lia.
    - rewrite Z.add_0_r. lia.
    - rewrite DayFromYear_succ.
      destruct (DaysInYear_range y) as [-> | ->]; lia. }
  apply TimeClip_in_range. unfold msPerDay in *. lia.
Qed.

Lemma construct_christmas :
  construct tza y 11 25 = Some (christmasMidnight tza y).
Proof.
  destruct currentYear_range as (Y & _).
  unfold construct.
  replace ((0 <=? y) && (y <=? 99)) with false
    by (symmetry; apply andb_false_iff; right; apply Z.leb_gt; lia).
  rewrite MakeTime_0, <- christmasMidnight_eq.
  pose proof (clip_christmas 0 ltac:(lia)) as C.
  rewrite Z.add_0_r in C. exact C.
Qed.

Lemma setFullYear_christmas :
  setFullYear tza (Some (christmasMidnight tza y)) (y + 1) =
  Some (christmasMidnight tza (y + 1)).
Proof.
  unfold setFullYear.
  pose proof (christmasMidnight_fields y) as F.
  unfold localFields in F. injection F as _ Fm Fd Ft.
  rewrite Fm, Fd, Ft, <- christmasMidnight_eq.
  apply clip_christmas. lia.
Qed.

Lemma nextChristmas_cases :
  App.nextChristmas tza now =
  Some (if now <=? christmasMidnight tza y
        then christmasMidnight tza y
        else christmasMidnight tza (y + 1)).
Proof.
  unfold App.nextChristmas.
  rewrite construct_christmas. cbn [gt].
  destruct (Z.ltb_spec (christmasMidnight tza y) now) as [A|A];
    destruct (Z.leb_spec now (christmasMidnight tza y)) as [B|B];
    try lia; [apply setFullYear_christmas | reflexivity].
Qed.

Lemma after_midnight_on_christmas :
  MonthFromTime (LocalTime tza now) = 11 ->
  DateFromTime (LocalTime tza now) = 25 ->
  0 < TimeWithinDay (LocalTime tza now) ->
  christmasMidnight tza y < now.
Proof.
  intros Hm Hd Ht.
  pose proof (on_december25 _ Hm Hd) as E.
  rewrite MakeDate_time in E.
  unfold getFullYear. rewrite christmasMidnight_eq.
  assert (L : LocalTime tza now = now + tza) by reflexivity.
  generalize dependent (LocalTime tza now). intros l Hm Hd Ht E L.
  revert E. generalize (MakeDate (MakeDay (YearFromTime l) 11 25) 0).
  intros m E. unfold UTC. lia.
Qed.

End Target.

(** C9.  With the local zone at a fixed offset and the current instant
    between 1970 and the end of the range of dates, the target is local
    midnight of December 25 of the current year when the current instant is
    not after it and of December 25 of the next year otherwise; at an
    instant of December 25 after midnight it is the midnight of December 25
    of the next year. *)
Theorem next_christmas_target (tza now : Z) :
  - JsDate.msPerDay < tza < JsDate.msPerDay ->
  0 <= now <= 8600000000000000 ->
  let y := JsDate.getFullYear tza now in
  App.nextChristmas tza now =
    Some (if now <=? christmasMidnight tza y
          then christmasMidnight tza y
          else christmasMidnight tza (y + 1)) ∧
  localFields tza (christmasMidnight tza y) = (y, 11, 25, 0) ∧
  localFields tza (christmasMidnight tza (y + 1)) = (y + 1, 11, 25, 0) ∧
  (∀ ms, localFields tza now = (y, 11, 25, ms) -> 0 < ms ->
         App.nextChristmas tza now = Some (christmasMidnight tza (y + 1))).
Proof.
  intros Htz Hnow y.
  pose proof (nextChristmas_cases tza Htz now Hnow) as C. fold y in C.
  split; [exact C|].
  split; [apply christmasMidnight_fields|].
  split; [apply christmasMidnight_fields|].
  intros ms F Hms. unfold localFields in F. injection F as Fm Fd Ft.
  subst ms.
  pose proof (after_midnight_on_christmas tza now Fm Fd Hms) as A.
  fold y in A. rewrite C.
  destruct (Z.leb_spec now (christmasMidnight tza y)); [lia | reflexivity].
Qed.

Lemma next_christmas_target_witness :
  App.nextChristmas 3600000 1735117200000 =
    Some (if 1735117200000 <=? christmasMidnight 3600000 2024
          then christmasMidnight 3600000 2024
          else christmasMidnight 3600000 (2024 + 1)) ∧
  localFields 3600000 (christmasMidnight 3600000 2024) = (2024, 11, 25, 0) ∧
  localFields 3600000 (christmasMidnight 3600000 (2024 + 1)) =
    (2024 + 1, 11, 25, 0) ∧
  App.nextChristmas 3600000 1735117200000 =
    Some (christmasMidnight 3600000 (2024 + 1)).
Proof.
  destruct (next_christmas_target 3600000 1735117200000)
    as (A & B & C & D).
  - unfold JsDate.msPerDay. lia.
  - lia.
  - split; [exact A|]. split; [exact B|]. split; [exact C|].
    apply (D 36000000); [vm_compute; reflexivity | lia].
Defined.

(** C10, at a rejection whose error has an empty message: the handler
    stores the fixed fallback text and not the error's message. *)
Lemma handleGenerate_empty_message :
  let s := {| App.appState := IDLE; App.theme := Theme24;
              App.uploadedImage := Some "data:image/png;base64,AA";
              App.generatedImage := None; App.errorMessage := None |} in
  let error := {| App.message := "" |} in
  let s' := App.handleGenerate (λ _ _, App.Rejected error) s in
  App.appState s' = ERROR ∧
  App.errorMessage s' = Some "An unexpected error occurred." ∧
  App.errorMessage s' ≠ Some (App.message error).
Proof. cbn. repeat split. discriminate. Qed.

(** C10, amended.  When an image is uploaded the handler makes the call
    with that image and the theme.  If the call rejects, the handler leaves
    [uploadedImage] and [generatedImage] unchanged, sets the state to ERROR
    and stores the error's message, or the fixed text "An unexpected error
    occurred." when that message is empty; if it fulfills, the handler sets
    [generatedImage] to the returned value and the state to COMPLETE;
    [uploadedImage] is unchanged in both cases.  The same holds for the part
    of the handler after the await on any state [s2] of that moment. *)
Theorem handleGenerate_outcome
    (generateCharacterImage : string → ThemeMode → App.Settled)
    (s s2 : App.State) (img : string) :
  App.uploadedImage s = Some img -> img ≠ "" ->
  let o := generateCharacterImage img (App.theme s) in
  let s' := App.handleGenerate generateCharacterImage s in
  let s3 := App.handleGenerate_resume o s2 in
  App.uploadedImage s' = App.uploadedImage s ∧
  App.uploadedImage s3 = App.uploadedImage s2 ∧
  match o with
  | App.Rejected error =>
      App.generatedImage s' = App.generatedImage s ∧
      App.appState s' = ERROR ∧
      App.errorMessage s' =
        Some (if decide (App.message error = "")
              then "An unexpected error occurred."
              else App.message error) ∧
      App.generatedImage s3 = App.generatedImage s2 ∧
      App.appState s3 = ERROR ∧
      App.errorMessage s3 = App.errorMessage s'
  | App.Fulfilled result =>
      App.generatedImage s' = Some result ∧ App.appState s' = COMPLETE ∧
      App.generatedImage s3 = Some result ∧ App.appState s3 = COMPLETE
  end.
Proof.
  intros E Hne o s' s3. subst s' s3. unfold App.handleGenerate.
  rewrite (handleGenerate_call_some s img E Hne). fold o.
  destruct o as [result|error]; cbn.
  - repeat split; assumption.
  - destruct (decide (App.message error = "")) as [->|N].
    + repeat split; assumption.
    + rewrite orElse_nonempty by exact N. repeat split; assumption.
Qed.

Lemma handleGenerate_outcome_witness :
  let s := {| App.appState := IDLE; App.theme := ThemeELF;
              App.uploadedImage := Some "data:image/png;base64,AA";
              App.generatedImage := Some "old"; App.errorMessage := None |} in
  let s' := App.handleGenerate
              (λ _ _, App.Rejected {| App.message := "Access Denied" |}) s in
  App.uploadedImage s' = App.uploadedImage s ∧
  App.generatedImage s' = App.generatedImage s ∧
  App.appState s' = ERROR ∧
  App.errorMessage s' = Some "Access Denied".
Proof.
  intros s s'.
  destruct (handleGenerate_outcome
              (λ _ _, App.Rejected {| App.message := "Access Denied" |})
              s s "data:image/png;base64,AA" eq_refl ltac:(discriminate))
    as (A & _ & B & C & D & _).
  split; [exact A|]. split; [exact B|]. split; [exact C|]. exact D.
Defined.

(** ** The component: equations of its parts *)

Module ClockFacts.

Import Clock.

Lemma live_self (c : Component) :
  mounted c = true -> live (instance c) c = true.
Proof.
  intros H. unfold live. rewrite H. cbn.
  now apply bool_decide_eq_true_2.
Qed.

Lemma live_unmounted (inst : nat) (c : Component) :
  mounted c = false -> live inst c = false.
Proof. intros H. unfold live. now rewrite H. Qed.

Lemma live_other (inst : nat) (c : Component) :
  inst ≠ instance c -> live inst c = false.
Proof.
  intros H. unfold live. rewrite bool_decide_eq_false_2 by congruence.
  apply andb_false_r.
Qed.

Lemma effect_eq (w : World) :
  mounted (clock w) = true ->
  effect w =
  let b := browser w in
  let c := clock w in
  {| browser :=
       {| wall := wall b;
          timers :=
            <[nextTimer b :=
                {| due := wall b + 1000; repeating := Some 1000;
                   task := Tick (instance c) (targetDate (props c))
                             (onTick (props c)) |}]> (timers b);
          nextTimer := S (nextTimer b) |};
     clock :=
       {| instance := instance c; mounted := mounted c; props := props c;
          timeLeft := calculateTimeLeft (targetDate (props c)) (wall b);
          pulse := pulse c; timer := Some (nextTimer b);
          pending := pending c |};
     ticks := ticks w; calls := calls w |}.
Proof.
  intros H. unfold effect, setTimeLeft. rewrite live_self by exact H.
  reflexivity.
Qed.

Lemma cleanup_eq (w : World) :
  cleanup w =
  let b := browser w in
  let c := clock w in
  {| browser :=
       {| wall := wall b; timers := cleared w; nextTimer := nextTimer b |};
     clock :=
       {| instance := instance c; mounted := mounted c; props := props c;
          timeLeft := timeLeft c; pulse := pulse c; timer := None;
          pending := pending c |};
     ticks := ticks w; calls := calls w |}.
Proof.
  destruct w as [[wl tm nx] [inst mt pr tl pu [id|] pe] tk cl]; reflexivity.
Qed.

Lemma runEffect_eq (w : World) :
  mounted (clock w) = true ->
  runEffect w =
  let b := browser w in
  let c := clock w in
  {| browser :=
       {| wall := wall b;
          timers :=
            <[nextTimer b :=
                {| due := wall b + 1000; repeating := Some 1000;
                   task := Tick (instance c) (targetDate (props c))
                             (onTick (props c)) |}]> (cleared w);
          nextTimer := S (nextTimer b) |};
     clock :=
       {| instance := instance c; mounted := mounted c; props := props c;
          timeLeft := calculateTimeLeft (targetDate (props c)) (wall b);
          pulse := pulse c; timer := Some (nextTimer b);
          pending := false |};
     ticks := ticks w; calls := calls w |}.
Proof.
  intros M. unfold runEffect. rewrite cleanup_eq.
  rewrite effect_eq by exact M. reflexivity.
Qed.

Lemma teardown_eq (w : World) :
  teardown w =
  let b := browser w in
  let c := clock w in
  {| browser :=
       {| wall := wall b; timers := cleared w; nextTimer := nextTimer b |};
     clock :=
       {| instance := instance c; mounted := false; props := props c;
          timeLeft := timeLeft c; pulse := pulse c; timer := None;
          pending := false |};
     ticks := ticks w; calls := calls w |}.
Proof. unfold teardown. rewrite cleanup_eq. reflexivity. Qed.

Lemma runTask_tick (w : World) (target : Z) (cb : option nat) :
  mounted (clock w) = true ->
  runTask (Tick (instance (clock w)) target cb) w =
  let b := browser w in
  let c := clock w in
  {| browser :=
       {| wall := wall b;
          timers :=
            <[nextTimer b :=
                {| due := wall b + 100; repeating := None;
                   task := PulseOff (instance c) |}]> (timers b);
          nextTimer := S (nextTimer b) |};
     clock :=
       {| instance := instance c; mounted := mounted c; props := props c;
          timeLeft := calculateTimeLeft target (wall b);
          pulse := true; timer := timer c; pending := pending c |};
     ticks := wall b :: ticks w;
     calls := match cb with
              | Some f => (f, wall b) :: calls w
              | None => calls w
              end |}.
Proof.
  destruct w as [b [inst mt pr tl pu tr pe] tk cl]. cbn. intros ->.
  unfold runTask, setTimeLeft, setPulse, logTick, live. cbn.
  rewrite !bool_decide_eq_true_2 by reflexivity. cbn.
  rewrite ?bool_decide_eq_true_2 by reflexivity.
  destruct cb; reflexivity.
Qed.

End ClockFacts.

(** ** The invariant holds in every reachable state *)

Module InvFacts.

Import Clock ClockFacts.

Lemma init_holds t0 : Inv.holds (init t0).
Proof.
  split; cbn.
  - apply map_Forall_empty.
  - discriminate.
  - auto.
  - discriminate.
Qed.

Ltac norm := unfold Inv.timerOk, Inv.lastTick in *; cbn in *.

Ltac world w :=
  destruct w as [[wl tm nx] [inst mt pr tl pu tr pe] tk cl]; norm.

(** A timeout stays in order when ids, activations and the latest tick
    only grow and it is still not overdue. *)
Lemma timeout_ok w w' id t :
  Inv.timerOk w id t -> repeating t = None ->
  (nextTimer (browser w) <= nextTimer (browser w'))%nat ->
  wall (browser w') <= due t ->
  (instance (clock w) <= instance (clock w'))%nat ->
  (∀ τ, Inv.lastTick w = Some τ ->
        ∃ τ', Inv.lastTick w' = Some τ' ∧ τ <= τ') ->
  Inv.timerOk w' id t.
Proof.
  unfold Inv.timerOk. intros (A & B & C) R Hn Hw Hi Hl. rewrite R in *.
  destruct C as (i & τ & ? & ? & E & ?).
  destruct (Hl τ E) as (τ' & ? & ?).
  split_and!; try lia. exists i, τ'. split_and!; auto; lia.
Qed.

(** A repeating timer is the one held by the cleanup. *)
Lemma interval_is_handle w id t :
  Inv.timerOk w id t -> is_Some (repeating t) ->
  mounted (clock w) = true ∧ timer (clock w) = Some id.
Proof.
  unfold Inv.timerOk. intros (_ & _ & C) [ms R]. rewrite R in C.
  destruct C as (_ & ? & ? & _). auto.
Qed.

(** Any timer stays in order when nothing it refers to changes. *)
Lemma timer_ok_frame w w' id t :
  Inv.timerOk w id t ->
  (nextTimer (browser w) <= nextTimer (browser w'))%nat ->
  wall (browser w) <= wall (browser w') <= due t ->
  mounted (clock w') = mounted (clock w) ->
  timer (clock w') = timer (clock w) ->
  instance (clock w') = instance (clock w) ->
  timeLeft (clock w') = timeLeft (clock w) ->
  (pending (clock w') = false ->
   pending (clock w) = false ∧
   targetDate (props (clock w')) = targetDate (props (clock w)) ∧
   onTick (props (clock w')) = onTick (props (clock w))) ->
  ticks w' = ticks w ->
  Inv.timerOk w' id t.
Proof.
  unfold Inv.timerOk, Inv.lastTick.
  intros (A & B & C) Hn Hw -> -> -> -> Hp ->.
  split_and!; try lia. destruct (repeating t); [|exact C].
  destruct C as (? & ? & ? & target & cb & τ & ? & P & ? & ? & ? & ?).
  split_and!; try assumption. exists target, cb, τ.
  split_and!; try assumption; try lia.
  intros Pe. destruct (Hp Pe) as (Pe0 & -> & ->). auto.
Qed.

Lemma pending_mounted w :
  Inv.holds w -> pending (clock w) = true -> mounted (clock w) = true.
Proof.
  intros [_ _ Hh _] P. destruct (mounted (clock w)); [reflexivity|].
  destruct Hh. congruence.
Qed.

(** Once its effect has run the mounted component holds an interval. *)
Lemma handle_mounted w :
  Inv.holds w -> mounted (clock w) = true -> pending (clock w) = false ->
  ∃ id t, timer (clock w) = Some id ∧ timers (browser w) !! id = Some t ∧
          is_Some (repeating t).
Proof.
  intros [_ _ Hh _] M P. rewrite M in Hh.
  destruct Hh as [[_ ?]|Hh]; [congruence | exact Hh].
Qed.

(** Once the function returned by the effect has run only timeouts are
    left in the table. *)
Lemma cleared_timeouts w j t :
  Inv.holds w -> cleared w !! j = Some t ->
  repeating t = None ∧ timers (browser w) !! j = Some t.
Proof.
  intros [Ht _ _ _]. unfold cleared.
  destruct (timer (clock w)) as [id|] eqn:E; intros L.
  - apply lookup_delete_Some in L as [N L]. split; [|exact L].
    destruct (repeating t) eqn:R; [|reflexivity].
    destruct (interval_is_handle w j t (Ht j t L)) as [_ Q]; [by rewrite R|].
    congruence.
  - split; [|exact L].
    destruct (repeating t) eqn:R; [|reflexivity].
    destruct (interval_is_handle w j t (Ht j t L)) as [_ Q]; [by rewrite R|].
    congruence.
Qed.

Lemma cleared_keeps_timeout w j t :
  timers (browser w) !! j = Some t -> repeating t = None ->
  Inv.holds w -> cleared w !! j = Some t.
Proof.
  intros L R [_ _ Hh _]. unfold cleared.
  destruct (timer (clock w)) as [id|] eqn:E; [|exact L].
  rewrite lookup_delete_ne; [exact L|]. intros <-.
  destruct (mounted (clock w)); [|destruct Hh; congruence].
  destruct Hh as [[? _]|(id' & t' & E' & L' & R')]; [congruence|].
  assert (id' = id) as -> by congruence.
  rewrite L in L'. injection L' as <-. rewrite R in R'. by destruct R'.
Qed.

Lemma mount_holds w p :
  Inv.holds w -> mounted (clock w) = false ->
  Inv.holds (withClock (fresh p (clock w)) w).
Proof.
  intros [Ht Hp Hh Hpu] M. split.
  - intros j t L. pose proof (Ht j t L) as O.
    destruct (repeating t) as [ms|] eqn:R.
    + apply interval_is_handle in O as [? _]; [congruence | by rewrite R].
    + apply (timeout_ok w _ j t O R).
      * world w. lia.
      * destruct O as (_ & ? & _). world w. lia.
      * world w. lia.
      * intros τ E. exists τ. split; [exact E|lia].
  - exact Hp.
  - cbn. auto.
  - cbn. discriminate.
Qed.

Lemma runEffect_holds w :
  Inv.holds w -> mounted (clock w) = true -> Inv.holds (runEffect w).
Proof.
  intros H M. rewrite runEffect_eq by exact M.
  pose proof H as [Ht Hp Hh Hpu].
  split.
  - apply map_Forall_insert_2.
    + world w. subst mt. split_and!; try lia; try reflexivity.
      eexists _, _, wl. split_and!; try reflexivity; auto; lia.
    + intros j t L.
      destruct (cleared_timeouts w j t H L) as (R & L').
      pose proof (Ht j t L') as O.
      apply (timeout_ok w _ j t O R).
      * world w. lia.
      * destruct O as (_ & ? & _). world w. lia.
      * world w. lia.
      * intros τ Eτ. exists τ. split; [exact Eτ|lia].
  - world w. exact Hp.
  - cbn. rewrite M. right. eexists _, _. rewrite lookup_insert_eq.
    split_and!; eauto.
  - intros _ P. destruct (Hpu M P) as (j & t & τ & L & R & T & Eτ & D).
    exists j, t, τ. pose proof (Ht j t L) as (A & _).
    pose proof (cleared_keeps_timeout w j t L R H) as L'.
    world w. split_and!; auto.
    rewrite lookup_insert_ne by lia. exact L'.
Qed.

(** What running a pending effect leaves as it was. *)
Lemma flush_frame w :
  Inv.holds w ->
  Inv.holds (flush w) ∧
  pending (clock (flush w)) = false ∧
  mounted (clock (flush w)) = mounted (clock w) ∧
  instance (clock (flush w)) = instance (clock w) ∧
  props (clock (flush w)) = props (clock w) ∧
  pulse (clock (flush w)) = pulse (clock w) ∧
  wall (browser (flush w)) = wall (browser w) ∧
  ticks (flush w) = ticks w ∧ calls (flush w) = calls w.
Proof.
  intros H. unfold flush. destruct (pending (clock w)) eqn:P.
  - pose proof (pending_mounted w H P) as M.
    split; [by apply runEffect_holds|].
    rewrite runEffect_eq by exact M. cbn. by split_and!.
  - by split_and!.
Qed.

Lemma rerender_holds w p :
  Inv.holds w -> mounted (clock w) = true -> pending (clock w) = false ->
  mutated (props (clock w)) p = false ->
  Inv.holds (rerender p w).
Proof.
  intros [Ht Hp Hh Hpu] M Pe Mu. unfold rerender.
  destruct (depsChanged (props (clock w)) p) eqn:D.
  - split.
    + intros j t L.
      apply (timer_ok_frame w _ j t (Ht j t L)); try reflexivity.
      * destruct (Ht j t L) as (_ & ? & _). cbn. lia.
      * cbn. discriminate.
    + exact Hp.
    + cbn. rewrite M in Hh |- *.
      destruct Hh as [[? ?]|Hh]; [congruence | by right].
    + exact Hpu.
  - apply negb_false_iff, andb_true_iff in D as [D1 D2].
    apply bool_decide_eq_true_1 in D1. apply bool_decide_eq_true_1 in D2.
    unfold mutated in Mu. rewrite (bool_decide_eq_true_2 _ D1) in Mu.
    cbn in Mu. apply negb_false_iff, bool_decide_eq_true_1 in Mu.
    split.
    + intros j t L.
      apply (timer_ok_frame w _ j t (Ht j t L)); try reflexivity.
      * destruct (Ht j t L) as (_ & ? & _). cbn. lia.
      * cbn. intros _. auto.
    + exact Hp.
    + exact Hh.
    + exact Hpu.
Qed.

Lemma teardown_holds w :
  Inv.holds w -> mounted (clock w) = true -> Inv.holds (teardown w).
Proof.
  intros H M. rewrite teardown_eq. pose proof H as [Ht Hp Hh Hpu].
  split.
  - intros j t L. cbn in L.
    destruct (cleared_timeouts w j t H L) as (R & L').
    pose proof (Ht j t L') as O.
    apply (timeout_ok w _ j t O R).
    * world w. lia.
    * destruct O as (_ & ? & _). world w. lia.
    * world w. lia.
    * intros τ Eτ. exists τ. split; [exact Eτ|lia].
  - world w. exact Hp.
  - cbn. auto.
  - discriminate.
Qed.

Lemma elapse_holds w dt :
  Inv.holds w -> 0 <= dt ->
  map_Forall (λ _ t, wall (browser w) + dt <= due t) (timers (browser w)) ->
  Inv.holds (withBrowser (Timers.advance dt (browser w)) w).
Proof.
  intros [Ht Hp Hh Hpu] D G. split.
  - intros j t L.
    apply (timer_ok_frame w _ j t (Ht j t L)); try reflexivity.
    + pose proof (G j t L) as G'. cbn in G' |- *. lia.
    + auto.
  - intros τ E. specialize (Hp τ E). world w. lia.
  - exact Hh.
  - exact Hpu.
Qed.

Lemma fire_interval_holds w id t ms :
  Inv.holds w -> timers (browser w) !! id = Some t ->
  repeating t = Some ms ->
  Inv.holds (runTask (task t) (withBrowser (Timers.rearm id t (browser w)) w)).
Proof.
  intros H L R. pose proof H as [Ht Hp Hh Hpu].
  pose proof (Ht id t L) as O. unfold Inv.timerOk in O. rewrite R in O.
  destruct O as (A & B & -> & M & E & target & cb & τ & T & Pd & D & W & Tl & Lt).
  rewrite T.
  rewrite (runTask_tick (withBrowser (Timers.rearm id t (browser w)) w)
             _ _ M).
  unfold Timers.rearm. rewrite R.
  split.
  - intros j t' L'. cbn in L'.
    apply lookup_insert_Some in L' as [[<- <-]|[N1 L']];
      [|apply lookup_insert_Some in L' as [[<- <-]|[N2 L']]].
    + world w. split_and!; try lia. exists inst, wl.
      split_and!; auto; lia.
    + world w. subst mt. split_and!; try lia; try assumption.
      exists target, cb, wl. rewrite T.
      split_and!; try reflexivity; try assumption; try lia.
      intros τ' [= <-]. lia.
    + pose proof (Ht j t' L') as O.
      destruct (repeating t') as [ms'|] eqn:R'.
      * destruct (interval_is_handle w j t' O) as [_ Q]; [by rewrite R'|].
        congruence.
      * apply (timeout_ok w _ j t' O R').
        -- world w. lia.
        -- destruct O as (_ & ? & _). world w. lia.
        -- world w. lia.
        -- intros τ' Eτ. specialize (Hp τ' Eτ). world w. exists wl.
           split; [reflexivity | lia].
  - world w. intros τ' [= <-]. lia.
  - world w. subst mt. right. eexists id, _.
    rewrite lookup_insert_ne by lia. rewrite lookup_insert_eq.
    split_and!; eauto.
  - intros _ _. world w. eexists nx, _, wl. rewrite lookup_insert_eq.
    split_and!; eauto.
Qed.

Lemma fire_timeout_holds w id t :
  Inv.holds w -> timers (browser w) !! id = Some t ->
  repeating t = None ->
  Inv.holds (runTask (task t) (withBrowser (Timers.rearm id t (browser w)) w)).
Proof.
  intros H L R. pose proof H as [Ht Hp Hh Hpu].
  pose proof (Ht id t L) as O. unfold Inv.timerOk in O. rewrite R in O.
  destruct O as (A & B & i & τ & T & Hi & Eτ & D).
  rewrite T. unfold Timers.rearm. rewrite R. cbn [runTask].
  assert (F : ∀ j t', delete id (timers (browser w)) !! j = Some t' ->
                      timers (browser w) !! j = Some t' ∧ j ≠ id).
  { intros j t' L'. apply lookup_delete_Some in L' as [? ?]. auto. }
  assert (Hh' : if mounted (clock w)
                then (timer (clock w) = None ∧ pending (clock w) = true)
                     ∨ ∃ id' t', timer (clock w) = Some id' ∧
                         delete id (timers (browser w)) !! id' = Some t' ∧
                         is_Some (repeating t')
                else timer (clock w) = None ∧ pending (clock w) = false).
  { destruct (mounted (clock w)); [|exact Hh].
    destruct Hh as [Hh|(id' & t' & ? & L' & R')]; [by left|]. right.
    exists id', t'. split_and!; auto. rewrite lookup_delete_ne; [exact L'|].
    intros <-. rewrite L in L'. injection L' as <-. rewrite R in R'.
    by destruct R'. }
  unfold setPulse. cbn [clock withBrowser].
  destruct (live i (clock w)) eqn:Lv.
  - split.
    + intros j t' L'. destruct (F j t' L') as [L0 N].
      apply (timer_ok_frame w _ j t' (Ht j t' L0)); try reflexivity.
      * destruct (Ht j t' L0) as (_ & ? & _). cbn. lia.
      * cbn. auto.
    + exact Hp.
    + exact Hh'.
    + cbn. discriminate.
  - split.
    + intros j t' L'. destruct (F j t' L') as [L0 N].
      apply (timer_ok_frame w _ j t' (Ht j t' L0)); try reflexivity.
      * destruct (Ht j t' L0) as (_ & ? & _). cbn. lia.
      * cbn. auto.
    + exact Hp.
    + exact Hh'.
    + intros M P. destruct (Hpu M P) as (j & t' & τ' & L' & R' & T' & E' & D').
      exists j, t', τ'. split_and!; auto.
      cbn. rewrite lookup_delete_ne; [exact L'|].
      intros <-. rewrite L in L'. injection L' as <-.
      rewrite T in T'. injection T' as ->.
      rewrite live_self in Lv by exact M. discriminate.
Qed.

Theorem step_holds w e w' :
  Inv.holds w -> step w e = Some w' -> Inv.holds w'.
Proof.
  intros H S. destruct e as [p|p| | |dt|id]; cbn [step] in S.
  - destruct (mounted (clock w)) eqn:M; [discriminate|]. injection S as <-.
    now apply mount_holds.
  - destruct (mounted (clock w)) eqn:M; [|discriminate].
    destruct (mutated _ _) eqn:Mu; [discriminate|]. injection S as <-.
    destruct (flush_frame w H) as (H' & Pe & M' & _ & Pr & _).
    apply rerender_holds; [exact H' | congruence | exact Pe | by rewrite Pr].
  - destruct (mounted (clock w)) eqn:M; [|discriminate]. injection S as <-.
    destruct (flush_frame w H) as (H' & _ & M' & _).
    apply teardown_holds; [exact H' | congruence].
  - destruct (pending (clock w)) eqn:P; [|discriminate]. injection S as <-.
    apply runEffect_holds; [exact H | by apply pending_mounted].
  - destruct (pending (clock w)); [discriminate|].
    destruct (bool_decide (0 <= dt)) eqn:D; [|discriminate].
    destruct (bool_decide (map_Forall _ _)) eqn:G; [|discriminate].
    injection S as <-.
    apply bool_decide_eq_true_1 in D. apply bool_decide_eq_true_1 in G.
    now apply elapse_holds.
  - destruct (timers (browser w) !! id) as [t|] eqn:L; [|discriminate].
    destruct (bool_decide _); [|discriminate]. injection S as <-.
    destruct (repeating t) eqn:R.
    + eapply fire_interval_holds; eauto.
    + eapply fire_timeout_holds; eauto.
Qed.

(** Every step is made of six kinds of move: a first render, the run of a
    pending effect, a re-render, a deactivation, the passing of time and
    the run of a timer.  A property that each of them keeps is kept by
    every step. *)
Lemma step_elim (P : World -> Prop) :
  (∀ w p, Inv.holds w -> P w -> mounted (clock w) = false ->
          P (withClock (fresh p (clock w)) w)) ->
  (∀ w, Inv.holds w -> P w -> mounted (clock w) = true ->
        pending (clock w) = true -> P (runEffect w)) ->
  (∀ w p, Inv.holds w -> P w -> mounted (clock w) = true ->
          pending (clock w) = false ->
          mutated (props (clock w)) p = false -> P (rerender p w)) ->
  (∀ w, Inv.holds w -> P w -> mounted (clock w) = true ->
        pending (clock w) = false -> P (teardown w)) ->
  (∀ w dt, Inv.holds w -> P w -> pending (clock w) = false -> 0 <= dt ->
           map_Forall (λ _ t, wall (browser w) + dt <= due t)
             (timers (browser w)) ->
           P (withBrowser (Timers.advance dt (browser w)) w)) ->
  (∀ w id t, Inv.holds w -> P w -> timers (browser w) !! id = Some t ->
             due t <= wall (browser w) ->
             P (runTask (task t)
                  (withBrowser (Timers.rearm id t (browser w)) w))) ->
  ∀ w e w', Inv.holds w -> P w -> step w e = Some w' -> P w'.
Proof.
  intros Hm He Hr Ht Ha Hf w e w' H Pw S.
  assert (Inv.holds (flush w) ∧ P (flush w)) as [Hfl Pfl].
  { unfold flush. destruct (pending (clock w)) eqn:Pe; [|by split].
    pose proof (pending_mounted w H Pe) as M.
    split; [by apply runEffect_holds | by apply He]. }
  destruct (flush_frame w H) as (_ & Pe' & M' & _ & Pr' & _).
  destruct e as [p|p| | |dt|id]; cbn [step] in S.
  - destruct (mounted (clock w)) eqn:M; [discriminate|]. injection S as <-.
    by apply Hm.
  - destruct (mounted (clock w)) eqn:M; [|discriminate].
    destruct (mutated _ _) eqn:Mu; [discriminate|]. injection S as <-.
    apply Hr; try assumption; first [congruence | by rewrite Pr'].
  - destruct (mounted (clock w)) eqn:M; [|discriminate]. injection S as <-.
    apply Ht; try assumption; congruence.
  - destruct (pending (clock w)) eqn:Pe; [|discriminate]. injection S as <-.
    apply He; try assumption; by apply pending_mounted.
  - destruct (pending (clock w)) eqn:Pe; [discriminate|].
    destruct (bool_decide (0 <= dt)) eqn:D; [|discriminate].
    destruct (bool_decide (map_Forall _ _)) eqn:G; [|discriminate].
    injection S as <-.
    apply bool_decide_eq_true_1 in D. apply bool_decide_eq_true_1 in G.
    by apply Ha.
  - destruct (timers (browser w) !! id) as [t|] eqn:L; [|discriminate].
    destruct (bool_decide _) eqn:G; [|discriminate]. injection S as <-.
    apply bool_decide_eq_true_1 in G. by eapply Hf.
Qed.

(** What the run of a timer amounts to. *)
Lemma fire_cases w id t :
  Inv.holds w -> timers (browser w) !! id = Some t ->
  (∃ target cb τ,
     repeating t = Some 1000 ∧ mounted (clock w) = true ∧
     timer (clock w) = Some id ∧
     task t = Tick (instance (clock w)) target cb ∧
     (pending (clock w) = false ->
      target = targetDate (props (clock w)) ∧
      cb = onTick (props (clock w))) ∧
     due t = τ + 1000 ∧ τ <= wall (browser w) ∧
     timeLeft (clock w) = calculateTimeLeft target τ ∧
     (∀ τ', Inv.lastTick w = Some τ' -> τ' <= τ) ∧
     runTask (task t) (withBrowser (Timers.rearm id t (browser w)) w) =
     {| browser :=
          {| wall := wall (browser w);
             timers :=
               <[nextTimer (browser w) :=
                   {| due := wall (browser w) + 100; repeating := None;
                      task := PulseOff (instance (clock w)) |}]>
                 (<[id := {| due := wall (browser w) + 1000;
                             repeating := Some 1000; task := task t |}]>
                    (timers (browser w)));
             nextTimer := S (nextTimer (browser w)) |};
        clock :=
          {| instance := instance (clock w); mounted := mounted (clock w);
             props := props (clock w);
             timeLeft := calculateTimeLeft target (wall (browser w));
             pulse := true; timer := timer (clock w);
             pending := pending (clock w) |};
        ticks := wall (browser w) :: ticks w;
        calls := match cb with
                 | Some f => (f, wall (browser w)) :: calls w
                 | None => calls w
                 end |})
  ∨ (∃ inst τ,
       repeating t = None ∧ task t = PulseOff inst ∧
       (inst <= instance (clock w))%nat ∧
       Inv.lastTick w = Some τ ∧ due t <= τ + 100 ∧
       runTask (task t) (withBrowser (Timers.rearm id t (browser w)) w) =
       setPulse inst false
         {| browser :=
              {| wall := wall (browser w);
                 timers := delete id (timers (browser w));
                 nextTimer := nextTimer (browser w) |};
            clock := clock w; ticks := ticks w; calls := calls w |}).
Proof.
  intros [Ht _ _ _] L. pose proof (Ht id t L) as O.
  unfold Inv.timerOk in O. destruct (repeating t) as [ms|] eqn:R.
  - left.
    destruct O as (_ & _ & -> & M & E & tg & cb & τ & Tk & Pd & D & W & Tl & Lt).
    exists tg, cb, τ. split_and!; try assumption; try reflexivity.
    rewrite Tk.
    rewrite (runTask_tick (withBrowser (Timers.rearm id t (browser w)) w)
               _ _ M).
    unfold Timers.rearm. rewrite R, Tk. reflexivity.
  - right. destruct O as (_ & _ & i & τ & Tk & Hi & E & D).
    exists i, τ. split_and!; try assumption; try reflexivity.
    rewrite Tk. unfold Timers.rearm. rewrite R. reflexivity.
Qed.

Lemma run_holds es : ∀ w w', Inv.holds w -> run w es = Some w' -> Inv.holds w'.
Proof.
  induction es as [|e es IH]; intros w w' H R; cbn in R.
  - now injection R as <-.
  - destruct (step w e) as [w1|] eqn:S; [|discriminate].
    eapply IH; [|exact R]. eapply step_holds; eauto.
Qed.

Lemma reachable_holds w : reachable w -> Inv.holds w.
Proof. intros (t0 & es & R). eapply run_holds; [apply init_holds | exact R]. Qed.

End InvFacts.

(** ** The countdown at zero *)

Section Clamp.

Import Clock ClockFacts InvFacts.

(** A duration of zero stays zero at every later instant. *)
Lemma zero_later (T τ N : Z) :
  calculateTimeLeft T τ = zeroTime -> τ <= N ->
  calculateTimeLeft T N = zeroTime.
Proof.
  intros Z Le. destruct (Z_le_gt_dec T N) as [G|G];
    [by apply calculateTimeLeft_past|].
  assert (τ < T) as F by lia.
  pose proof (toMillis_div T τ F) as Ml. rewrite Z in Ml.
  change (toMillis zeroTime) with 0 in Ml.
  assert (0 <= T - N < 1000) as B.
  { assert ((T - τ) / 1000 = 0) as Q by lia.
    apply Z.div_small_iff in Q; lia. }
  assert (N < T) as F' by lia.
  pose proof (days_div T N F') as Ed. pose proof (hours_div T N F') as Eh.
  pose proof (minutes_div T N F') as Em.
  pose proof (seconds_div T N F') as Es.
  destruct (calculateTimeLeft T N) as [d h m s]. cbn in Ed, Eh, Em, Es.
  unfold zeroTime. f_equal.
  - rewrite Ed. apply Z.div_small. lia.
  - rewrite Eh. rewrite (Z.div_small (T - N)) by lia. reflexivity.
  - rewrite Em. rewrite (Z.div_small (T - N)) by lia. reflexivity.
  - rewrite Es. rewrite (Z.div_small (T - N)) by lia. reflexivity.
Qed.

Variable T : Z.

Lemma flush_atZero w : atZero T w -> atZero T (flush w).
Proof.
  intros (H & Z & P & M). destruct (flush_frame w H) as (H' & _).
  split; [exact H'|]. unfold flush in *.
  destruct (pending (clock w)) eqn:Pe; [|auto].
  pose proof (pending_mounted w H Pe) as Mt.
  rewrite runEffect_eq by exact Mt. cbn. rewrite (M Mt).
  rewrite calculateTimeLeft_past by exact P. auto.
Qed.

Lemma step_atZero w e w' :
  atZero T w -> keepsTarget T [e] -> step w e = Some w' -> atZero T w'.
Proof.
  intros A K S. pose proof A as (H & Z & P & M).
  split; [eapply step_holds; eauto|].
  apply Forall_cons in K as [K _].
  pose proof H as [Ht _ _ _].
  destruct e as [p|p| | |dt|id]; cbn [step] in S.
  - destruct (mounted (clock w)) eqn:Mt; [discriminate|]. injection S as <-.
    cbn. auto.
  - destruct (mounted (clock w) && _); [|discriminate]. injection S as <-.
    destruct (flush_atZero w A) as (_ & Z' & P' & _).
    unfold rerender. destruct (depsChanged _ _); cbn; auto.
  - destruct (mounted (clock w)) eqn:Mt; [|discriminate]. injection S as <-.
    destruct (flush_atZero w A) as (_ & Z' & P' & _).
    rewrite teardown_eq. cbn. split_and!; auto; discriminate.
  - destruct (pending (clock w)) eqn:Pe; [|discriminate]. injection S as <-.
    pose proof (flush_atZero w A) as (_ & Z' & P' & M').
    unfold flush in *. rewrite Pe in *. auto.
  - destruct (pending (clock w)); [discriminate|].
    destruct (bool_decide (0 <= dt)) eqn:D; [|discriminate].
    destruct (bool_decide (map_Forall _ _)); [|discriminate].
    injection S as <-. apply bool_decide_eq_true_1 in D. cbn.
    split_and!; auto; lia.
  - destruct (timers (browser w) !! id) as [t|] eqn:L; [|discriminate].
    destruct (bool_decide _) eqn:G; [|discriminate]. injection S as <-.
    apply bool_decide_eq_true_1 in G.
    pose proof (Ht id t L) as O. unfold Inv.timerOk in O.
    destruct (repeating t) eqn:R.
    + destruct O as (_ & _ & _ & Mt & _ & tg & cb & τ & Tk & _ & D & W & Tl & _).
      rewrite Tk.
      rewrite (runTask_tick (withBrowser (Timers.rearm id t (browser w)) w)
                 _ _ Mt).
      cbn. rewrite Z in Tl.
      rewrite (zero_later tg τ (wall (browser w))) by (auto; lia). auto.
    + destruct O as (_ & _ & i & τ & Tk & _). rewrite Tk. cbn [runTask].
      unfold setPulse. cbn [clock withBrowser].
      destruct (live i (clock w)); cbn; auto.
Qed.

Lemma run_atZero es : ∀ w w',
  atZero T w -> keepsTarget T es -> run w es = Some w' -> atZero T w'.
Proof.
  induction es as [|e es IH]; intros w w' A K R; cbn in R.
  - now injection R as <-.
  - destruct (step w e) as [w1|] eqn:S; [|discriminate].
    apply Forall_cons in K as [K1 K2].
    eapply IH; [|exact K2|exact R].
    eapply step_atZero; eauto. by apply Forall_cons.
Qed.

End Clamp.

(** C1.  When the target [T] is not after the current instant [N], the
    duration computed at [N] is zero in all four fields, and if the mounted
    component shows it at [N] then it shows zero after any further events
    that keep the target (ticks, time passing, re-renders, deactivation and
    reactivation); no computed field is negative for any target and
    instant. *)
Theorem clamped_at_zero (T N : Z) (w w' : World) (es : list Event) :
  T <= N ->
  Clock.reachable w ->
  wall (browser w) = N ->
  mounted (clock w) = true ->
  targetDate (props (clock w)) = T ->
  timeLeft (clock w) = calculateTimeLeft T N ->
  keepsTarget T es ->
  Clock.run w es = Some w' ->
  calculateTimeLeft T N = zeroTime ∧
  timeLeft (clock w') = zeroTime ∧
  (∀ T' N', nonNegative (calculateTimeLeft T' N')).
Proof.
  intros P Re W M Tg Tl K R.
  split; [now apply calculateTimeLeft_past|].
  split; [|apply calculateTimeLeft_nonNegative].
  assert (A : atZero T w).
  { split; [now apply InvFacts.reachable_holds|].
    rewrite Tl, calculateTimeLeft_past by exact P. split_and!; auto; lia. }
  destruct (run_atZero T es w w' A K R) as (_ & Z & _). exact Z.
Qed.

Lemma clamped_at_zero_witness :
  calculateTimeLeft 0 5000 = zeroTime ∧
  ∃ w',
    Clock.run (Clock.init 5000)
      [Mount {| targetDate := 0; targetRef := 0; onTick := Some 0%nat;
                variant := large; theme := Theme24 |};
       RunEffect;
       Elapse 1000; Fire 0; Elapse 100; Fire 1; Elapse 900; Fire 0;
       Unmount;
       Mount {| targetDate := 0; targetRef := 1; onTick := None;
                variant := small; theme := ThemeELF |};
       RunEffect;
       Elapse 100; Fire 2; Elapse 900; Fire 3] = Some w' ∧
    timeLeft (clock w') = zeroTime.
Proof.
  pose (p := {| targetDate := 0; targetRef := 0; onTick := Some 0%nat;
                variant := large; theme := Theme24 |}).
  pose (q := {| targetDate := 0; targetRef := 1; onTick := None;
                variant := small; theme := ThemeELF |}).
  pose (es := [RunEffect; Elapse 1000; Fire 0%nat; Elapse 100; Fire 1%nat;
               Elapse 900; Fire 0%nat; Unmount; Mount q; RunEffect;
               Elapse 100; Fire 2%nat; Elapse 900; Fire 3%nat]).
  pose (w := Clock.withClock (Clock.fresh p (clock (Clock.init 5000)))
               (Clock.init 5000)).
  destruct (Clock.run w es) as [w'|] eqn:R1;
    [|exfalso; vm_compute in R1; discriminate R1].
  destruct (clamped_at_zero 0 5000 w w' es) as (A & B & _);
    [ lia | exists 5000, [Mount p]; reflexivity | reflexivity | reflexivity
    | reflexivity | reflexivity | repeat constructor | exact R1 | ].
  split; [exact A|]. exists w'. split; [exact R1 | exact B].
Defined.

(** ** One interval at a time *)

Module TimerFacts.

Import Clock ClockFacts InvFacts.

Lemma intervals_lookup (b : Browser) (id : nat) (t : Timer) :
  Timers.intervals b !! id = Some t ↔
  timers b !! id = Some t ∧ is_Some (repeating t).
Proof. unfold Timers.intervals. by rewrite map_lookup_filter_Some. Qed.

Lemma intervals_empty (b : Browser) :
  (∀ id t, timers b !! id = Some t -> repeating t = None) ->
  Timers.intervals b = ∅.
Proof.
  intros H. apply map_eq. intros id. rewrite lookup_empty.
  apply eq_None_not_Some. intros [t L].
  apply intervals_lookup in L as [L [ms R]].
  rewrite (H id t L) in R. discriminate.
Qed.

Lemma intervals_unique (w : World) id1 t1 id2 t2 :
  Inv.holds w ->
  timers (browser w) !! id1 = Some t1 -> is_Some (repeating t1) ->
  timers (browser w) !! id2 = Some t2 -> is_Some (repeating t2) ->
  id1 = id2.
Proof.
  intros [Ht _ _ _] L1 R1 L2 R2.
  destruct (interval_is_handle w id1 t1 (Ht id1 t1 L1) R1) as [_ E1].
  destruct (interval_is_handle w id2 t2 (Ht id2 t2 L2) R2) as [_ E2].
  congruence.
Qed.

Lemma intervals_unmounted (w : World) :
  Inv.holds w -> mounted (clock w) = false ->
  Timers.intervals (browser w) = ∅.
Proof.
  intros [Ht _ _ _] M. apply intervals_empty. intros id t L.
  destruct (repeating t) eqn:R; [|reflexivity].
  destruct (interval_is_handle w id t (Ht id t L)) as [? _];
    [by rewrite R | congruence].
Qed.

(** The function returned by the effect leaves no interval. *)
Lemma intervals_cleanup (w : World) :
  Inv.holds w -> Timers.intervals (browser (cleanup w)) = ∅.
Proof.
  intros H. rewrite cleanup_eq. cbn. apply intervals_empty. cbn.
  intros j t L. by destruct (cleared_timeouts w j t H L).
Qed.

(** Running the effect leaves the one interval it starts. *)
Lemma intervals_runEffect (w : World) :
  Inv.holds w -> mounted (clock w) = true ->
  Timers.intervals (browser (runEffect w)) =
  {[ nextTimer (browser w) :=
       {| due := wall (browser w) + 1000; repeating := Some 1000;
          task := Tick (instance (clock w)) (targetDate (props (clock w)))
                    (onTick (props (clock w))) |} ]}.
Proof.
  intros H M. pose proof (intervals_cleanup w H) as C. revert C.
  rewrite runEffect_eq by exact M. rewrite cleanup_eq. cbn.
  unfold Timers.intervals. cbn. intros C.
  rewrite map_filter_insert_True by (cbn; eauto).
  rewrite C. apply insert_empty.
Qed.

Lemma depsChanged_true p q :
  targetRef q ≠ targetRef p ∨ onTick q ≠ onTick p ->
  depsChanged p q = true.
Proof.
  intros H. unfold depsChanged. apply negb_true_iff, andb_false_iff.
  destruct H as [H|H]; [left|right]; apply bool_decide_eq_false_2;
    congruence.
Qed.

Lemma depsChanged_same p q :
  targetRef q = targetRef p -> onTick q = onTick p ->
  depsChanged p q = false.
Proof.
  intros H1 H2. unfold depsChanged.
  rewrite !bool_decide_eq_true_2 by congruence. reflexivity.
Qed.

(** The timer held by the cleanup is gone once the effect has run. *)
Lemma runEffect_dead (w : World) (id : nat) :
  Inv.holds w -> mounted (clock w) = true ->
  timer (clock w) = Some id -> dead id (runEffect w).
Proof.
  intros H M E. rewrite runEffect_eq by exact M.
  pose proof H as [Ht _ Hh _]. rewrite M in Hh.
  destruct Hh as [[? _]|(id' & t & E' & L & _)]; [congruence|].
  assert (id' = id) as -> by congruence.
  destruct (Ht id t L) as (A & _).
  split; cbn; [lia|]. rewrite lookup_insert_ne by lia.
  unfold cleared. rewrite E. apply lookup_delete_eq.
Qed.

Lemma cleared_dead (w : World) (id : nat) :
  timers (browser w) !! id = None -> cleared w !! id = None.
Proof.
  intros B. unfold cleared. destruct (timer (clock w)); [|exact B].
  apply lookup_delete_None. auto.
Qed.

Lemma flush_dead (id : nat) w :
  Inv.holds w -> dead id w -> dead id (flush w).
Proof.
  intros H [A B]. unfold flush. destruct (pending (clock w)) eqn:P;
    [|by split].
  rewrite runEffect_eq by (by apply pending_mounted).
  split; cbn; [lia|]. rewrite lookup_insert_ne by lia.
  by apply cleared_dead.
Qed.

(** A dead id never comes back. *)
Lemma step_dead (id : nat) w e w' :
  Inv.holds w -> dead id w -> step w e = Some w' -> dead id w'.
Proof.
  intros H D S. pose proof D as [A B].
  destruct e as [p|p| | |dt|j]; cbn [step] in S.
  - destruct (mounted (clock w)); [discriminate|]. injection S as <-.
    by split.
  - destruct (mounted (clock w) && _); [|discriminate]. injection S as <-.
    destruct (flush_dead id w H D) as [A' B'].
    unfold rerender. destruct (depsChanged _ _); by split.
  - destruct (mounted (clock w)); [|discriminate]. injection S as <-.
    destruct (flush_dead id w H D) as [A' B'].
    rewrite teardown_eq. split; cbn; [exact A'|]. by apply cleared_dead.
  - destruct (pending (clock w)) eqn:P; [|discriminate]. injection S as <-.
    pose proof (flush_dead id w H D) as D'. unfold flush in D'.
    by rewrite P in D'.
  - destruct (_ && _); [|discriminate]. injection S as <-.
    split; assumption.
  - destruct (timers (browser w) !! j) as [t|] eqn:L; [|discriminate].
    destruct (bool_decide _); [|discriminate]. injection S as <-.
    assert (N : j ≠ id) by congruence.
    assert (D0 : dead id (withBrowser (Timers.rearm j t (browser w)) w)).
    { split; cbn; [exact A|]. destruct (repeating t).
      - rewrite lookup_insert_ne by exact N. exact B.
      - apply lookup_delete_None. auto. }
    destruct D0 as [A' B']. revert A' B'.
    generalize (withBrowser (Timers.rearm j t (browser w)) w). intros v A' B'.
    destruct (task t) as [i tg cb|i]; cbn [runTask].
    + unfold setTimeLeft, setPulse, logTick, invoke. cbn.
      repeat match goal with
             | |- context [if ?c then _ else _] => destruct c; cbn
             | |- context [match ?c with Some _ => _ | None => _ end] =>
                 destruct c; cbn
             end;
        (split; cbn; [lia | rewrite lookup_insert_ne by lia; exact B']).
    + unfold setPulse. destruct (live _ _); split; assumption.
Qed.

Lemma run_dead (id : nat) es : ∀ w w',
  Inv.holds w -> dead id w -> run w es = Some w' -> dead id w'.
Proof.
  induction es as [|e es IH]; intros w w' H D R; cbn in R.
  - now injection R as <-.
  - destruct (step w e) as [w1|] eqn:S; [|discriminate].
    eapply IH; [| |exact R].
    + eapply step_holds; eauto.
    + eapply step_dead; eauto.
Qed.

Lemma dead_cannot_fire (id : nat) w : dead id w -> step w (Fire id) = None.
Proof. intros [_ B]. cbn [step]. now rewrite B. Qed.

End TimerFacts.

(** ** The pulse *)

Module PulseFacts.

Import Clock ClockFacts InvFacts.

Lemma pulse_recent (w : World) :
  Inv.holds w -> mounted (clock w) = true -> pulse (clock w) = true ->
  ∃ τ, Inv.lastTick w = Some τ ∧ τ <= wall (browser w) <= τ + 100.
Proof.
  intros [Ht Hp _ Hpu] M P.
  destruct (Hpu M P) as (j & o & τ & L & _ & _ & E & D).
  exists τ. split; [exact E|]. specialize (Hp τ E).
  destruct (Ht j o L) as (_ & B & _). lia.
Qed.

Lemma tick_after_clear (w : World) (id : nat) (t : Timer) :
  Inv.holds w -> timers (browser w) !! id = Some t ->
  is_Some (repeating t) -> due t <= wall (browser w) ->
  pulse (clock w) = false.
Proof.
  intros H L R G. pose proof H as [Ht _ _ _].
  pose proof (Ht id t L) as O.
  destruct (interval_is_handle w id t O R) as [M _].
  destruct (pulse (clock w)) eqn:P; [exfalso|reflexivity].
  destruct (pulse_recent w H M P) as (τ & E & B).
  unfold Inv.timerOk in O. destruct R as [ms R]. rewrite R in O.
  destruct O as (_ & _ & _ & _ & _ & tg & cb & τ0 & _ & _ & D & _ & _ & Lt).
  specialize (Lt τ E). lia.
Qed.

End PulseFacts.

(** C6.  In every reachable state: when the interval runs, it is the
    one-second interval, the pulse flag was false before the tick, the tick
    sets it true and schedules the clearing 100 ms later, which is less
    than the period; running the clearing of the mounted activation sets
    the flag false; and whenever the flag of the mounted component is true
    the latest tick lies at most 100 ms back. *)
Theorem pulse_is_brief (w : World) :
  Clock.reachable w ->
  (∀ id t ms w',
     timers (browser w) !! id = Some t -> repeating t = Some ms ->
     Clock.step w (Fire id) = Some w' ->
     ms = 1000 ∧ 100 < ms ∧
     pulse (clock w) = false ∧ pulse (clock w') = true ∧
     Inv.lastTick w' = Some (wall (browser w)) ∧
     wall (browser w') = wall (browser w) ∧
     timers (browser w') !! nextTimer (browser w) =
       Some {| due := wall (browser w) + 100; repeating := None;
               task := PulseOff (instance (clock w)) |} ∧
     timers (browser w') !! id =
       Some {| due := wall (browser w) + ms; repeating := Some ms;
               task := task t |}) ∧
  (∀ id t w',
     mounted (clock w) = true ->
     timers (browser w) !! id = Some t ->
     task t = PulseOff (instance (clock w)) ->
     Clock.step w (Fire id) = Some w' ->
     pulse (clock w') = false) ∧
  (mounted (clock w) = true -> pulse (clock w) = true ->
   ∃ τ, Inv.lastTick w = Some τ ∧ τ <= wall (browser w) <= τ + 100 ∧
        wall (browser w) - τ < 1000).
Proof.
  intros Re. pose proof (InvFacts.reachable_holds w Re) as H.
  pose proof H as [Ht _ _ _].
  split; [|split].
  - intros id t ms w' L R S. cbn [Clock.step] in S. rewrite L in S.
    destruct (bool_decide _) eqn:G; [|discriminate]. injection S as <-.
    apply bool_decide_eq_true_1 in G.
    pose proof (PulseFacts.tick_after_clear w id t H L
                  ltac:(by rewrite R) G) as P.
    pose proof (Ht id t L) as O. unfold Inv.timerOk in O. rewrite R in O.
    destruct O as (A & _ & -> & M & _ & tg & cb & τ0 & T & _).
    rewrite T.
    rewrite (ClockFacts.runTask_tick
               (Clock.withBrowser (Timers.rearm id t (browser w)) w) _ _ M).
    unfold Timers.rearm, Inv.lastTick. rewrite R. cbn.
    repeat split; try lia; try assumption.
    + apply lookup_insert_eq.
    + rewrite lookup_insert_ne by lia. rewrite lookup_insert_eq.
      by rewrite T.
  - intros id t w' M L T S. cbn [Clock.step] in S. rewrite L in S.
    destruct (bool_decide _); [|discriminate]. injection S as <-.
    rewrite T. cbn [Clock.runTask]. unfold Clock.setPulse.
    cbn [clock Clock.withBrowser].
    rewrite ClockFacts.live_self by exact M. reflexivity.
  - intros M P.
    destruct (PulseFacts.pulse_recent w H M P) as (τ & E & B).
    exists τ. repeat split; try assumption; lia.
Qed.

Lemma pulse_is_brief_witness :
  let p := {| targetDate := 90061000; targetRef := 0; onTick := Some 0%nat;
              variant := large; theme := Theme24 |} in
  ∃ w w1 w2,
    Clock.run (Clock.init 0) [Mount p; RunEffect; Elapse 1000] = Some w ∧
    Clock.step w (Fire 0) = Some w1 ∧
    pulse (clock w) = false ∧ pulse (clock w1) = true ∧
    Clock.run w1 [Elapse 100; Fire 1] = Some w2 ∧
    pulse (clock w2) = false.
Proof.
  intros p.
  destruct (Clock.run (Clock.init 0) [Mount p; RunEffect; Elapse 1000])
    as [w|] eqn:R; [|exfalso; vm_compute in R; discriminate R].
  destruct (Clock.step w (Fire 0)) as [w1|] eqn:S1;
    [|exfalso; vm_compute in R; injection R as <-; vm_compute in S1;
      discriminate S1].
  destruct (Clock.run w1 [Elapse 100]) as [v|] eqn:S2;
    [|exfalso; vm_compute in R; injection R as <-;
      vm_compute in S1; injection S1 as <-; vm_compute in S2;
      discriminate S2].
  destruct (Clock.step v (Fire 1)) as [w2|] eqn:S3;
    [|exfalso; vm_compute in R; injection R as <-;
      vm_compute in S1; injection S1 as <-; vm_compute in S2;
      injection S2 as <-; vm_compute in S3; discriminate S3].
  assert (Rw : Clock.reachable w)
    by (exists 0, [Mount p; RunEffect; Elapse 1000]; exact R).
  assert (Rv : Clock.reachable v).
  { exists 0, ([Mount p; RunEffect; Elapse 1000] ++ [Fire 0%nat; Elapse 100]).
    cbn [app Clock.run] in *. destruct (Clock.step _ _); [|discriminate R].
    destruct (Clock.step _ _); [|discriminate R].
    destruct (Clock.step _ _); [|discriminate R]. injection R as ->.
    rewrite S1. exact S2. }
  destruct (pulse_is_brief w Rw) as (A & _ & _).
  destruct (pulse_is_brief v Rv) as (_ & B & _).
  assert (L : ∃ t, timers (browser w) !! 0%nat = Some t ∧
                   repeating t = Some 1000).
  { vm_compute in R. injection R as <-. eexists. split; reflexivity. }
  destruct L as (t & L & Rp).
  destruct (A 0%nat t 1000 w1 L Rp S1) as (_ & _ & P0 & P1 & _).
  assert (L' : ∃ t, timers (browser v) !! 1%nat = Some t ∧
                    task t = PulseOff (instance (clock v)) ∧
                    mounted (clock v) = true).
  { vm_compute in R. injection R as <-. vm_compute in S1.
    injection S1 as <-. vm_compute in S2. injection S2 as <-.
    eexists. repeat split; reflexivity. }
  destruct L' as (t' & L' & T' & M').
  exists w, w1, w2. repeat split; try assumption.
  - cbn [Clock.run] in *. destruct (Clock.step w1 _); [|discriminate S2].
    injection S2 as ->. now rewrite S3.
  - exact (B 1%nat t' w2 M' L' T' S3).
Defined.

(** ** The callback *)

Module TickFacts.

Import Clock ClockFacts InvFacts.

Lemma callsFrom_S (f : nat) (t0 : Z) (n : nat) :
  callsFrom f t0 (S n) =
  (f, t0 + 1000 * (Z.of_nat n + 1)) :: callsFrom f t0 n.
Proof.
  unfold callsFrom. rewrite seq_S, reverse_snoc. cbn [fmap list_fmap].
  do 3 f_equal. lia.
Qed.

Section Ticking.

Variables (T : Z) (d : nat) (f : nat) (t0 : Z) (id0 : nat)
          (before : list (nat * Z)).

Lemma step_ticking n w e w' :
  ticking T d f t0 id0 before n w -> keepsDeps d (Some f) [e] ->
  step w e = Some w' ->
  ticking T d f t0 id0 before n w' ∨ ticking T d f t0 id0 before (S n) w'.
Proof.
  intros (H & M & Pe & E & Tg & Rf & Cb & (t & L & D) & C & W) K S.
  assert (H' : Inv.holds w') by (eapply step_holds; eauto).
  apply Forall_cons in K as [K _].
  pose proof H as [Ht _ _ _].
  destruct e as [p|p| | |dt|j]; cbn [step] in S; try contradiction.
  - rewrite M in S. destruct K as [K1 K2].
    destruct (mutated _ _) eqn:Mu; [discriminate|]. cbn in S.
    unfold flush in S. rewrite Pe in S. unfold rerender in S.
    rewrite TimerFacts.depsChanged_same in S by congruence.
    injection S as <-. left.
    unfold mutated in Mu. rewrite bool_decide_eq_true_2 in Mu by congruence.
    cbn in Mu. apply negb_false_iff, bool_decide_eq_true_1 in Mu.
    unfold ticking. cbn. split_and!; auto; try congruence.
    exists t. auto.
  - rewrite Pe in S. discriminate.
  - rewrite Pe in S. cbn in S.
    destruct (bool_decide (0 <= dt)) eqn:G1; [|discriminate].
    destruct (bool_decide (map_Forall _ _)) eqn:G2; [|discriminate].
    injection S as <-. apply bool_decide_eq_true_1 in G1.
    left. unfold ticking. split_and!; auto; [exists t; auto | cbn; lia].
  - destruct (timers (browser w) !! j) as [tj|] eqn:Lj; [|discriminate].
    destruct (bool_decide _) eqn:G; [|discriminate].
    apply bool_decide_eq_true_1 in G.
    pose proof (Ht j tj Lj) as O. unfold Inv.timerOk in O.
    destruct (repeating tj) as [ms|] eqn:R.
    + destruct O as (_ & B & -> & _ & E' & tg & cb & τ & Tk & Pd & _).
      destruct (Pd Pe) as [-> ->].
      assert (j = id0) as -> by congruence.
      rewrite L in Lj. injection Lj as <-.
      injection S as <-. right. revert H'. rewrite Tk, Tg, Cb.
      rewrite (runTask_tick
                 (withBrowser (Timers.rearm id0 t (browser w)) w) _ _ M).
      unfold Timers.rearm. rewrite R. cbn. intros H'.
      unfold ticking. cbn -[callsFrom]. split_and!; auto.
      * eexists. rewrite lookup_insert_ne.
        -- rewrite lookup_insert_eq. split; [reflexivity|]. cbn. lia.
        -- destruct (Ht id0 t L) as (? & _). lia.
      * assert (Wk : wall (browser w) = t0 + 1000 * (Z.of_nat n + 1))
          by lia.
        rewrite C, callsFrom_S, Wk. reflexivity.
      * lia.
    + destruct O as (_ & _ & i & τ & Tk & _).
      injection S as <-. left. revert H'. rewrite Tk. cbn [runTask].
      assert (N : j ≠ id0).
      { intros ->. rewrite L in Lj. injection Lj as <-.
        destruct (handle_mounted w H M Pe) as (i' & t' & E1 & L1 & R1).
        assert (i' = id0) as -> by congruence.
        rewrite L in L1. injection L1 as <-. rewrite R in R1.
        by destruct R1. }
      unfold setPulse, Timers.rearm. rewrite R. cbn [clock withBrowser].
      destruct (live i (clock w)); cbn; intros H'.
      * unfold ticking. cbn. split_and!; auto. exists t.
        rewrite lookup_delete_ne by exact N. auto.
      * unfold ticking. cbn. split_and!; auto. exists t.
        rewrite lookup_delete_ne by exact N. auto.
Qed.

Lemma run_ticking es : ∀ n w w',
  ticking T d f t0 id0 before n w -> keepsDeps d (Some f) es ->
  run w es = Some w' ->
  ∃ m, ticking T d f t0 id0 before m w'.
Proof.
  induction es as [|e es IH]; intros n w w' A K R; cbn in R.
  - injection R as <-. eauto.
  - destruct (step w e) as [w1|] eqn:S; [|discriminate].
    apply Forall_cons in K as [K1 K2].
    destruct (step_ticking n w e w1 A ltac:(by apply Forall_cons) S)
      as [A'|A']; eapply IH; eauto.
Qed.

End Ticking.

Lemma mount_ticking w p f w1 w2 :
  Inv.holds w -> step w (Mount p) = Some w1 -> step w1 RunEffect = Some w2 ->
  onTick p = Some f ->
  ticking (targetDate p) (targetRef p) f (wall (browser w))
    (nextTimer (browser w)) (calls w) 0 w2.
Proof.
  intros H S1 S2 Cb. pose proof (step_holds _ _ _ H S1) as H1.
  pose proof (step_holds _ _ _ H1 S2) as H2.
  cbn [step] in S1. destruct (mounted (clock w)) eqn:M; [discriminate|].
  injection S1 as <-. cbn in S2. injection S2 as <-.
  assert (timer (clock w) = None) as E.
  { destruct H as [_ _ Hh _]. rewrite M in Hh. by destruct Hh. }
  revert H2. rewrite runEffect_eq by reflexivity. unfold cleared. cbn.
  intros H2. unfold ticking. cbn. split_and!; auto.
  - eexists. rewrite lookup_insert_eq. split; [reflexivity|]. cbn. lia.
  - lia.
Qed.

Lemma ticking_bounds T d f t0 id0 before n w :
  ticking T d f t0 id0 before n w ->
  calls w = callsFrom f t0 n ++ before ∧
  t0 + 1000 * Z.of_nat n <= wall (browser w)
    <= t0 + 1000 * (Z.of_nat n + 1).
Proof.
  intros (H & _ & _ & _ & _ & _ & _ & (t & L & D) & C & W).
  destruct H as [Ht _ _ _]. destruct (Ht id0 t L) as (_ & B & _).
  split; [exact C | lia].
Qed.

(** While the component is not mounted no callback is invoked. *)
Lemma step_silent w e w' :
  Inv.holds w -> mounted (clock w) = false -> noMount [e] ->
  step w e = Some w' ->
  mounted (clock w') = false ∧ calls w' = calls w.
Proof.
  intros H M K S. apply Forall_cons in K as [K _].
  assert (pending (clock w) = false) as Pe.
  { destruct H as [_ _ Hh _]. rewrite M in Hh. by destruct Hh. }
  destruct e as [p|p| | |dt|j]; cbn [step] in S; try contradiction;
    rewrite ?M, ?Pe in S; try discriminate.
  - destruct (_ && _); [|discriminate]. injection S as <-. auto.
  - destruct (timers (browser w) !! j) as [tj|] eqn:Lj; [|discriminate].
    destruct (bool_decide _); [|discriminate]. injection S as <-.
    destruct H as [Ht _ _ _].
    pose proof (Ht j tj Lj) as O. unfold Inv.timerOk in O.
    destruct (repeating tj) as [ms|] eqn:R.
    + destruct O as (_ & _ & _ & ? & _). congruence.
    + destruct O as (_ & _ & i & τ & Tk & _). rewrite Tk.
      cbn [runTask]. unfold setPulse. cbn [clock withBrowser].
      rewrite live_unmounted by exact M. auto.
Qed.

Lemma run_silent es : ∀ w w',
  Inv.holds w -> mounted (clock w) = false -> noMount es ->
  run w es = Some w' ->
  mounted (clock w') = false ∧ calls w' = calls w.
Proof.
  induction es as [|e es IH]; intros w w' H M K R; cbn in R.
  - injection R as <-. auto.
  - destruct (step w e) as [w1|] eqn:S; [|discriminate].
    apply Forall_cons in K as [K1 K2].
    destruct (step_silent w e w1 H M ltac:(by apply Forall_cons) S)
      as [M1 C1].
    destruct (IH w1 w' (step_holds _ _ _ H S) M1 K2 R) as [M' C'].
    split; [exact M' | congruence].
Qed.

End TickFacts.

(** The component on its own.  After an activation whose effect runs at
    time [t0] with a callback [f], as long as every render passes the same
    [Date] object and the same callback function and the component stays
    mounted, the invocations of the callback are exactly those at
    [t0 + 1000 k] for [k = 1, ..., n], one per elapsed second: [n] whole
    seconds have passed and the next second has not been exceeded.  After
    deactivation the callback is not invoked until the component is
    activated again. *)
Lemma one_callback_per_second
    (w0 w1 w2 w : World) (p : ClockProps) (f : nat) (es : list Event) :
  Clock.reachable w0 ->
  Clock.step w0 (Mount p) = Some w1 ->
  Clock.step w1 RunEffect = Some w2 ->
  onTick p = Some f ->
  keepsDeps (targetRef p) (onTick p) es ->
  Clock.run w2 es = Some w ->
  let t0 := wall (browser w0) in
  (∃ n : nat,
     calls w = callsFrom f t0 n ++ calls w0 ∧
     t0 + 1000 * Z.of_nat n <= wall (browser w)
       <= t0 + 1000 * (Z.of_nat n + 1)) ∧
  (∀ wu es' w',
     Clock.step w Unmount = Some wu -> noMount es' ->
     Clock.run wu es' = Some w' ->
     calls w' = calls w).
Proof.
  intros Re S1 S2 Cb K R t0.
  pose proof (InvFacts.reachable_holds w0 Re) as H0.
  pose proof (TickFacts.mount_ticking w0 p f w1 w2 H0 S1 S2 Cb) as A.
  rewrite Cb in K.
  destruct (TickFacts.run_ticking _ _ _ _ _ _ es 0%nat w2 w A K R) as [n A'].
  split.
  - exists n. eapply TickFacts.ticking_bounds; eauto.
  - intros wu es' w' Su Ke Ru.
    destruct A' as (H & M & Pe & _).
    pose proof (InvFacts.step_holds _ _ _ H Su) as Hu.
    cbn [Clock.step] in Su. rewrite M in Su. injection Su as <-.
    destruct (TickFacts.run_silent es' _ w' Hu) with (3 := Ru) as [_ C];
      [by rewrite ClockFacts.teardown_eq | exact Ke |].
    rewrite C. unfold Clock.flush. rewrite Pe.
    by rewrite ClockFacts.teardown_eq.
Qed.

Lemma one_callback_per_second_run :
  let p := {| targetDate := 90061000; targetRef := 0; onTick := Some 7%nat;
              variant := large; theme := Theme24 |} in
  let q := {| targetDate := 90061000; targetRef := 0; onTick := Some 7%nat;
              variant := small; theme := ThemeELF |} in
  let es := [Elapse 1000; Fire 0%nat; Elapse 100; Fire 1%nat; Update q;
             Elapse 900; Fire 0%nat; Elapse 100; Fire 2%nat; Elapse 400] in
  ∃ w,
    Clock.run (Clock.init 0) (Mount p :: RunEffect :: es) = Some w ∧
    ∃ n : nat,
      calls w = callsFrom 7 0 n ++ [] ∧
      0 + 1000 * Z.of_nat n <= wall (browser w)
        <= 0 + 1000 * (Z.of_nat n + 1).
Proof.
  intros p q es.
  pose (w1 := Clock.withClock (Clock.fresh p (clock (Clock.init 0)))
                (Clock.init 0)).
  pose (w2 := Clock.runEffect w1).
  destruct (Clock.run w2 es) as [w|] eqn:R;
    [|exfalso; vm_compute in R; discriminate R].
  destruct (one_callback_per_second (Clock.init 0) w1 w2 w p 7 es) as [A _];
    [ exists 0, []; reflexivity | reflexivity | reflexivity | reflexivity
    | repeat constructor | exact R | ].
  exists w. split; [exact R | exact A].
Defined.

(** ** The theme *)

Module ThemeFacts.

Import Clock ClockFacts.

Lemma depsChanged_erase p q :
  depsChanged (eraseProps p) (eraseProps q) = depsChanged p q.
Proof. reflexivity. Qed.

Lemma effect_erase w : effect (eraseWorld w) = eraseWorld (effect w).
Proof.
  unfold effect, setTimeLeft, eraseWorld. cbn.
  destruct (live _ _); reflexivity.
Qed.

Lemma cleanup_erase w : cleanup (eraseWorld w) = eraseWorld (cleanup w).
Proof.
  unfold cleanup, eraseWorld. cbn. destruct (timer (clock w)); reflexivity.
Qed.

Lemma runTask_erase t w : runTask t (eraseWorld w) = eraseWorld (runTask t w).
Proof.
  destruct w as [b [inst mt pr tl pu tr pe] tk cl].
  destruct t as [i tg cb|i];
    unfold runTask, setTimeLeft, setPulse, logTick, invoke, eraseWorld, live;
    cbn; destruct mt; cbn; repeat (case_bool_decide; cbn);
    try destruct cb; try reflexivity; congruence.
Qed.

Lemma mutated_erase p q :
  mutated (eraseProps p) (eraseProps q) = mutated p q.
Proof. reflexivity. Qed.

Lemma runEffect_erase w : runEffect (eraseWorld w) = eraseWorld (runEffect w).
Proof.
  unfold runEffect. rewrite cleanup_erase, effect_erase. reflexivity.
Qed.

Lemma flush_erase w : flush (eraseWorld w) = eraseWorld (flush w).
Proof.
  unfold flush. change (pending (clock (eraseWorld w))) with (pending (clock w)).
  destruct (pending (clock w)); [apply runEffect_erase | reflexivity].
Qed.

Lemma rerender_erase p w :
  rerender (eraseProps p) (eraseWorld w) = eraseWorld (rerender p w).
Proof.
  unfold rerender.
  change (props (clock (eraseWorld w))) with (eraseProps (props (clock w))).
  rewrite depsChanged_erase. destruct (depsChanged _ _); reflexivity.
Qed.

Lemma teardown_erase w : teardown (eraseWorld w) = eraseWorld (teardown w).
Proof. unfold teardown. rewrite cleanup_erase. reflexivity. Qed.

Lemma step_erase w e :
  step (eraseWorld w) (eraseEvent e) = eraseWorld <$> step w e.
Proof.
  destruct e as [p|p| | |dt|id]; cbn [step eraseEvent].
  - change (mounted (clock (eraseWorld w))) with (mounted (clock w)).
    destruct (mounted (clock w)); reflexivity.
  - change (mounted (clock (eraseWorld w))) with (mounted (clock w)).
    change (props (clock (eraseWorld w))) with (eraseProps (props (clock w))).
    rewrite mutated_erase.
    destruct (mounted (clock w) && _); [|reflexivity].
    cbn [fmap option_fmap option_map]. f_equal.
    rewrite flush_erase. apply rerender_erase.
  - change (mounted (clock (eraseWorld w))) with (mounted (clock w)).
    destruct (mounted (clock w)); [|reflexivity].
    cbn [fmap option_fmap option_map]. f_equal.
    rewrite flush_erase. apply teardown_erase.
  - change (pending (clock (eraseWorld w))) with (pending (clock w)).
    destruct (pending (clock w)); [|reflexivity].
    cbn [fmap option_fmap option_map]. f_equal. apply runEffect_erase.
  - change (browser (eraseWorld w)) with (browser w).
    change (pending (clock (eraseWorld w))) with (pending (clock w)).
    destruct (_ && _); reflexivity.
  - change (browser (eraseWorld w)) with (browser w).
    destruct (timers (browser w) !! id) as [t|]; [|reflexivity].
    destruct (bool_decide _); [|reflexivity]. cbn [fmap option_fmap option_map].
    f_equal. rewrite <- runTask_erase. reflexivity.
Qed.

Lemma run_erase es : ∀ w,
  run (eraseWorld w) (eraseEvent <$> es) = eraseWorld <$> run w es.
Proof.
  induction es as [|e es IH]; intros w; cbn [run fmap list_fmap].
  - reflexivity.
  - rewrite step_erase. destruct (step w e) as [w1|]; cbn; [apply IH|].
    reflexivity.
Qed.

Lemma erase_fields w w' :
  eraseWorld w = eraseWorld w' ->
  browser w = browser w' ∧ ticks w = ticks w' ∧ calls w = calls w' ∧
  timeLeft (clock w) = timeLeft (clock w') ∧
  pulse (clock w) = pulse (clock w') ∧
  mounted (clock w) = mounted (clock w') ∧
  timer (clock w) = timer (clock w') ∧
  variant (props (clock w)) = variant (props (clock w')) ∧
  targetDate (props (clock w)) = targetDate (props (clock w')) ∧
  onTick (props (clock w)) = onTick (props (clock w')).
Proof.
  unfold eraseWorld, withClock, withProps, eraseProps.
  intros E. injection E as -> ? ? ? ? ? ? ? ? ? ? -> ->. auto 10.
Qed.

End ThemeFacts.

(** C8.  Two runs of the component from the same initial state whose
    events differ at most in the theme of the props reach states with the
    same duration, the same pulse, the same timers, ticks and callback
    invocations, and they show the same groups with the same active
    segments in both digits; for any duration the groups and active
    segments rendered under the two themes are the same, and so are the
    active segments of any digit. *)
Theorem theme_does_not_affect_logic
    (t0 : Z) (es es' : list Event) (w w' : World) :
  eraseEvent <$> es = eraseEvent <$> es' ->
  Clock.run (Clock.init t0) es = Some w ->
  Clock.run (Clock.init t0) es' = Some w' ->
  timeLeft (clock w) = timeLeft (clock w') ∧
  pulse (clock w) = pulse (clock w') ∧
  browser w = browser w' ∧ ticks w = ticks w' ∧ calls w = calls w' ∧
  glyphs <$> Clock.view w = glyphs <$> Clock.view w' ∧
  (∀ variant timeLeft pulse,
     glyphs <$> render variant Theme24 timeLeft pulse =
     glyphs <$> render variant ThemeELF timeLeft pulse) ∧
  (∀ value pulse className,
     activePaths (SevenSegmentDigit value pulse className Theme24) =
     activePaths (SevenSegmentDigit value pulse className ThemeELF)).
Proof.
  intros E R R'.
  assert (Q : eraseWorld w = eraseWorld w').
  { pose proof (ThemeFacts.run_erase es (Clock.init t0)) as A.
    pose proof (ThemeFacts.run_erase es' (Clock.init t0)) as A'.
    rewrite R in A. rewrite R' in A'. rewrite E in A.
    rewrite A' in A. cbn [fmap option_fmap option_map] in A. congruence. }
  destruct (ThemeFacts.erase_fields w w' Q)
    as (Hb & Ht & Hc & Hl & Hp & _ & _ & Hv & _).
  split_and!; try assumption.
  - unfold Clock.view. rewrite Hl, Hp, Hv. apply glyphs_render_theme.
  - intros. apply glyphs_render_theme.
  - intros. apply activePaths_theme.
Qed.

Lemma theme_does_not_affect_logic_witness :
  let p := {| targetDate := 90061000; targetRef := 0; onTick := Some 7%nat;
              variant := large; theme := Theme24 |} in
  let q := {| targetDate := 90061000; targetRef := 0; onTick := Some 7%nat;
              variant := large; theme := ThemeELF |} in
  ∃ w w',
    Clock.run (Clock.init 0) [Mount p; RunEffect; Elapse 1000; Fire 0%nat] = Some w ∧
    Clock.run (Clock.init 0) [Mount q; RunEffect; Elapse 1000; Fire 0%nat] = Some w' ∧
    theme (props (clock w)) ≠ theme (props (clock w')) ∧
    timeLeft (clock w) = timeLeft (clock w') ∧
    glyphs <$> Clock.view w = glyphs <$> Clock.view w'.
Proof.
  intros p q.
  destruct (Clock.run (Clock.init 0) [Mount p; RunEffect; Elapse 1000; Fire 0%nat])
    as [w|] eqn:R; [|exfalso; vm_compute in R; discriminate R].
  destruct (Clock.run (Clock.init 0) [Mount q; RunEffect; Elapse 1000; Fire 0%nat])
    as [w'|] eqn:R'; [|exfalso; vm_compute in R'; discriminate R'].
  destruct (theme_does_not_affect_logic 0
              [Mount p; RunEffect; Elapse 1000; Fire 0%nat]
              [Mount q; RunEffect; Elapse 1000; Fire 0%nat] w w' eq_refl R R')
    as (A & _ & _ & _ & _ & B & _).
  exists w, w'. split_and!; try reflexivity; try assumption.
  vm_compute in R. injection R as <-. vm_compute in R'. injection R' as <-.
  discriminate.
Defined.

(** ** Every digit of the clock is a glyph *)

Module DigitFacts.

Lemma pretty_N_char_digit (n : N) : digitChar (pretty_N_char n) = true.
Proof. destruct n as [|p]; [reflexivity|]. do 4 (destruct p as [p|p|]; try reflexivity). Qed.

Lemma pretty_N_go_digits (x : N) : ∀ s,
  allDigits s = true -> allDigits (pretty_N_go x s) = true.
Proof.
  induction (N.lt_wf_0 x) as [x _ IH]. intros s Hs.
  destruct (decide (x = 0)%N) as [->|Hx]; [by rewrite pretty_N_go_0|].
  rewrite pretty_N_go_step by lia. apply IH.
  - apply N.div_lt; lia.
  - cbn [allDigits]. by rewrite pretty_N_char_digit, Hs.
Qed.

Lemma toString_digits (value : Z) :
  0 <= value -> allDigits (JsNum.toString value) = true.
Proof.
  intros H. unfold JsNum.toString, pretty, pretty_Z.
  destruct value as [|p|p]; [reflexivity| |lia].
  unfold pretty, pretty_positive, pretty, pretty_N.
  case_decide; [reflexivity|]. by apply pretty_N_go_digits.
Qed.

Lemma parseInt_digit (c : ascii) :
  digitChar c = true -> isDigit (JsNum.parseInt (Some c)).
Proof.
  unfold digitChar, JsNum.parseInt, isDigit. intros H. rewrite H.
  apply andb_true_iff in H as [A B].
  apply Z.leb_le in A. apply Z.leb_le in B.
  eexists. split; [reflexivity | lia].
Qed.

Lemma padded_digits (s : string) :
  allDigits s = true ->
  isDigit (JsNum.parseInt (JsString.at_ (JsString.padStart 2 "0" s) 0)) ∧
  isDigit (JsNum.parseInt (JsString.at_ (JsString.padStart 2 "0" s) 1)).
Proof.
  intros H. destruct s as [|c1 [|c2 r]]; cbn in H.
  - split; apply parseInt_digit; reflexivity.
  - rewrite andb_true_r in H. split; apply parseInt_digit; [reflexivity|].
    exact H.
  - apply andb_true_iff in H as [H1 H2].
    apply andb_true_iff in H2 as [H2 _].
    split; apply parseInt_digit; assumption.
Qed.

Lemma groupDigits_valid (value : Z) :
  0 <= value ->
  isDigit (groupDigits value).1 ∧ isDigit (groupDigits value).2.
Proof.
  intros H. unfold groupDigits. cbn [fst snd].
  apply padded_digits. by apply toString_digits.
Qed.

Lemma digit_has_segments (d : option Z) :
  isDigit d -> activeSegments d ≠ [].
Proof.
  intros (n & -> & H). apply digit_cases in H.
  repeat (apply elem_of_cons in H as [->|H]; [vm_compute; discriminate|]).
  by apply elem_of_nil in H.
Qed.

End DigitFacts.

(** X1.  Whatever the target and the current instant, each of the eight
    digits the clock renders is a decimal digit from 0 to 9 and is drawn
    with at least one active segment: no group shows a blank digit. *)
Theorem clock_digits_are_glyphs
    (T N : Z) (variant : Variant) (theme : ThemeMode) (pulse : bool) :
  Forall (λ e, match e with
               | Group g =>
                   segmentsOf (digit1 g) ≠ [] ∧ segmentsOf (digit2 g) ≠ []
               | Sep _ => True
               end)
    (render variant theme (calculateTimeLeft T N) pulse) ∧
  Forall (λ value, isDigit (groupDigits value).1 ∧
                   isDigit (groupDigits value).2)
    [days (calculateTimeLeft T N); hours (calculateTimeLeft T N);
     minutes (calculateTimeLeft T N); seconds (calculateTimeLeft T N)].
Proof.
  destruct (calculateTimeLeft_nonNegative T N) as (Hd & Hh & Hm & Hs).
  assert (G : ∀ value label, 0 <= value ->
            let g := renderGroup variant theme pulse value label in
            segmentsOf (digit1 g) ≠ [] ∧ segmentsOf (digit2 g) ≠ []).
  { intros value label Hv. unfold renderGroup.
    destruct (DigitFacts.groupDigits_valid value Hv) as [A B].
    destruct (groupDigits value) as [d1 d2]. cbn [digit1 digit2 fst snd] in *.
    rewrite !segmentsOf_digit.
    split; by apply DigitFacts.digit_has_segments. }
  split.
  - unfold render. repeat constructor; by apply G.
  - repeat constructor; by apply DigitFacts.groupDigits_valid.
Qed.

(** ** The displayed duration follows the clock *)

Module FreshFacts.

Import Clock ClockFacts InvFacts.

(** Until the first effect of an activation has run the display is what
    [useState] was given. *)
Lemma step_blank w e w' :
  Inv.holds w ->
  (mounted (clock w) = true -> timer (clock w) = None ->
   timeLeft (clock w) = zeroTime) ->
  step w e = Some w' ->
  mounted (clock w') = true -> timer (clock w') = None ->
  timeLeft (clock w') = zeroTime.
Proof.
  apply (step_elim (λ w, mounted (clock w) = true -> timer (clock w) = None ->
                         timeLeft (clock w) = zeroTime)); clear w e w'.
  - intros w p H B M _ _. reflexivity.
  - intros w H B M Pe. rewrite runEffect_eq by exact M. cbn. discriminate.
  - intros w p H B M Pe Mu. unfold rerender.
    destruct (depsChanged _ _); cbn; auto.
  - intros w H B M Pe. rewrite teardown_eq. cbn. discriminate.
  - intros w dt H B Pe D G. cbn. auto.
  - intros w id t H B L G.
    destruct (fire_cases w id t H L)
      as [(tg & cb & τ & R & M & E & _ & _ & _ & _ & _ & _ & ->)
         |(i & τ & R & Tk & _ & _ & _ & ->)].
    + cbn. intros _ E'. congruence.
    + unfold setPulse. cbn [clock]. destruct (live i (clock w)); cbn; auto.
Qed.

Lemma run_blank es : ∀ w w',
  Inv.holds w ->
  (mounted (clock w) = true -> timer (clock w) = None ->
   timeLeft (clock w) = zeroTime) ->
  run w es = Some w' ->
  mounted (clock w') = true -> timer (clock w') = None ->
  timeLeft (clock w') = zeroTime.
Proof.
  induction es as [|e es IH]; intros w w' H B R; cbn in R.
  - by injection R as <-.
  - destruct (step w e) as [w1|] eqn:S; [|discriminate].
    eapply IH; [| |exact R].
    + eapply step_holds; eauto.
    + eapply step_blank; eauto.
Qed.

Lemma shown_near_remaining (T τ now : Z) :
  τ <= now <= τ + 1000 ->
  - 1000 < toMillis (calculateTimeLeft T τ) - Z.max 0 (T - now) <= 1000.
Proof.
  intros B. destruct (Z_le_gt_dec T τ) as [P|F].
  - rewrite calculateTimeLeft_past by exact P.
    change (toMillis zeroTime) with 0. lia.
  - rewrite toMillis_div by lia.
    pose proof (Z.div_mod (T - τ) 1000 ltac:(lia)) as E.
    pose proof (Z.mod_pos_bound (T - τ) 1000 ltac:(lia)) as Bm.
    lia.
Qed.

End FreshFacts.

(** X2.  In every reachable state in which the component is mounted: until
    the first effect of the activation has run, the display is the initial
    state, zero in all fields; from then on the duration shown is one that
    [calculateTimeLeft] gave at an instant at most one second back, for the
    target of the effect that ran last, which is the current target once
    the effect of the last render has run; and then the milliseconds it
    represents differ from the true remaining time (zero once the target
    has passed) by at most one second. *)
Theorem display_lags_at_most_a_second (w : World) :
  Clock.reachable w -> mounted (clock w) = true ->
  (timer (clock w) = None -> timeLeft (clock w) = zeroTime) ∧
  (∀ id, timer (clock w) = Some id ->
     ∃ target τ,
       wall (browser w) - 1000 <= τ <= wall (browser w) ∧
       timeLeft (clock w) = calculateTimeLeft target τ ∧
       (pending (clock w) = false ->
        target = targetDate (props (clock w)))) ∧
  (pending (clock w) = false ->
   - 1000 < toMillis (timeLeft (clock w)) - remaining w <= 1000).
Proof.
  intros (t0 & es & R) M.
  pose proof (InvFacts.reachable_holds w (ex_intro _ t0 (ex_intro _ es R)))
    as H.
  assert (∀ id, timer (clock w) = Some id ->
     ∃ target τ,
       wall (browser w) - 1000 <= τ <= wall (browser w) ∧
       timeLeft (clock w) = calculateTimeLeft target τ ∧
       (pending (clock w) = false ->
        target = targetDate (props (clock w)))) as A.
  { intros id E. pose proof H as [Ht _ Hh _]. rewrite M in Hh.
    destruct Hh as [[? _]|(id' & t & E' & L & [ms Rp])]; [congruence|].
    pose proof (Ht id' t L) as O. unfold Inv.timerOk in O. rewrite Rp in O.
    destruct O as (_ & W & _ & _ & _ & tg & cb & τ & _ & Pd & D & B & Tl & _).
    exists tg, τ. split; [lia|]. split; [exact Tl|].
    intros Pe. by destruct (Pd Pe). }
  split_and!.
  - apply (FreshFacts.run_blank es _ _ (InvFacts.init_holds t0));
      [discriminate | exact R | exact M].
  - exact A.
  - intros Pe.
    destruct (InvFacts.handle_mounted w H M Pe) as (id & _ & E & _).
    destruct (A id E) as (tg & τ & B & Tl & Tg). rewrite Tl, (Tg Pe).
    unfold remaining. apply FreshFacts.shown_near_remaining. lia.
Qed.

Lemma display_lags_at_most_a_second_witness :
  ∃ w,
    Clock.run (Clock.init 0)
      [Mount {| targetDate := 90061000; targetRef := 0; onTick := None;
                variant := large; theme := Theme24 |};
       RunEffect;
       Elapse 1000; Fire 0%nat; Elapse 100; Fire 1%nat; Elapse 700] =
      Some w ∧
    - 1000 < toMillis (timeLeft (clock w)) - remaining w <= 1000.
Proof.
  destruct (Clock.run (Clock.init 0)
      [Mount {| targetDate := 90061000; targetRef := 0; onTick := None;
                variant := large; theme := Theme24 |};
       RunEffect;
       Elapse 1000; Fire 0%nat; Elapse 100; Fire 1%nat; Elapse 700])
    as [w|] eqn:R; [|exfalso; vm_compute in R; discriminate R].
  exists w. split; [reflexivity|].
  apply display_lags_at_most_a_second.
  - eexists 0, _. exact R.
  - vm_compute in R. injection R as <-. reflexivity.
  - vm_compute in R. injection R as <-. reflexivity.
Defined.

(** ** Ticks are spaced and timers do not pile up *)

Module SpacingFacts.

Import Clock ClockFacts InvFacts.

(** When the interval is due no one-shot timer is pending. *)
Lemma no_timeout_at_tick w id t j o :
  Inv.holds w -> timers (browser w) !! id = Some t ->
  is_Some (repeating t) -> due t <= wall (browser w) ->
  timers (browser w) !! j = Some o -> repeating o = None -> False.
Proof.
  intros [Ht _ _ _] L [ms R] G Lo Ro.
  pose proof (Ht id t L) as O. pose proof (Ht j o Lo) as O'.
  unfold Inv.timerOk in *. rewrite R in O. rewrite Ro in O'.
  destruct O as (_ & _ & _ & _ & _ & tg & cb & τ0 & _ & _ & D & _ & _ & Lt).
  destruct O' as (_ & W & i & τ & _ & _ & E & D').
  specialize (Lt τ E). lia.
Qed.

Lemma step_ticks w e w' :
  Inv.holds w -> step w e = Some w' ->
  ticks w' = ticks w ∨
  (ticks w' = wall (browser w) :: ticks w ∧
   ∀ τ, Inv.lastTick w = Some τ -> τ + 1000 <= wall (browser w)).
Proof.
  intros H S.
  assert (ticks (flush w) = ticks w) as Ef
    by (by destruct (flush_frame w H) as (_ & _ & _ & _ & _ & _ & _ & ? & _)).
  destruct e as [p|p| | |dt|id]; cbn [step] in S.
  - destruct (mounted (clock w)); [discriminate|]. injection S as <-.
    by left.
  - destruct (mounted (clock w) && _); [|discriminate]. injection S as <-.
    left. unfold rerender. by destruct (depsChanged _ _).
  - destruct (mounted (clock w)); [|discriminate]. injection S as <-.
    left. by rewrite teardown_eq.
  - destruct (pending (clock w)) eqn:Pe; [|discriminate]. injection S as <-.
    left. unfold flush in Ef. by rewrite Pe in Ef.
  - destruct (_ && _); [|discriminate]. injection S as <-. by left.
  - destruct (timers (browser w) !! id) as [t|] eqn:L; [|discriminate].
    destruct (bool_decide _) eqn:G; [|discriminate]. injection S as <-.
    apply bool_decide_eq_true_1 in G.
    destruct (fire_cases w id t H L)
      as [(tg & cb & τ & R & M & E & _ & _ & D & _ & _ & Lt & ->)
         |(i & τ & R & Tk & _ & _ & _ & ->)].
    + right. split; [reflexivity|]. intros τ' E'. specialize (Lt τ' E'). lia.
    + left. unfold setPulse. cbn [clock]. by destruct (live i (clock w)).
Qed.

Lemma step_spaced w e w' :
  Inv.holds w -> spaced (ticks w) -> step w e = Some w' ->
  spaced (ticks w').
Proof.
  intros H Sp S. destruct (step_ticks w e w' H S) as [->|[-> D]]; [exact Sp|].
  cbn [spaced]. split; [|exact Sp].
  unfold Inv.lastTick in D. destruct (ticks w) as [|b l]; [exact I|].
  by apply D.
Qed.

Lemma run_spaced es : ∀ w w',
  Inv.holds w -> spaced (ticks w) -> run w es = Some w' ->
  spaced (ticks w').
Proof.
  induction es as [|e es IH]; intros w w' H U R; cbn in R.
  - now injection R as <-.
  - destruct (step w e) as [w1|] eqn:S; [|discriminate].
    eapply IH; [| |exact R].
    + eapply step_holds; eauto.
    + eapply step_spaced; eauto.
Qed.

Lemma step_oneTimeout w e w' :
  Inv.holds w -> oneTimeout w -> step w e = Some w' -> oneTimeout w'.
Proof.
  apply (step_elim oneTimeout); clear w e w'.
  - intros w p H U M. exact U.
  - intros w H U M Pe. rewrite runEffect_eq by exact M.
    intros i1 t1 i2 t2 L1 R1 L2 R2. cbn in L1, L2.
    apply lookup_insert_Some in L1 as [[_ <-]|[_ L1]]; [discriminate R1|].
    apply lookup_insert_Some in L2 as [[_ <-]|[_ L2]]; [discriminate R2|].
    apply (cleared_timeouts w _ _ H) in L1 as [_ L1].
    apply (cleared_timeouts w _ _ H) in L2 as [_ L2].
    eapply U; eauto.
  - intros w p H U M Pe Mu. unfold rerender.
    destruct (depsChanged _ _); exact U.
  - intros w H U M Pe. rewrite teardown_eq.
    intros i1 t1 i2 t2 L1 R1 L2 R2. cbn in L1, L2.
    apply (cleared_timeouts w _ _ H) in L1 as [_ L1].
    apply (cleared_timeouts w _ _ H) in L2 as [_ L2].
    eapply U; eauto.
  - intros w dt H U Pe D G. exact U.
  - intros w id t H U L G.
    destruct (fire_cases w id t H L)
      as [(tg & cb & τ & R & M & E & _ & _ & D & _ & _ & Lt & ->)
         |(i & τ & R & Tk & _ & _ & _ & ->)].
    + assert (N : ∀ j o, timers (browser w) !! j = Some o ->
                         repeating o = None -> False).
      { intros j o Lo Ro.
        apply (no_timeout_at_tick w id t j o H L); auto; by rewrite R. }
      intros i1 t1 i2 t2 L1 R1 L2 R2. cbn in L1, L2.
      apply lookup_insert_Some in L1 as [[<- _]|[_ L1]];
        apply lookup_insert_Some in L2 as [[<- _]|[_ L2]]; try reflexivity.
      * apply lookup_insert_Some in L2 as [[_ <-]|[_ L2]];
          [discriminate R2 | destruct (N _ _ L2 R2)].
      * apply lookup_insert_Some in L1 as [[_ <-]|[_ L1]];
          [discriminate R1 | destruct (N _ _ L1 R1)].
      * apply lookup_insert_Some in L1 as [[_ <-]|[_ L1]];
          [discriminate R1 | destruct (N _ _ L1 R1)].
    + assert (K : ∀ i1 t1 i2 t2,
                delete id (timers (browser w)) !! i1 = Some t1 ->
                repeating t1 = None ->
                delete id (timers (browser w)) !! i2 = Some t2 ->
                repeating t2 = None -> i1 = i2).
      { intros i1 t1 i2 t2 L1 R1 L2 R2.
        apply lookup_delete_Some in L1 as [_ L1].
        apply lookup_delete_Some in L2 as [_ L2].
        eapply U; eauto. }
      unfold setPulse. cbn [clock]. destruct (live i (clock w)); exact K.
Qed.

Lemma run_oneTimeout es : ∀ w w',
  Inv.holds w -> oneTimeout w -> run w es = Some w' -> oneTimeout w'.
Proof.
  induction es as [|e es IH]; intros w w' H U R; cbn in R.
  - now injection R as <-.
  - destruct (step w e) as [w1|] eqn:S; [|discriminate].
    eapply IH; [| |exact R].
    + eapply step_holds; eauto.
    + eapply step_oneTimeout; eauto.
Qed.

(** A map whose keys are all equal has at most one entry. *)
Lemma size_le_1 (m : gmap nat Timer) :
  (∀ i x j y, m !! i = Some x -> m !! j = Some y -> i = j) ->
  (size m <= 1)%nat.
Proof.
  intros U. destruct (map_choose_or_empty m) as [(i & x & L)| ->].
  - assert (E : m = {[ i := x ]}).
    { apply map_eq. intros j. destruct (decide (j = i)) as [->|N].
      - by rewrite lookup_singleton_eq.
      - rewrite lookup_singleton_ne by congruence.
        apply eq_None_not_Some. intros [y Lj]. apply N. eapply U; eauto. }
    rewrite E, map_size_singleton. lia.
  - rewrite map_size_empty. lia.
Qed.

Lemma timers_split (b : Browser) :
  size (timers b) = (size (Timers.intervals b) + size (timeouts b))%nat.
Proof.
  unfold Timers.intervals, timeouts.
  rewrite <- (map_filter_union_complement
                (λ kt, is_Some (repeating kt.2)) (timers b)) at 1.
  rewrite map_size_disj_union by apply map_disjoint_filter_complement.
  f_equal. f_equal. apply map_filter_ext. intros i x _. cbn.
  destruct (repeating x); split; intros Hx; try done.
  destruct Hx. eauto.
Qed.

End SpacingFacts.

(** X3.  In every reachable state, whatever re-renders, deactivations and
    reactivations happened, any two consecutive runs of the interval
    callback lie at least one second apart. *)
Theorem ticks_at_least_a_second_apart (w : World) :
  Clock.reachable w -> spaced (ticks w).
Proof.
  intros (t0 & es & R).
  exact (SpacingFacts.run_spaced es _ _ (InvFacts.init_holds t0) I R).
Qed.

Lemma ticks_at_least_a_second_apart_witness :
  ∃ w,
    Clock.run (Clock.init 0)
      [Mount {| targetDate := 90061000; targetRef := 0; onTick := None;
                variant := large; theme := Theme24 |};
       RunEffect; Elapse 1000; Fire 0%nat; Elapse 50;
       Update {| targetDate := 90061000; targetRef := 0;
                 onTick := Some 1%nat; variant := large; theme := Theme24 |};
       RunEffect; Elapse 50; Fire 1%nat; Elapse 950; Fire 2%nat] = Some w ∧
    ticks w = [2050; 1000] ∧ spaced (ticks w).
Proof.
  destruct (Clock.run (Clock.init 0)
      [Mount {| targetDate := 90061000; targetRef := 0; onTick := None;
                variant := large; theme := Theme24 |};
       RunEffect; Elapse 1000; Fire 0%nat; Elapse 50;
       Update {| targetDate := 90061000; targetRef := 0;
                 onTick := Some 1%nat; variant := large; theme := Theme24 |};
       RunEffect; Elapse 50; Fire 1%nat; Elapse 950; Fire 2%nat])
    as [w|] eqn:R; [|exfalso; vm_compute in R; discriminate R].
  exists w. split; [reflexivity|]. split.
  - vm_compute in R. injection R as <-. reflexivity.
  - apply ticks_at_least_a_second_apart. eexists 0, _. exact R.
Defined.

(** X4.  In every reachable state the table holds at most one repeating
    timer and at most one pending one-shot timer, hence at most two timers
    in all: timers do not accumulate over ticks, re-renders or
    reactivations. *)
Theorem timers_do_not_accumulate (w : World) :
  Clock.reachable w ->
  oneTimeout w ∧
  (size (Timers.intervals (browser w)) <= 1)%nat ∧
  (size (timeouts (browser w)) <= 1)%nat ∧
  (size (timers (browser w)) <= 2)%nat.
Proof.
  intros Re. pose proof (InvFacts.reachable_holds w Re) as H.
  destruct Re as (t0 & es & R).
  assert (U : oneTimeout w).
  { apply (SpacingFacts.run_oneTimeout es _ _ (InvFacts.init_holds t0));
      [|exact R].
    intros i1 t1 i2 t2 L1. cbn in L1. by rewrite lookup_empty in L1. }
  assert (A : (size (Timers.intervals (browser w)) <= 1)%nat).
  { apply SpacingFacts.size_le_1. intros i x j y Li Lj.
    apply TimerFacts.intervals_lookup in Li as [Li Ri].
    apply TimerFacts.intervals_lookup in Lj as [Lj Rj].
    eapply TimerFacts.intervals_unique; eauto. }
  assert (B : (size (timeouts (browser w)) <= 1)%nat).
  { apply SpacingFacts.size_le_1. intros i x j y Li Lj.
    apply map_lookup_filter_Some in Li as [Li Ri].
    apply map_lookup_filter_Some in Lj as [Lj Rj].
    eapply U; eauto. }
  split_and!; try assumption.
  rewrite SpacingFacts.timers_split. lia.
Qed.

Lemma timers_do_not_accumulate_witness :
  ∃ w,
    Clock.run (Clock.init 0)
      [Mount {| targetDate := 90061000; targetRef := 0; onTick := None;
                variant := large; theme := Theme24 |};
       RunEffect; Elapse 1000; Fire 0%nat; Elapse 50; Unmount;
       Mount {| targetDate := 90061000; targetRef := 0; onTick := None;
                variant := small; theme := ThemeELF |};
       RunEffect] = Some w ∧
    size (timers (browser w)) = 2%nat ∧
    (size (timers (browser w)) <= 2)%nat.
Proof.
  destruct (Clock.run (Clock.init 0)
      [Mount {| targetDate := 90061000; targetRef := 0; onTick := None;
                variant := large; theme := Theme24 |};
       RunEffect; Elapse 1000; Fire 0%nat; Elapse 50; Unmount;
       Mount {| targetDate := 90061000; targetRef := 0; onTick := None;
                variant := small; theme := ThemeELF |};
       RunEffect])
    as [w|] eqn:R; [|exfalso; vm_compute in R; discriminate R].
  exists w. split; [reflexivity|]. split.
  - vm_compute in R. injection R as <-. reflexivity.
  - apply timers_do_not_accumulate. eexists 0, _. exact R.
Defined.

(** ** How far ahead the target lies *)

Section Ahead.

Import JsDate DateFacts.

Variables tza now : Z.

Local Abbreviation y := (getFullYear tza now).

(** The local time of [now] lies within its year. *)
Lemma within_current_year :
  TimeFromYear y <= LocalTime tza now < TimeFromYear (y + 1).
Proof.
  unfold getFullYear, YearFromTime, TimeFromYear.
  pose proof (YearFromDay_spec (Day (LocalTime tza now))) as S.
  revert S. generalize (YearFromDay (Day (LocalTime tza now))). intros yy S.
  revert S. generalize (DayFromYear yy), (DayFromYear (yy + 1)).
  intros a b S. unfold Day, msPerDay in *.
  Z.div_mod_to_equations. lia.
Qed.

Lemma christmasMidnight_local (k : Z) :
  christmasMidnight tza k =
  (DayFromYear k + 358 + leap k) * msPerDay - tza.
Proof.
  rewrite christmasMidnight_eq. unfold UTC, MakeDate.
  rewrite MakeDay_december25. lia.
Qed.

Lemma target_ahead :
  let t := if now <=? christmasMidnight tza y
           then christmasMidnight tza y
           else christmasMidnight tza (y + 1) in
  now <= t ∧ t - now < 366 * msPerDay.
Proof.
  pose proof within_current_year as W.
  unfold TimeFromYear, LocalTime in W.
  rewrite DayFromYear_succ, leap_range in W.
  rewrite !christmasMidnight_local.
  rewrite DayFromYear_succ, leap_range.
  assert (0 <= leap y <= 1) by (unfold leap; destruct (_ =? _); lia).
  assert (0 <= leap (y + 1) <= 1) by (unfold leap; destruct (_ =? _); lia).
  set (d := DayFromYear y) in *. set (l := leap y) in *.
  set (l' := leap (y + 1)) in *. clearbody d l l'. unfold msPerDay in *.
  destruct (Z.leb_spec now ((d + 358 + l) * 86400000 - tza)); cbn zeta; lia.
Qed.

End Ahead.

(** X5.  With the local zone at a fixed offset and the time value of the
    current instant between 0 and 8600000000000000 (from 1970 to the year
    274000 or so, short of the end of the range of dates), the target the
    app computes is never in the past and lies less than 366 days ahead,
    so the countdown starts with at most 365 whole days. *)
Theorem target_is_within_a_year (tza now : Z) :
  - JsDate.msPerDay < tza < JsDate.msPerDay ->
  0 <= now <= 8600000000000000 ->
  ∃ t, App.nextChristmas tza now = Some t ∧
       now <= t ∧ t - now < 366 * JsDate.msPerDay ∧
       0 <= days (calculateTimeLeft t now) <= 365.
Proof.
  intros Htz Hnow.
  pose proof (nextChristmas_cases tza Htz now Hnow) as C.
  pose proof (target_ahead tza now) as [A B].
  cbv zeta in A, B. revert C A B.
  generalize (if now <=? christmasMidnight tza (JsDate.getFullYear tza now)
              then christmasMidnight tza (JsDate.getFullYear tza now)
              else christmasMidnight tza (JsDate.getFullYear tza now + 1)).
  intros t C A B. exists t.
  split; [exact C|]. split; [exact A|]. split; [exact B|].
  destruct (Z.eq_dec t now) as [->|N].
  - rewrite calculateTimeLeft_past by lia. cbn. lia.
  - rewrite days_div by lia. unfold JsDate.msPerDay in B.
    Z.div_mod_to_equations. lia.
Qed.

Lemma target_is_within_a_year_witness :
  ∃ t, App.nextChristmas 3600000 1735117200000 = Some t ∧
       1735117200000 <= t ∧
       t - 1735117200000 < 366 * JsDate.msPerDay ∧
       0 <= days (calculateTimeLeft t 1735117200000) <= 365.
Proof.
  apply target_is_within_a_year; [unfold JsDate.msPerDay; lia | lia].
Defined.

(** ** The request sent to the API *)

Module TextFacts.

Import JsText.

Lemma stripPrefix_app (p s : string) : stripPrefix p (p +:+ s) = Some s.
Proof.
  induction p as [|a p IH]; simpl; [reflexivity|].
  by rewrite Ascii.eqb_refl.
Qed.

Lemma append_assoc (a b c : string) : (a +:+ b) +:+ c = a +:+ b +:+ c.
Proof.
  induction a as [|x a IH]; [reflexivity|].
  change (String x ((a +:+ b) +:+ c) = String x (a +:+ b +:+ c)).
  by f_equal.
Qed.

Lemma break_app (c : ascii) (m r : string) :
  occurs c m = false -> break c (m +:+ String c r) = (m, String c r).
Proof.
  induction m as [|a m IH]; simpl; intros H.
  - by rewrite Ascii.eqb_refl.
  - apply orb_false_iff in H as [H1 H2]. rewrite H1, (IH H2). reflexivity.
Qed.

Lemma break_none (c : ascii) (s : string) :
  occurs c s = false -> break c s = (s, EmptyString).
Proof.
  induction s as [|a s IH]; simpl; intros H; [reflexivity|].
  apply orb_false_iff in H as [H1 H2]. rewrite H1, (IH H2). reflexivity.
Qed.

Lemma break_rest (c : ascii) (s : string) :
  occurs c s = true -> ∃ r, (break c s).2 = String c r.
Proof.
  induction s as [|a s IH]; simpl; intros H; [discriminate|].
  destruct (Ascii.eqb a c) eqn:E.
  - apply Ascii.eqb_eq in E as ->. eauto.
  - simpl in H. destruct (IH H) as [r Hr]. exists r.
    destruct (break c s). exact Hr.
Qed.

Lemma occurs_app (c : ascii) (a b : string) :
  occurs c (a +:+ b) = occurs c a || occurs c b.
Proof.
  induction a as [|x a IH]; simpl; [reflexivity|].
  by rewrite IH, orb_assoc.
Qed.

Lemma break_suffix (c : ascii) (s : string) :
  occurs c (break c s).2 = occurs c s.
Proof.
  induction s as [|a s IH]; simpl; [reflexivity|].
  destruct (Ascii.eqb a c) eqn:E; simpl; [by rewrite E|].
  destruct (break c s). exact IH.
Qed.

Lemma stripPrefix_occurs (c : ascii) (p s r : string) :
  stripPrefix p s = Some r -> occurs c p = true -> occurs c s = true.
Proof.
  revert s. induction p as [|a p IH]; intros s H O; [discriminate|].
  destruct s as [|b s]; [discriminate|]. simpl in H.
  destruct (Ascii.eqb a b) eqn:E; [|discriminate].
  apply Ascii.eqb_eq in E as ->. simpl in *.
  destruct (Ascii.eqb b c); [reflexivity|]. simpl in *. eauto.
Qed.

Lemma stripPrefix_suffix (c : ascii) (p s r : string) :
  stripPrefix p s = Some r -> occurs c r = true -> occurs c s = true.
Proof.
  revert s. induction p as [|a p IH]; intros s H O.
  - simpl in H. destruct s; by injection H as <-.
  - destruct s as [|b s]; [discriminate|]. simpl in H.
    destruct (Ascii.eqb a b); [|discriminate]. simpl.
    rewrite (IH s H O). apply orb_true_r.
Qed.

End TextFacts.

Module RequestFacts.

Import JsText TextFacts Gemini.

Lemma break_rest_occurs (c x : ascii) (r : string) :
  occurs x (break c r).2 = true -> occurs x r = true.
Proof.
  induction r as [|a r IH]; simpl; [done|].
  destruct (Ascii.eqb a c); simpl; [done|].
  destruct (break c r) as [b1 b2]. simpl in *. intros O.
  rewrite (IH O). apply orb_true_r.
Qed.

Lemma mimeMatch_needs_comma (s m : string) :
  mimeMatch s = Some m -> occurs "," s = true.
Proof.
  unfold mimeMatch. destruct (stripPrefix "data:" s) as [r|] eqn:P;
    [|discriminate].
  destruct (break ";" r) as [m' rest] eqn:B.
  destruct m'; [discriminate|].
  destruct (stripPrefix ";base64," rest) as [d|] eqn:Q; [|discriminate].
  intros _. apply (stripPrefix_suffix _ _ _ _ P).
  apply (break_rest_occurs ";"). rewrite B. cbn [snd].
  apply (stripPrefix_occurs _ _ _ _ Q). reflexivity.
Qed.

(** A data URL is taken apart into its mime type and its payload; a string
    without a comma is kept whole, as image/jpeg. *)
Lemma requestOf_data_url (m d s : string) (mode : ThemeMode) :
  m ≠ "" ->
  occurs ";" m = false -> occurs "," m = false ->
  occurs "," d = false -> occurs "," s = false ->
  let r := requestOf ("data:" +:+ m +:+ ";base64," +:+ d) mode in
  let r' := requestOf s mode in
  mimeType r = m ∧ data r = d ∧
  mimeType r' = "image/jpeg" ∧ data r' = s.
Proof.
  intros Hm Hs Hc Hd Hn. cbn zeta. unfold requestOf.
  cbn [mimeType data].
  assert (E1 : "data:" +:+ m +:+ ";base64," +:+ d =
               "data:" +:+ (m +:+ String ";" ("base64," +:+ d)))
    by reflexivity.
  assert (E2 : "data:" +:+ m +:+ ";base64," +:+ d =
               ("data:" +:+ m +:+ ";base64") +:+ String "," d).
  { by rewrite !append_assoc. }
  split_and!.
  - rewrite E1. unfold mimeTypeOf, mimeMatch.
    rewrite stripPrefix_app, break_app by exact Hs.
    change (String ";" ("base64," +:+ d)) with (";base64," +:+ d).
    rewrite stripPrefix_app. destruct m; [congruence|reflexivity].
  - rewrite E2. unfold cleanBase64Of, secondField.
    rewrite break_app.
    + cbn [snd]. by rewrite break_none.
    + rewrite !occurs_app, Hc. reflexivity.
  - unfold mimeTypeOf.
    destruct (mimeMatch s) as [m'|] eqn:E; [|reflexivity].
    apply mimeMatch_needs_comma in E. congruence.
  - unfold cleanBase64Of, secondField.
    by rewrite break_none.
Qed.

End RequestFacts.

(** X6.  What [generateCharacterImage] sends is read off the string that
    [resizeImage] resolves with: the canvas's JPEG data URL for an image
    that loads, the upload itself otherwise.  When that string is a data
    URL "data:<mime>;base64,<payload>" whose mime type is not empty and has
    no semicolon or comma, and whose payload has no comma, the request
    carries exactly that mime type and that payload, with the model, the
    prompt of the mode and the aspect ratio 3:4; when it has no comma at
    all it is sent whole, as image/jpeg.  The promise settles as the
    answer to that request is read. *)
Theorem data_url_is_taken_apart
    (load : Gemini.ImageLoad) (api : Gemini.Request → Gemini.ApiResult)
    (img m d : string) (mode : ThemeMode) :
  (m ≠ "" ->
   JsText.occurs ";" m = false -> JsText.occurs "," m = false ->
   JsText.occurs "," d = false ->
   Gemini.resizeImage load img = "data:" +:+ m +:+ ";base64," +:+ d ->
   Gemini.generateCharacterImage load api img mode =
   Gemini.settle
     (api {| Gemini.model := "gemini-2.5-flash-image";
             Gemini.mimeType := m; Gemini.data := d;
             Gemini.text := match mode with
                            | Theme24 => Gemini.prompt24
                            | ThemeELF => Gemini.promptELF
                            end;
             Gemini.aspectRatio := "3:4" |})) ∧
  (JsText.occurs "," (Gemini.resizeImage load img) = false ->
   Gemini.generateCharacterImage load api img mode =
   Gemini.settle
     (api {| Gemini.model := "gemini-2.5-flash-image";
             Gemini.mimeType := "image/jpeg";
             Gemini.data := Gemini.resizeImage load img;
             Gemini.text := match mode with
                            | Theme24 => Gemini.prompt24
                            | ThemeELF => Gemini.promptELF
                            end;
             Gemini.aspectRatio := "3:4" |})).
Proof.
  unfold Gemini.generateCharacterImage. split.
  - intros Hm Hs Hc Hd E. rewrite E.
    destruct (RequestFacts.requestOf_data_url m d "" mode Hm Hs Hc Hd eq_refl)
      as (E1 & E2 & _).
    unfold Gemini.requestOf in *. cbn [Gemini.mimeType Gemini.data] in E1, E2.
    by rewrite E1, E2.
  - intros Hn.
    destruct (RequestFacts.requestOf_data_url "x" "" _ mode
                ltac:(discriminate) eq_refl eq_refl eq_refl Hn)
      as (_ & _ & E1 & E2).
    unfold Gemini.requestOf in *. cbn [Gemini.mimeType Gemini.data] in E1, E2.
    by rewrite E1, E2.
Qed.

Lemma data_url_is_taken_apart_witness :
  let load :=
    Gemini.Loaded 2048 1536
      (Some (λ _ _ : Z, "data:image/jpeg;base64,/9j/4AAQSkZJRg==")) in
  let api := λ r : Gemini.Request,
    Gemini.Throws (Gemini.ErrorObject "Error" (Gemini.mimeType r)) in
  Gemini.generateCharacterImage load api
    "data:image/png;base64,iVBORw0KGgo=" ThemeELF =
  Gemini.settle
    (api {| Gemini.model := "gemini-2.5-flash-image";
            Gemini.mimeType := "image/jpeg";
            Gemini.data := "/9j/4AAQSkZJRg==";
            Gemini.text := Gemini.promptELF;
            Gemini.aspectRatio := "3:4" |}).
Proof.
  intros load api.
  apply (proj1 (data_url_is_taken_apart load api
                  "data:image/png;base64,iVBORw0KGgo=" "image/jpeg"
                  "/9j/4AAQSkZJRg==" ThemeELF));
    [discriminate | reflexivity | reflexivity | reflexivity | reflexivity].
Defined.

(** ** The outcome of the generation *)

Module OutcomeFacts.

Import JsText TextFacts Gemini.

Lemma translate_rejects (e : Thrown) : ∃ name message,
  translate e = Reject (ErrorObject name message).
Proof.
  unfold translate.
  repeat (destruct (includes _ _); [unfold newError; eauto|]).
  destruct e; unfold newError; eauto.
Qed.

Lemma firstInline_spec (ps : list Part) (blob : option string) :
  firstInline ps = Some blob ↔
  ∃ pre p post,
    ps = pre ++ p :: post ∧
    Forall (λ q, inlineData q = None) pre ∧ inlineData p = Some blob.
Proof.
  unfold firstInline. induction ps as [|q ps IH]; cbn [List.find].
  - split; [discriminate|]. intros (pre & p & post & E & _).
    by destruct pre.
  - destruct (inlineData q) as [b|] eqn:Q.
    + rewrite bool_decide_eq_true_2 by eauto. rewrite Q. split.
      * intros [= <-]. exists [], q, ps. auto.
      * intros (pre & p & post & E & F & I).
        destruct pre as [|q' pre]; cbn in E; injection E as -> ->.
        { congruence. }
        apply Forall_cons in F as [F _]. congruence.
    + rewrite bool_decide_eq_false_2 by (intros [? ?]; discriminate).
      rewrite IH. split.
      * intros (pre & p & post & -> & F & I). exists (q :: pre), p, post.
        split_and!; auto.
      * intros (pre & p & post & E & F & I).
        destruct pre as [|q' pre]; cbn in E; injection E as -> ->.
        { congruence. }
        apply Forall_cons in F as [_ F]. exists pre, p, post. auto.
Qed.

End OutcomeFacts.

(** X7.  The call fulfills exactly when the API returned, the first
    candidate's finish reason is neither SAFETY nor OTHER, and one of its
    parts carries inline data; the value is then "data:image/png;base64,"
    followed by the data of the first such part, whatever parts come before
    or after it.  A thrown value never leads to a result. *)
Theorem resolves_with_first_inline_image (r : Gemini.ApiResult) (result : string) :
  Gemini.settle r = Gemini.Resolve result ↔
  ∃ c rest pre p post blob,
    r = Gemini.Returns (c :: rest) ∧
    Gemini.finishReason c ≠ Some "SAFETY" ∧
    Gemini.finishReason c ≠ Some "OTHER" ∧
    Gemini.parts c = Some (pre ++ p :: post) ∧
    Forall (λ q, Gemini.inlineData q = None) pre ∧
    Gemini.inlineData p = Some blob ∧
    result = "data:image/png;base64," +:+ Gemini.interpolate blob.
Proof.
  split.
  - destruct r as [cs|e]; cbn [Gemini.settle];
      [|destruct (OutcomeFacts.translate_rejects e) as (? & ? & ->);
        discriminate].
    unfold Gemini.readResponse.
    destruct cs as [|c rest]; cbn [head mbind option_bind].
    + rewrite !bool_decide_eq_false_2 by discriminate. cbn.
      destruct (OutcomeFacts.translate_rejects
                  (Gemini.newError "Transmission Incomplete: No image data received from satellite."))
        as (? & ? & ->). discriminate.
    + case_bool_decide as S;
        [destruct (OutcomeFacts.translate_rejects
                     (Gemini.newError "Security Protocol Engaged: Image content flagged by safety filters. Please try a different photo."))
           as (? & ? & ->); discriminate|].
      case_bool_decide as O;
        [destruct (OutcomeFacts.translate_rejects
                     (Gemini.newError "Protocol Failed: Model processing error. Try reducing image complexity."))
           as (? & ? & ->); discriminate|].
      destruct (Gemini.firstInline (default [] (Gemini.parts c)))
        as [blob|] eqn:F.
      * intros [= <-].
        apply OutcomeFacts.firstInline_spec in F
          as (pre & p & post & E & Fa & I).
        exists c, rest, pre, p, post, blob. split_and!; auto.
        destruct (Gemini.parts c) as [ps|]; cbn in E; [by subst|].
        by destruct pre.
      * destruct (Gemini.firstText _) as [[|a t]|];
          try destruct (_ || _);
          match goal with
          | |- context [Gemini.translate ?e] =>
              destruct (OutcomeFacts.translate_rejects e) as (? & ? & ->)
          end; discriminate.
  - intros (c & rest & pre & p & post & blob & -> & S & O & P & F & I & ->).
    cbn [Gemini.settle]. unfold Gemini.readResponse.
    cbn [head mbind option_bind].
    rewrite !bool_decide_eq_false_2 by assumption. rewrite P.
    cbn [default id].
    assert (Fi : Gemini.firstInline (pre ++ p :: post) = Some blob)
      by (apply OutcomeFacts.firstInline_spec; eauto 10).
    by rewrite Fi.
Qed.

Lemma resolves_with_first_inline_image_witness :
  Gemini.settle
    (Gemini.Returns
       [ {| Gemini.finishReason := Some "STOP";
            Gemini.parts :=
              Some [ {| Gemini.inlineData := None;
                        Gemini.partText := Some "Here is your poster" |};
                     {| Gemini.inlineData := Some (Some "QUJD");
                        Gemini.partText := None |};
                     {| Gemini.inlineData := Some (Some "REVG");
                        Gemini.partText := None |} ] |} ]) =
  Gemini.Resolve "data:image/png;base64,QUJD".
Proof.
  apply resolves_with_first_inline_image.
  eexists _, [], [_], _, [_], (Some "QUJD").
  split_and!; try reflexivity; try discriminate.
  repeat constructor.
Defined.

Module FailureFacts.

Import JsText TextFacts Gemini.

Lemma prefix_app (p s : string) : String.prefix p (p +:+ s) = true.
Proof.
  induction p as [|a p IH]; simpl; [by destruct s|].
  destruct (ascii_dec a a); [exact IH | congruence].
Qed.

Lemma prefix_app_r (p a b : string) :
  String.prefix p a = true -> String.prefix p (a +:+ b) = true.
Proof.
  revert a. induction p as [|x p IH]; intros a H; simpl.
  - by destruct (a +:+ b).
  - destruct a as [|y a]; simpl in *; [discriminate|].
    destruct (ascii_dec x y); [by apply IH | discriminate].
Qed.

Lemma includes_app_r (sub a b : string) :
  includes sub a = true -> includes sub (a +:+ b) = true.
Proof.
  induction a as [|x a IH]; simpl; intros H.
  - rewrite orb_false_r in H. destruct sub; [|discriminate].
    destruct b; reflexivity.
  - apply orb_true_iff in H as [H|H].
    + change (String x a +:+ b) with (String x (a +:+ b)) in *.
      pose proof (prefix_app_r sub (String x a) b H) as P.
      simpl in P. rewrite P. reflexivity.
    + rewrite (IH H). apply orb_true_r.
Qed.

Lemma includes_app_l (sub a b : string) :
  includes sub b = true -> includes sub (a +:+ b) = true.
Proof.
  intros H. induction a as [|x a IH]; simpl; [exact H|].
  rewrite IH. apply orb_true_r.
Qed.

Lemma toString_newError (m : string) :
  m ≠ "" -> toString (newError m) = "Error: " +:+ m.
Proof. destruct m; [congruence | reflexivity]. Qed.

End FailureFacts.

(** X8.  A finish reason SAFETY or OTHER on the first candidate decides the
    outcome whatever else the response holds, an image included: the call
    rejects with the safety message, respectively the processing message,
    and the translation of errors leaves that message as it is. *)
Theorem finish_reason_comes_first
    (c : Gemini.Candidate) (rest : list Gemini.Candidate) :
  (Gemini.finishReason c = Some "SAFETY" ->
   Gemini.settle (Gemini.Returns (c :: rest)) =
   Gemini.Reject (Gemini.newError "Security Protocol Engaged: Image content flagged by safety filters. Please try a different photo.")) ∧
  (Gemini.finishReason c = Some "OTHER" ->
   Gemini.settle (Gemini.Returns (c :: rest)) =
   Gemini.Reject (Gemini.newError "Protocol Failed: Model processing error. Try reducing image complexity.")).
Proof.
  split; intros E; cbn [Gemini.settle]; unfold Gemini.readResponse;
    cbn [head mbind option_bind]; rewrite E.
  - rewrite bool_decide_eq_true_2 by reflexivity. reflexivity.
  - rewrite bool_decide_eq_false_2 by discriminate.
    rewrite bool_decide_eq_true_2 by reflexivity. reflexivity.
Qed.

Lemma finish_reason_comes_first_witness :
  let image := {| Gemini.inlineData := Some (Some "QUJD");
                  Gemini.partText := None |} in
  let c := {| Gemini.finishReason := Some "SAFETY";
              Gemini.parts := Some [image] |} in
  Gemini.finishReason c = Some "SAFETY" ∧
  Gemini.settle (Gemini.Returns [c]) =
  Gemini.Reject (Gemini.newError "Security Protocol Engaged: Image content flagged by safety filters. Please try a different photo.").
Proof.
  intros image c. split; [reflexivity|].
  apply (proj1 (finish_reason_comes_first c [])). reflexivity.
Defined.

Module TextAnswerFacts.

Import JsText TextFacts Gemini FailureFacts.

(** What the [try] block throws for a text answer. *)
Lemma readResponse_text (c : Candidate) (rest : list Candidate)
    (ps : list Part) (t : string) :
  finishReason c ≠ Some "SAFETY" ->
  finishReason c ≠ Some "OTHER" ->
  parts c = Some ps ->
  Forall (λ q, inlineData q = None) ps ->
  firstText ps = Some t ->
  t ≠ "" ->
  readResponse (c :: rest) =
  if includes "sorry" (toLowerCase t) || includes "cannot" (toLowerCase t)
  then inr (newError "Request Denied: The model refused the prompt. Try a clearer face photo.")
  else inr (newError ("Model Response: " +:+ String.substring 0 100 t +:+ "...")).
Proof.
  intros N1 N2 P I T Ne. unfold readResponse. cbn [head mbind option_bind].
  rewrite (bool_decide_eq_false_2 _ N1), (bool_decide_eq_false_2 _ N2).
  rewrite P. cbn [default id].
  assert (firstInline ps = None) as ->.
  { unfold firstInline. clear -I. induction I as [|q ps Hq _ IH]; [reflexivity|].
    cbn [find]. rewrite Hq. rewrite bool_decide_eq_false_2; [exact IH|].
    intros [? ?]; discriminate. }
  rewrite T. destruct t; [congruence | reflexivity].
Qed.

Lemma firstText_nonempty (ps : list Part) (t : string) :
  firstText ps = Some t -> t ≠ "".
Proof.
  unfold firstText. destruct (find _ ps) as [p|] eqn:F; [|discriminate].
  apply find_some in F as [_ F]. intros E. rewrite E in F.
  destruct t; [discriminate | congruence].
Qed.

End TextAnswerFacts.

(** X9.  An answer in words is never a success, and its words can be taken
    for a status code: when the first candidate has no image and its first
    text is not a refusal, the text is cut to 100 characters and thrown as
    [Model Response: ...]; the catch block then searches that message, so
    a text with 403 among its first 100 characters is reported as an
    invalid API key. *)
Theorem text_answer_read_as_status
    (c : Gemini.Candidate) (rest : list Gemini.Candidate)
    (ps : list Gemini.Part) (t : string) :
  Gemini.finishReason c ≠ Some "SAFETY" ->
  Gemini.finishReason c ≠ Some "OTHER" ->
  Gemini.parts c = Some ps ->
  Forall (λ q, Gemini.inlineData q = None) ps ->
  Gemini.firstText ps = Some t ->
  JsText.includes "sorry" (JsText.toLowerCase t) = false ->
  JsText.includes "cannot" (JsText.toLowerCase t) = false ->
  JsText.includes "403" (String.substring 0 100 t) = true ->
  Gemini.settle (Gemini.Returns (c :: rest)) =
  Gemini.Reject (Gemini.newError "Access Denied: API Key invalid or expired.").
Proof.
  intros N1 N2 P I T S C H. cbn [Gemini.settle].
  rewrite (TextAnswerFacts.readResponse_text c rest ps t N1 N2 P I T
             (TextAnswerFacts.firstText_nonempty ps t T)).
  rewrite S, C. cbn [orb]. unfold Gemini.translate.
  rewrite FailureFacts.toString_newError by discriminate.
  assert (JsText.includes "403"
            ("Error: " +:+ "Model Response: " +:+ String.substring 0 100 t +:+ "...")
          = true) as ->; [|reflexivity].
  apply (FailureFacts.includes_app_l "403" "Error: ").
  apply (FailureFacts.includes_app_l "403" "Model Response: ").
  apply FailureFacts.includes_app_r. exact H.
Qed.

Lemma text_answer_read_as_status_witness :
  let words := {| Gemini.inlineData := None;
                  Gemini.partText := Some "Here are 403 elves for you." |} in
  let c := {| Gemini.finishReason := Some "STOP";
              Gemini.parts := Some [words] |} in
  Gemini.settle (Gemini.Returns [c]) =
  Gemini.Reject (Gemini.newError "Access Denied: API Key invalid or expired.").
Proof.
  intros words c.
  apply (text_answer_read_as_status c [] [words] "Here are 403 elves for you.");
    first [discriminate | reflexivity | by repeat constructor].
Defined.

Module RejectFacts.

Import JsText Gemini.

(** What the [try] block throws from the response is an [Error] with a
    message. *)
Lemma readResponse_throws (cs : list Candidate) (e : Thrown) :
  readResponse cs = inr e -> ∃ m, e = newError m ∧ m ≠ "".
Proof.
  unfold readResponse.
  repeat case_bool_decide;
    try (intros [= <-]; eexists; split; [reflexivity | discriminate]).
  destruct (firstInline _); [discriminate|].
  destruct (firstText _) as [[|a t]|];
    try (intros [= <-]; eexists; split; [reflexivity | discriminate]).
  destruct (_ || _); intros [= <-]; eexists; (split; [reflexivity | discriminate]).
Qed.

(** The [catch] block rejects with an [Error]; one without a message is the
    error it caught. *)
Lemma translate_error (e e' : Thrown) :
  translate e = Reject e' ->
  ∃ name message, e' = ErrorObject name message ∧ (message = "" -> e = e').
Proof.
  unfold translate.
  repeat (destruct (includes _ _);
          [intros [= <-]; eexists _, _; split; [reflexivity | discriminate]|]).
  destruct e as [name message|s]; intros [= <-].
  - eexists _, _; split; [reflexivity | done].
  - eexists _, _; split; [reflexivity | discriminate].
Qed.

End RejectFacts.

(** X10.  Whatever the client does, the promise rejects with an [Error]
    object, never with another value; and its message is empty only if the
    client itself threw that very error. *)
Theorem rejects_with_an_error (r : Gemini.ApiResult) (e : Gemini.Thrown) :
  Gemini.settle r = Gemini.Reject e ->
  ∃ name message,
    e = Gemini.ErrorObject name message ∧
    (message = "" -> r = Gemini.Throws e).
Proof.
  destruct r as [cs|e0]; cbn [Gemini.settle]; intros H.
  - destruct (Gemini.readResponse cs) as [s|e0] eqn:R; [discriminate|].
    destruct (RejectFacts.readResponse_throws cs e0 R) as (m & -> & Hm).
    destruct (RejectFacts.translate_error _ _ H) as (name & message & -> & He).
    exists name, message. split; [reflexivity|].
    intros ->. specialize (He eq_refl). injection He as _ ->. congruence.
  - destruct (RejectFacts.translate_error _ _ H) as (name & message & -> & He).
    exists name, message. split; [reflexivity|].
    intros E. by rewrite (He E).
Qed.

Lemma rejects_with_an_error_witness :
  ∃ name message,
    Gemini.newError "Access Denied: API Key invalid or expired."
    = Gemini.ErrorObject name message ∧
    (message = "" ->
     Gemini.Throws (Gemini.OtherValue "status 403")
     = Gemini.Throws (Gemini.newError "Access Denied: API Key invalid or expired.")).
Proof.
  apply (rejects_with_an_error (Gemini.Throws (Gemini.OtherValue "status 403"))).
  reflexivity.
Defined.

Module ResizeFacts.

Import Gemini.

Lemma scaled_height (width height maxWidth : Z) :
  0 < maxWidth -> maxWidth < width -> 0 <= height ->
  (0 <= inject_Z height * (inject_Z maxWidth / inject_Z width)
   <= inject_Z height)%Q.
Proof.
  intros Hm Hw Hh.
  assert (0 < inject_Z width)%Q as Pw.
  { change 0%Q with (inject_Z 0). rewrite <- Zlt_Qlt. lia. }
  assert (0 <= inject_Z maxWidth / inject_Z width <= 1)%Q as [L U].
  { split.
    - apply Qle_shift_div_l; [exact Pw|]. rewrite Qmult_0_l.
      change 0%Q with (inject_Z 0). rewrite <- Zle_Qle. lia.
    - apply Qle_shift_div_r; [exact Pw|]. rewrite Qmult_1_l.
      rewrite <- Zle_Qle. lia. }
  assert (0 <= inject_Z height)%Q as Ph.
  { change 0%Q with (inject_Z 0). rewrite <- Zle_Qle. lia. }
  split.
  - apply Qmult_le_0_compat; assumption.
  - rewrite <- (Qmult_1_r (inject_Z height)) at 2.
    apply Qmult_le_compat_nonneg; split; try assumption. apply Qle_refl.
Qed.

Lemma trunc_of_nonneg (x : Q) : (0 <= x)%Q -> JsNum.trunc x = Qfloor x.
Proof.
  intros H. unfold JsNum.trunc.
  by rewrite (proj2 (Qle_bool_iff 0 x) H).
Qed.

End ResizeFacts.

(** X11.  The canvas never enlarges the picture: it is as wide as the image
    or as the limit, whichever is less; it is no taller than the image; and
    an image within the limit keeps its size. *)
Theorem resize_never_enlarges (width height maxWidth : Z) :
  0 < maxWidth -> 0 <= height ->
  (Gemini.canvasSize width height maxWidth).1 = Z.min width maxWidth ∧
  0 <= (Gemini.canvasSize width height maxWidth).2 <= height ∧
  (width <= maxWidth ->
   (Gemini.canvasSize width height maxWidth).2 = height).
Proof.
  intros Hm Hh. unfold Gemini.canvasSize, Gemini.drawSize.
  destruct (Z.gtb_spec width maxWidth) as [G|G]; cbn [fst snd].
  - destruct (ResizeFacts.scaled_height width height maxWidth Hm G Hh) as [L U].
    rewrite (ResizeFacts.trunc_of_nonneg _ L).
    split; [lia|]. split; [|lia]. split.
    + exact (Qfloor_resp_le 0 _ L).
    + rewrite <- (Qfloor_Z height) at 2. exact (Qfloor_resp_le _ _ U).
  - assert (0 <= inject_Z height)%Q as Ph.
    { change 0%Q with (inject_Z 0). rewrite <- Zle_Qle. lia. }
    rewrite (ResizeFacts.trunc_of_nonneg _ Ph), Qfloor_Z.
    split; [lia|]. split; [lia | reflexivity].
Qed.

Lemma resize_never_enlarges_witness :
  (Gemini.canvasSize 4032 3024 1024).1 = Z.min 4032 1024 ∧
  0 <= (Gemini.canvasSize 4032 3024 1024).2 <= 3024 ∧
  (4032 <= 1024 -> (Gemini.canvasSize 4032 3024 1024).2 = 3024).
Proof. apply (resize_never_enlarges 4032 3024 1024); lia. Defined.

Module PageFacts.

Import App Page.

Lemma readResponse_returns (cs : list Gemini.Candidate) (s : string) :
  Gemini.readResponse cs = inl s -> ∃ d, s = "data:image/png;base64," +:+ d.
Proof.
  unfold Gemini.readResponse. repeat case_bool_decide; try discriminate.
  destruct (Gemini.firstInline _); [intros [= <-]; eauto|].
  destruct (Gemini.firstText _) as [[|a t]|]; try discriminate.
  destruct (_ || _); discriminate.
Qed.

Lemma settle_cases (r : Gemini.ApiResult) :
  (∃ d, Gemini.settle r = Gemini.Resolve ("data:image/png;base64," +:+ d)) ∨
  (∃ e, Gemini.settle r = Gemini.Reject e).
Proof.
  destruct r as [cs|e]; cbn [Gemini.settle].
  - destruct (Gemini.readResponse cs) as [s|e] eqn:R.
    + destruct (readResponse_returns cs s R) as [d ->]. left. eauto.
    + right. destruct (OutcomeFacts.translate_rejects e) as (? & ? & ->). eauto.
  - right. destruct (OutcomeFacts.translate_rejects e) as (? & ? & ->). eauto.
Qed.

Lemma page_step_holds (w w' : World) (e : Event) :
  holds w -> step w e = Some w' -> holds w'.
Proof.
  intros [He Hc Hp Hi] S. destruct e; cbn [step] in S.
  - destruct (fileInputShown _); [|discriminate]. injection S as <-.
    by constructor.
  - destruct (reads w); [discriminate|]. injection S as <-.
    constructor; cbn; try discriminate. exact Hi.
  - destruct (generateEnabled _) eqn:G; [|discriminate].
    unfold handleGenerate_call in S.
    destruct (uploadedImage (state w)) as [[|a img]|] eqn:U;
      try (exfalso; unfold generateEnabled in G; rewrite U in G; cbn in G;
           rewrite andb_false_r in G; discriminate G).
    injection S as <-. constructor; cbn; try discriminate.
    + intros _. rewrite ?U. split; [by destruct (calls w) | reflexivity].
    + apply Forall_app. split; [exact Hi|]. by repeat constructor.
  - destruct (calls w !! i) as [[img mode]|] eqn:L; [|discriminate].
    injection S as <-.
    assert (Forall (λ c, c.1 ≠ "") (delete i (calls w))) as Hi'.
    { by apply Forall_delete. }
    unfold Gemini.generateCharacterImage.
    destruct (settle_cases (api (Gemini.requestOf
                (Gemini.resizeImage load img) mode))) as [[d ->]|[e' ->]];
      constructor; cbn; try discriminate; try exact Hi'.
    + intros _. eauto.
    + intros _. eexists. split; [reflexivity|].
      by destruct (default "" (Gemini.messageOf e')).
  - destruct (previewShown _); [|discriminate]. injection S as <-.
    constructor; cbn; try discriminate. exact Hi.
  - destruct (finalShown _); [|discriminate]. injection S as <-.
    constructor; cbn; try discriminate. exact Hi.
  - injection S as <-. unfold toggleTheme.
    destruct (appState (state w)) eqn:A; constructor; cbn;
      rewrite ?A; try discriminate; try assumption.
Qed.

Lemma start_holds : holds start.
Proof. constructor; cbn; try discriminate. constructor. Qed.

Lemma page_run_holds (es : list Event) (w w' : World) :
  holds w -> run w es = Some w' -> holds w'.
Proof.
  revert w. induction es as [|e es IH]; intros w H R; cbn in R.
  - by injection R as <-.
  - destruct (step w e) as [w1|] eqn:S; [|discriminate].
    eapply IH; [|exact R]. eapply page_step_holds; eauto.
Qed.

Lemma page_reachable_holds (w : World) : reachable w -> holds w.
Proof. intros [es R]. eapply page_run_holds; [apply start_holds | exact R]. Qed.

End PageFacts.

(** X12.  On every page the user can reach, exactly one of the two phases
    is rendered: the setup phase unless the state is COMPLETE, and in
    COMPLETE the result, because a generated image is then present (it is
    the data URL the service resolved with, which is never empty). *)
Theorem one_phase_is_displayed (w : Page.World) :
  Page.reachable w ->
  Page.setupShown (Page.state w) = negb (Page.finalShown (Page.state w)).
Proof.
  intros R. destruct (PageFacts.page_reachable_holds w R) as [_ Hc _ _].
  unfold Page.setupShown, Page.finalShown.
  destruct (App.appState (Page.state w)); try reflexivity.
  destruct (Hc eq_refl) as [d ->]. reflexivity.
Qed.

Lemma one_phase_is_displayed_witness :
  ∃ w,
    Page.run Page.start
      [Page.Pick; Page.Loadend (Some "data:image/png;base64,QUJD");
       Page.ClickGenerate;
       Page.Settle 0 Gemini.LoadError
         (λ _, Gemini.Returns
                 [{| Gemini.finishReason := Some "STOP";
                     Gemini.parts :=
                       Some [{| Gemini.inlineData := Some (Some "WFla");
                                Gemini.partText := None |}] |}])] = Some w ∧
    Page.setupShown (Page.state w) = negb (Page.finalShown (Page.state w)).
Proof.
  destruct (Page.run Page.start
      [Page.Pick; Page.Loadend (Some "data:image/png;base64,QUJD");
       Page.ClickGenerate;
       Page.Settle 0 Gemini.LoadError
         (λ _, Gemini.Returns
                 [{| Gemini.finishReason := Some "STOP";
                     Gemini.parts :=
                       Some [{| Gemini.inlineData := Some (Some "WFla");
                                Gemini.partText := None |}] |}])])
    as [w|] eqn:R; [|exfalso; vm_compute in R; discriminate R].
  exists w. split; [reflexivity|].
  apply one_phase_is_displayed. eexists. exact R.
Defined.

(** X13.  The error banner always shows the message that was stored: on
    every page the user can reach, a rendered banner has a stored message
    that is not empty, so its fallback text is never what is shown in
    place of a missing message. *)
Theorem error_banner_shows_the_message (w : Page.World) (t : string) :
  Page.reachable w ->
  Page.banner (Page.state w) = Some t ->
  App.errorMessage (Page.state w) = Some t ∧ t ≠ "".
Proof.
  intros R. destruct (PageFacts.page_reachable_holds w R) as [He _ _ _].
  unfold Page.banner.
  destruct (App.appState (Page.state w)); try discriminate.
  destruct (He eq_refl) as (m & -> & Hm). cbn [default id].
  destruct m; [congruence|]. intros [= <-]. split; [reflexivity | discriminate].
Qed.

Lemma error_banner_shows_the_message_witness :
  ∃ w,
    Page.run Page.start
      [Page.Pick; Page.Loadend (Some "data:image/png;base64,QUJD");
       Page.ClickGenerate;
       Page.Settle 0 Gemini.LoadError
         (λ _, Gemini.Throws (Gemini.ErrorObject "TypeError" ""))] = Some w ∧
    App.errorMessage (Page.state w) = Some "An unexpected error occurred." ∧
    "An unexpected error occurred." ≠ "".
Proof.
  destruct (Page.run Page.start
      [Page.Pick; Page.Loadend (Some "data:image/png;base64,QUJD");
       Page.ClickGenerate;
       Page.Settle 0 Gemini.LoadError
         (λ _, Gemini.Throws (Gemini.ErrorObject "TypeError" ""))])
    as [w|] eqn:R; [|exfalso; vm_compute in R; discriminate R].
  exists w. split; [reflexivity|].
  apply error_banner_shows_the_message.
  - eexists. exact R.
  - vm_compute in R. injection R as <-. reflexivity.
Defined.

(** X14.  The spinner means work under way: on every page the user can
    reach, while the state is PROCESSING some call of the service has not
    settled and the preview of the uploaded image is on display. *)
Theorem spinner_means_call_in_flight (w : Page.World) :
  Page.reachable w ->
  Page.spinnerShown (Page.state w) = true ->
  Page.calls w ≠ [] ∧ Page.previewShown (Page.state w) = true.
Proof.
  intros R. destruct (PageFacts.page_reachable_holds w R) as [_ _ Hp _].
  unfold Page.spinnerShown, Page.previewShown, Page.setupShown.
  destruct (App.appState (Page.state w)); try discriminate.
  intros _. destruct (Hp eq_refl) as [Hc Hu]. by rewrite Hu.
Qed.

Lemma spinner_means_call_in_flight_witness :
  ∃ w,
    Page.run Page.start
      [Page.Pick; Page.Loadend (Some "data:image/png;base64,QUJD");
       Page.ClickGenerate; Page.ClickToggle] = Some w ∧
    Page.calls w ≠ [] ∧ Page.previewShown (Page.state w) = true.
Proof.
  destruct (Page.run Page.start
      [Page.Pick; Page.Loadend (Some "data:image/png;base64,QUJD");
       Page.ClickGenerate; Page.ClickToggle])
    as [w|] eqn:R; [|exfalso; vm_compute in R; discriminate R].
  exists w. split; [reflexivity|].
  apply spinner_means_call_in_flight.
  - eexists. exact R.
  - vm_compute in R. injection R as <-. reflexivity.
Defined.

(** X15.  The theme switch undoes itself, except on the result page:
    switching twice gives back the state as it was, unless the result was
    on display, in which case what is left is the page after a reset. *)
Theorem toggleTheme_twice (s : App.State) :
  Page.toggleTheme (Page.toggleTheme s) =
  match App.appState s with
  | COMPLETE => Page.reset s
  | _ => s
  end.
Proof.
  destruct s as [a th u g e]. unfold Page.toggleTheme.
  destruct a, th; reflexivity.
Qed.

Module LateFacts.

Import App Page.

(** Only settling takes a call away. *)
Lemma step_keeps_call (w w' : World) (e : Event) (c : string * ThemeMode) :
  match e with Settle _ _ _ => False | _ => True end ->
  step w e = Some w' -> c ∈ calls w -> c ∈ calls w'.
Proof.
  intros N S I. destruct e; try done; cbn [step] in S.
  - destruct (fileInputShown _); [|discriminate]. by injection S as <-.
  - destruct (reads w); [discriminate|]. by injection S as <-.
  - destruct (generateEnabled _); [|discriminate].
    destruct (handleGenerate_call _) as [[[img mode] s']|].
    + injection S as <-. cbn. apply elem_of_app. by left.
    + by injection S as <-.
  - destruct (previewShown _); [|discriminate]. by injection S as <-.
  - destruct (finalShown _); [|discriminate]. by injection S as <-.
  - by injection S as <-.
Qed.

Lemma run_keeps_call (es : list Event) (w w' : World)
    (c : string * ThemeMode) :
  noSettle es -> run w es = Some w' -> c ∈ calls w -> c ∈ calls w'.
Proof.
  revert w. induction es as [|e es IH]; intros w N R I; cbn in R.
  - by injection R as <-.
  - destruct (step w e) as [w1|] eqn:S; [|discriminate].
    inversion N as [|? ? Ne Nes]; subst.
    eapply IH; [exact Nes | exact R|]. eapply step_keeps_call; eauto.
Qed.

End LateFacts.

(** X16.  A call once made is never cancelled: whatever the user does
    while it is under way (removing the image, uploading another, switching
    the theme, starting further calls), it stays pending, and when it
    resolves the page goes to COMPLETE and displays its result. *)
Theorem late_result_is_displayed
    (w w' : Page.World) (es : list Page.Event)
    (img : string) (mode : ThemeMode) :
  (img, mode) ∈ Page.calls w ->
  Page.noSettle es ->
  Page.run w es = Some w' ->
  ∃ i, Page.calls w' !! i = Some (img, mode) ∧
    ∀ load api result,
      Gemini.generateCharacterImage load api img mode = Gemini.Resolve result ->
      ∃ w'', Page.step w' (Page.Settle i load api) = Some w'' ∧
        App.generatedImage (Page.state w'') = Some result ∧
        Page.finalShown (Page.state w'') = true.
Proof.
  intros I N R.
  pose proof (LateFacts.run_keeps_call es w w' (img, mode) N R I) as I'.
  apply list_elem_of_lookup_1 in I' as [i L]. exists i. split; [exact L|].
  intros load api result G. cbn [Page.step]. rewrite L, G.
  eexists. split; [reflexivity|]. cbn. split; [reflexivity|].
  unfold Gemini.generateCharacterImage in G.
  destruct (PageFacts.settle_cases (api (Gemini.requestOf
              (Gemini.resizeImage load img) mode))) as [[d E]|[e E]];
    rewrite E in G; [|discriminate].
  by injection G as <-.
Qed.

Lemma late_result_is_displayed_witness :
  let api := λ _ : Gemini.Request,
    Gemini.Returns
      [{| Gemini.finishReason := Some "STOP";
          Gemini.parts := Some [{| Gemini.inlineData := Some (Some "WFla");
                                   Gemini.partText := None |}] |}] in
  let w := {| Page.state :=
                App.setAppState PROCESSING
                  (Page.setUploadedImage (Some "data:image/png;base64,QUJD")
                     Page.initial);
              Page.reads := 0;
              Page.calls := [("data:image/png;base64,QUJD", Theme24)] |} in
  ∃ w' i,
    Page.run w [Page.ClickRemove; Page.ClickToggle] = Some w' ∧
    App.uploadedImage (Page.state w') = None ∧
    App.theme (Page.state w') = ThemeELF ∧
    ∃ w'', Page.step w' (Page.Settle i Gemini.LoadError api) = Some w'' ∧
      App.generatedImage (Page.state w'') = Some "data:image/png;base64,WFla" ∧
      Page.finalShown (Page.state w'') = true.
Proof.
  intros api w.
  destruct (Page.run w [Page.ClickRemove; Page.ClickToggle])
    as [w'|] eqn:R; [|exfalso; vm_compute in R; discriminate R].
  destruct (late_result_is_displayed w w'
              [Page.ClickRemove; Page.ClickToggle]
              "data:image/png;base64,QUJD" Theme24) as (i & L & H).
  - apply list_elem_of_here.
  - by repeat constructor.
  - exact R.
  - exists w', i. split; [reflexivity|].
    split; [vm_compute in R; injection R as <-; reflexivity|].
    split; [vm_compute in R; injection R as <-; reflexivity|].
    apply H. reflexivity.
Defined.

(** ** The clock inside the app *)

Module SiteFacts.

Import Clock ClockFacts InvFacts Site.

(** The timers after a pending effect has run: the interval it started, or
    timeouts that were there before. *)
Lemma runEffect_timers w id t :
  Inv.holds w -> mounted (clock w) = true ->
  timers (browser (runEffect w)) !! id = Some t ->
  (t = {| due := wall (browser w) + 1000; repeating := Some 1000;
          task := Tick (instance (clock w)) (targetDate (props (clock w)))
                    (onTick (props (clock w))) |})
  ∨ (repeating t = None ∧ timers (browser w) !! id = Some t).
Proof.
  intros H M. rewrite runEffect_eq by exact M. cbn. intros L.
  apply lookup_insert_Some in L as [[_ <-]|[_ L]]; [by left|].
  right. by apply cleared_timeouts.
Qed.

Lemma flush_timers w id t :
  Inv.holds w -> timers (browser (flush w)) !! id = Some t ->
  (pending (clock w) = true ∧
   t = {| due := wall (browser w) + 1000; repeating := Some 1000;
          task := Tick (instance (clock w)) (targetDate (props (clock w)))
                    (onTick (props (clock w))) |})
  ∨ (timers (browser w) !! id = Some t ∧
     (pending (clock w) = true -> repeating t = None)).
Proof.
  intros H. unfold flush. destruct (pending (clock w)) eqn:Pe; intros L.
  - destruct (runEffect_timers w id t H (pending_mounted w H Pe) L)
      as [->|[R L']]; [by left | right; auto].
  - right. split; [exact L | discriminate].
Qed.

(** What a render of [App] does to the clock. *)
Lemma render_spec (s s' : State) (target : Z) (ref : nat) (v : Variant)
    (th : ThemeMode) (replace : bool) :
  Inv.holds (world s) -> mounted (clock (world s)) = true ->
  (∃ f, onTick (props (clock (world s))) = Some f ∧ (f <= renders s)%nat) ->
  render target ref v th replace s = Some s' ->
  Inv.holds (world s') ∧ mounted (clock (world s')) = true ∧
  onTick (props (clock (world s'))) = Some (renders s') ∧
  pending (clock (world s')) = true ∧
  tickActive s' = tickActive s ∧ flashes s' = flashes s ∧
  ticks (world s') = ticks (world s) ∧
  calls (world s') = calls (world s) ∧
  wall (browser (world s')) = wall (browser (world s)) ∧
  ∀ id t, timers (browser (world s')) !! id = Some t ->
    (pending (clock (world s)) = true ∧
     t = {| due := wall (browser (world s)) + 1000; repeating := Some 1000;
            task := Tick (instance (clock (world s)))
                      (targetDate (props (clock (world s))))
                      (onTick (props (clock (world s)))) |})
    ∨ (timers (browser (world s)) !! id = Some t ∧
       (pending (clock (world s)) = true -> repeating t = None)).
Proof.
  intros H M (f & Hf & Le) R. unfold render in R.
  destruct (flush_frame (world s) H)
    as (Hfl & Pfl & Mfl & Ifl & Prfl & _ & Wfl & Tfl & Cfl).
  destruct replace.
  - destruct (Clock.step (world s) Unmount) as [w1|] eqn:S1;
      [|discriminate]. cbn [mbind option_bind] in R.
    destruct (Clock.step w1 (Mount _)) as [w'|] eqn:S2; [|discriminate].
    injection R as <-. cbn [world tickActive flashes renders].
    pose proof (step_holds _ _ _ (step_holds _ _ _ H S1) S2) as H'.
    cbn [Clock.step] in S1. rewrite M in S1. injection S1 as <-.
    revert S2 H'. rewrite teardown_eq. unfold Clock.step.
    cbn [clock withClock mounted]. intros [= <-] H'. cbn.
    split_and!; try done.
    intros id t L. apply (cleared_timeouts _ _ _ Hfl) in L as [Rt L].
    destruct (flush_timers _ _ _ H L) as [[_ ->]|[L' _]];
      [discriminate Rt | right; auto].
  - destruct (Clock.step (world s) (Update _)) as [w'|] eqn:S1;
      [|discriminate]. injection R as <-.
    cbn [world tickActive flashes renders].
    pose proof (step_holds _ _ _ H S1) as H'.
    cbn [Clock.step] in S1. rewrite M in S1.
    destruct (mutated _ _); [discriminate|]. cbn in S1.
    injection S1 as <-. revert H'. unfold rerender.
    rewrite TimerFacts.depsChanged_true.
    2:{ right. rewrite Prfl, Hf. cbn. intros [= E]. lia. }
    intros H'. cbn. split_and!; try done; try congruence.
    intros id t L. by apply flush_timers.
Qed.

Lemma setPulse_frame i v w :
  browser (setPulse i v w) = browser w ∧
  ticks (setPulse i v w) = ticks w ∧ calls (setPulse i v w) = calls w ∧
  mounted (clock (setPulse i v w)) = mounted (clock w) ∧
  props (clock (setPulse i v w)) = props (clock w) ∧
  pending (clock (setPulse i v w)) = pending (clock w).
Proof. unfold setPulse. destruct (live i (clock w)); by split_and!. Qed.

Lemma site_step_holds (s s' : State) (e : Event) :
  holds s -> Site.step s e = Some s' -> holds s'.
Proof.
  intros [H M C Cl F G Ca] S.
  destruct e as [dt|id|i| |target ref v th replace]; cbn [Site.step] in S.
  - (* time passes *)
    case_bool_decide as Fl; [|discriminate].
    destruct (Clock.step (world s) (Elapse dt)) as [w'|] eqn:S1;
      [|discriminate]. injection S as <-.
    pose proof (step_holds _ _ _ H S1) as H'.
    cbn [Clock.step] in S1.
    destruct (pending (clock (world s))) eqn:Pe; [discriminate|].
    destruct (bool_decide (0 <= dt)) eqn:D; [|discriminate].
    destruct (bool_decide (map_Forall _ _)); [|discriminate].
    apply bool_decide_eq_true_1 in D. cbn in S1. injection S1 as <-.
    constructor; cbn; try assumption.
    unfold Inv.lastTick in *. cbn.
    destruct (head (ticks (world s))) as [τ|]; [|exact F].
    destruct F as [(E & A & W & I)|(E & A & W)].
    + left. split_and!; try assumption; [lia|].
      intros j t L R. left.
      destruct (I j t L R) as [?|[? _]]; [assumption | congruence].
    + right. split_and!; try assumption.
      rewrite E in Fl. exact (proj1 (Forall_singleton _ _) Fl).
  - (* a timer of the clock *)
    destruct (Clock.step (world s) (Fire id)) as [w'|] eqn:S1;
      [|discriminate]. cbn [mbind option_bind] in S.
    pose proof (step_holds _ _ _ H S1) as H'.
    cbn [Clock.step] in S1.
    destruct (timers (browser (world s)) !! id) as [t|] eqn:L;
      [|discriminate].
    destruct (bool_decide _) eqn:Du; [|discriminate].
    apply bool_decide_eq_true_1 in Du. injection S1 as S1.
    cbn [fmap option_fmap option_map] in S.
    destruct (fire_cases (world s) id t H L)
      as [(tg & cb & τ0 & R & _ & E & Tk & _ & D & W & _ & Lt & Eq)
         |(i & τ0 & R & Tk & _ & _ & _ & Eq)];
      rewrite Eq in S1; clear Eq; rewrite Tk in S.
    + destruct (Cl id t _ _ _ L Tk) as [f0 ->].
      destruct C as (f & Hf & Le).
      assert (flashes s = [] ∧ tickActive s = false ∧
              ∀ τ, Inv.lastTick (world s) = Some τ ->
                   τ + 1050 <= wall (browser (world s))) as (Ef & Ea & Sp).
      { destruct (Inv.lastTick (world s)) as [τ|].
        - specialize (Lt τ eq_refl).
          destruct F as [(Ef & Ea & _ & I)|(_ & _ & Wl)]; [|lia].
          split_and!; try assumption. intros ? [= <-].
          destruct (I id t L ltac:(by rewrite R)) as [?|[_ ?]]; lia.
        - destruct F. split_and!; try assumption. discriminate. }
      unfold handleTick, setTickActive in S.
      cbn [tickActive withWorld world flashes renders] in S.
      rewrite Ea in S. rewrite bool_decide_eq_false_2 in S by discriminate.
      destruct (render _ _ _ _ _ _) as [s1|] eqn:Rd; [|discriminate].
      cbn [mbind option_bind] in S. injection S as <-.
      pose proof (λ a b c, render_spec _ _ _ _ _ _ _ a b c Rd) as Rs.
      destruct Rs as (H1 & M1 & C1 & P1 & A1 & F1 & T1 & K1 & W1 & I1);
        [exact H' | by rewrite <- S1 | rewrite <- S1; cbn; eauto |].
      cbn [world tickActive flashes renders] in A1, F1, T1, K1, W1, I1.
      rewrite <- S1 in T1, K1, W1, I1. cbn in T1, K1, W1, I1.
      constructor; cbn [world tickActive flashes renders];
        try assumption.
      * eauto.
      * intros j tj inst target cb Lj Tj.
        destruct (I1 j tj Lj) as [[_ ->]|[Lj' _]].
        -- cbn in Tj. injection Tj as _ _ <-. rewrite Hf. eauto.
        -- apply lookup_insert_Some in Lj' as [[_ <-]|[_ Lj']];
             [discriminate Tj|].
           apply lookup_insert_Some in Lj' as [[_ <-]|[_ Lj']].
           ++ cbn in Tj. rewrite Tk in Tj. injection Tj as _ _ <-. eauto.
           ++ eapply Cl; eauto.
      * unfold Inv.lastTick. rewrite T1. cbn [head].
        right. rewrite F1, Ef, A1, W1. split_and!; [reflexivity..|lia].
      * rewrite T1. cbn [spacedBy]. split; [|exact G].
        destruct (ticks (world s)) as [|τ l] eqn:Tl; [done|].
        apply Sp. unfold Inv.lastTick. by rewrite Tl.
      * rewrite K1, T1. cbn. by rewrite Ca.
    + injection S as <-.
      destruct (setPulse_frame i false
                  {| browser :=
                       {| wall := wall (browser (world s));
                          timers := delete id (timers (browser (world s)));
                          nextTimer := nextTimer (browser (world s)) |};
                     clock := clock (world s); ticks := ticks (world s);
                     calls := calls (world s) |})
        as (Eb & Et & Ec & Em & Ep & Epe).
      rewrite S1 in Eb, Et, Ec, Em, Ep, Epe. cbn in Eb, Et, Ec, Em, Ep, Epe.
      assert (∀ j tj, timers (browser w') !! j = Some tj ->
                      timers (browser (world s)) !! j = Some tj) as Sub.
      { intros j tj Lj. rewrite Eb in Lj. cbn in Lj.
        by apply lookup_delete_Some in Lj as [_ ?]. }
      constructor; cbn [world withWorld tickActive flashes renders];
        try assumption.
      * congruence.
      * by rewrite Ep.
      * intros j tj inst target cb Lj Tj.
        exact (Cl j tj inst target cb (Sub j tj Lj) Tj).
      * unfold Inv.lastTick in *. rewrite Et.
        destruct (head (ticks (world s))) as [τ|]; [|exact F].
        destruct F as [(Ef & Ea & Wl & I0)|B]; [left | right].
        -- split_and!; try assumption; [by rewrite Eb|].
           intros j tj Lj Rj. rewrite Epe, Eb. cbn. eauto.
        -- by rewrite Eb.
      * by rewrite Et.
      * by rewrite Ec, Et.
  - (* the timeout of handleTick *)
    destruct (flashes s !! i) as [d|] eqn:Li; [|discriminate].
    case_bool_decide as D; [|discriminate].
    assert (∃ τ, Inv.lastTick (world s) = Some τ ∧ flashes s = [τ + 50] ∧
                 tickActive s = true ∧ i = 0%nat ∧
                 wall (browser (world s)) = τ + 50) as (τ & Lt & Ef & Ea & -> & W).
    { destruct (Inv.lastTick (world s)) as [τ|].
      - destruct F as [(E & _)|(E & A & Wl)].
        + rewrite E in Li. discriminate.
        + exists τ. rewrite E in Li.
          destruct i; cbn in Li; [|discriminate]. injection Li as <-.
          split_and!; try done. lia.
      - destruct F as [E _]. rewrite E in Li. discriminate. }
    unfold setTickActive in S. cbn [tickActive world flashes renders] in S.
    rewrite Ea in S. rewrite bool_decide_eq_false_2 in S by discriminate.
    pose proof (λ a b c, render_spec _ _ _ _ _ _ _ a b c S) as Rs.
    destruct (Rs H M C) as (H1 & M1 & C1 & P1 & A1 & F1 & T1 & K1 & W1 & I1).
    clear Rs. cbn [world tickActive flashes renders] in A1, F1, T1, K1, W1, I1.
    constructor; try assumption.
    + eauto.
    + intros j tj inst target cb Lj Tj.
      destruct (I1 j tj Lj) as [[_ ->]|[Lj' _]]; [|eapply Cl; eauto].
      cbn in Tj. injection Tj as _ _ <-. destruct C as (f & -> & _). eauto.
    + unfold Inv.lastTick in *. rewrite T1, Lt. left.
      rewrite F1, A1, W1, Ef. cbn. split_and!; try reflexivity; [lia|].
      intros j tj Lj Rj. rewrite P1, W1.
      destruct (I1 j tj Lj) as [[_ ->]|[Lj' _]]; [left; cbn; lia|].
      right. split; [reflexivity|].
      destruct H as [Ht _ _ _]. pose proof (Ht j tj Lj') as O.
      unfold Inv.timerOk in O. destruct Rj as [ms Rj]. rewrite Rj in O.
      destruct O as (_ & _ & _ & _ & _ & tg & cb & τ0 & _ & _ & Dj & _ & _ & Lj0).
      specialize (Lj0 τ Lt). lia.
    + by rewrite T1.
    + by rewrite K1, T1.
  - (* the effect of the clock *)
    destruct (Clock.step (world s) RunEffect) as [w'|] eqn:S1;
      [|discriminate]. injection S as <-.
    pose proof (step_holds _ _ _ H S1) as H'.
    cbn [Clock.step] in S1.
    destruct (pending (clock (world s))) eqn:Pe; [|discriminate].
    injection S1 as S1.
    pose proof (λ j tj, runEffect_timers (world s) j tj H M) as I1.
    rewrite S1 in I1. revert S1. rewrite runEffect_eq by exact M.
    intros S1.
    assert (ticks w' = ticks (world s) ∧ calls w' = calls (world s) ∧
            wall (browser w') = wall (browser (world s)) ∧
            mounted (clock w') = true ∧
            props (clock w') = props (clock (world s)))
      as (T1 & K1 & W1 & M1 & P1) by (by rewrite <- S1).
    constructor; cbn [world withWorld tickActive flashes renders];
      try assumption.
    + by rewrite P1.
    + intros j tj inst target cb Lj Tj.
      destruct (I1 j tj Lj) as [->|[_ Lj']]; [|eapply Cl; eauto].
      cbn in Tj. injection Tj as _ _ <-. destruct C as (f & -> & _). eauto.
    + unfold Inv.lastTick in *. rewrite T1, W1.
      destruct (head (ticks (world s))) as [τ|]; [|exact F].
      destruct F as [(Ef & Ea & Wl & I0)|B]; [left | by right].
      split_and!; try assumption.
      intros j tj Lj Rj. left.
      destruct (I1 j tj Lj) as [->|[Rn _]]; [cbn; lia|].
      rewrite Rn in Rj. by destruct Rj.
    + by rewrite T1.
    + by rewrite K1, T1.
  - (* another render *)
    pose proof (λ a b c, render_spec _ _ _ _ _ _ _ a b c S) as Rs.
    destruct (Rs H M C) as (H1 & M1 & C1 & P1 & A1 & F1 & T1 & K1 & W1 & I1).
    clear Rs.
    constructor; try assumption.
    + eauto.
    + intros j tj inst tg cb Lj Tj.
      destruct (I1 j tj Lj) as [[_ ->]|[Lj' _]]; [|eapply Cl; eauto].
      cbn in Tj. injection Tj as _ _ <-. destruct C as (f & -> & _). eauto.
    + unfold Inv.lastTick in *. rewrite T1, A1, F1, W1.
      destruct (head (ticks (world s))) as [τ|]; [|exact F].
      destruct F as [(E & A & Wl & I0)|B]; [left | by right].
      split_and!; try assumption.
      intros j tj Lj Rj. left.
      destruct (I1 j tj Lj) as [[_ ->]|[Lj' Pn]]; [cbn; lia|].
      destruct (I0 j tj Lj' Rj) as [?|[Pe _]]; [assumption|].
      rewrite (Pn Pe) in Rj. by destruct Rj.
    + by rewrite T1.
    + by rewrite K1, T1.
Qed.

Lemma site_start_holds (t0 : Z) : holds (start t0).
Proof.
  constructor.
  - apply (mount_holds (Clock.init t0)); [apply init_holds | reflexivity].
  - reflexivity.
  - exists 0%nat. split; [reflexivity | cbn; lia].
  - intros id t inst tg cb L. cbn in L. by rewrite lookup_empty in L.
  - cbn. done.
  - cbn. done.
  - reflexivity.
Qed.

Lemma site_run_holds (es : list Event) (s s' : State) :
  holds s -> Site.run s es = Some s' -> holds s'.
Proof.
  revert s. induction es as [|e es IH]; intros s H R; cbn in R.
  - by injection R as <-.
  - destruct (Site.step s e) as [s1|] eqn:S; [|discriminate].
    eapply IH; [|exact R]. eapply site_step_holds; eauto.
Qed.

Lemma site_reachable_holds (s : State) : Site.reachable s -> holds s.
Proof.
  intros (t0 & es & R). eapply site_run_holds; [apply site_start_holds|exact R].
Qed.

End SiteFacts.

(** X17.  In the app the clock does not tick every second: every tick
    renders [App] twice, at once and 50 ms later, each render hands the
    clock a new callback, and each new callback starts the interval anew;
    so any two consecutive runs of the interval callback lie at least
    1050 ms apart, whatever else renders the page. *)
Theorem clock_in_app_ticks_slower (s : Site.State) :
  Site.reachable s -> Site.spacedBy 1050 (ticks (Site.world s)).
Proof. intros R. by destruct (SiteFacts.site_reachable_holds s R). Qed.

Lemma clock_in_app_ticks_slower_witness :
  ∃ s,
    Site.run (Site.start 0)
      [Site.Effect; Site.Wait 1000; Site.RunClock 0; Site.Effect;
       Site.Wait 50; Site.RunFlash 0; Site.Effect; Site.Wait 50;
       Site.RunClock 1; Site.Wait 950; Site.RunClock 3; Site.Effect;
       Site.Wait 50; Site.RunFlash 0; Site.Effect; Site.Wait 50;
       Site.RunClock 4; Site.Wait 950; Site.RunClock 6] = Some s ∧
    ticks (Site.world s) = [3100; 2050; 1000] ∧
    Site.spacedBy 1050 (ticks (Site.world s)).
Proof.
  destruct (Site.run (Site.start 0)
      [Site.Effect; Site.Wait 1000; Site.RunClock 0; Site.Effect;
       Site.Wait 50; Site.RunFlash 0; Site.Effect; Site.Wait 50;
       Site.RunClock 1; Site.Wait 950; Site.RunClock 3; Site.Effect;
       Site.Wait 50; Site.RunFlash 0; Site.Effect; Site.Wait 50;
       Site.RunClock 4; Site.Wait 950; Site.RunClock 6])
    as [s|] eqn:R; [|exfalso; vm_compute in R; discriminate R].
  exists s. split; [reflexivity|]. split.
  - vm_compute in R. injection R as <-. reflexivity.
  - apply clock_in_app_ticks_slower. eexists 0, _. exact R.
Defined.

(** X18.  The flash of the page is brief: at most one timeout of
    [handleTick] is pending, and whenever [tickActive] is set the latest
    tick of the clock is at most 50 ms back. *)
Theorem tick_flash_is_brief (s : Site.State) :
  Site.reachable s ->
  (length (Site.flashes s) <= 1)%nat ∧
  (Site.tickActive s = true ->
   ∃ τ, Inv.lastTick (Site.world s) = Some τ ∧
        τ <= wall (browser (Site.world s)) <= τ + 50).
Proof.
  intros R. destruct (SiteFacts.site_reachable_holds s R) as [H _ _ _ F _ _].
  destruct H as [_ Hp _ _].
  destruct (Inv.lastTick (Site.world s)) as [τ|].
  - specialize (Hp τ eq_refl).
    destruct F as [(E & A & _)|(E & A & W)]; rewrite E, A; cbn.
    + split; [lia | discriminate].
    + split; [lia|]. intros _. exists τ. split; [reflexivity | lia].
  - destruct F as [E A]. rewrite E, A. cbn. split; [lia | discriminate].
Qed.

Lemma tick_flash_is_brief_witness :
  ∃ s,
    Site.run (Site.start 0)
      [Site.Effect; Site.Wait 1000; Site.RunClock 0; Site.Effect;
       Site.Wait 30] = Some s ∧
    (length (Site.flashes s) <= 1)%nat ∧
    (Site.tickActive s = true ->
     ∃ τ, Inv.lastTick (Site.world s) = Some τ ∧
          τ <= wall (browser (Site.world s)) <= τ + 50).
Proof.
  destruct (Site.run (Site.start 0)
      [Site.Effect; Site.Wait 1000; Site.RunClock 0; Site.Effect;
       Site.Wait 30])
    as [s|] eqn:R; [|exfalso; vm_compute in R; discriminate R].
  exists s. split; [reflexivity|].
  apply tick_flash_is_brief. eexists 0, _. exact R.
Defined.

(** ** Restarting the cycle *)

Module RestartFacts.

Import Clock ClockFacts InvFacts TimerFacts.

Lemma rerender_frame p w :
  browser (rerender p w) = browser w ∧
  timer (clock (rerender p w)) = timer (clock w) ∧
  mounted (clock (rerender p w)) = mounted (clock w) ∧
  instance (clock (rerender p w)) = instance (clock w) ∧
  props (clock (rerender p w)) = p ∧
  pending (clock (rerender p w)) =
    (depsChanged (props (clock w)) p || pending (clock w)).
Proof. unfold rerender. destruct (depsChanged _ _); by split_and!. Qed.

(** An id that is gone from the table, or that the cleanup holds, is gone
    once the effect has run. *)
Lemma runEffect_gone (old : nat) w :
  Inv.holds w -> mounted (clock w) = true ->
  (old < nextTimer (browser w))%nat ->
  timers (browser w) !! old = None ∨ timer (clock w) = Some old ->
  dead old (runEffect w).
Proof.
  intros H M A [B|E]; [|by apply runEffect_dead].
  rewrite runEffect_eq by exact M. split; cbn; [lia|].
  rewrite lookup_insert_ne by lia. by apply cleared_dead.
Qed.

(** Renders, activation and deactivation leave such an id gone or held. *)
Lemma settle_gone (old : nat) w e w' :
  Inv.holds w ->
  (old < nextTimer (browser w))%nat ->
  timers (browser w) !! old = None ∨
    (mounted (clock w) = true ∧ timer (clock w) = Some old) ->
  match e with Elapse _ | Fire _ => False | _ => True end ->
  step w e = Some w' ->
  (old < nextTimer (browser w'))%nat ∧
  (timers (browser w') !! old = None ∨
     (mounted (clock w') = true ∧ timer (clock w') = Some old)).
Proof.
  intros H A Q K S.
  assert (dead old (flush w) ∨
          (pending (clock w) = false ∧ flush w = w ∧
           mounted (clock w) = true ∧ timer (clock w) = Some old)) as F.
  { unfold flush. destruct (pending (clock w)) eqn:Pe.
    - left. apply runEffect_gone; try assumption.
      + by apply pending_mounted.
      + destruct Q as [?|[_ ?]]; auto.
    - destruct Q as [B|[M E]]; [left; by split | right; auto]. }
  destruct e as [p|p| | |dt|j]; cbn [step] in S; try contradiction.
  - destruct (mounted (clock w)) eqn:M; [discriminate|]. injection S as <-.
    split; [exact A|]. destruct Q as [?|[? _]]; [by left | congruence].
  - destruct (mounted (clock w) && _); [|discriminate]. injection S as <-.
    destruct (rerender_frame p (flush w)) as (-> & -> & -> & _).
    destruct F as [[A' B']|(_ & -> & M & E)]; auto.
  - destruct (mounted (clock w)); [|discriminate]. injection S as <-.
    rewrite teardown_eq. cbn.
    destruct F as [[A' B']|(_ & -> & M & E)].
    + split; [exact A'|]. left. by apply cleared_dead.
    + split; [exact A|]. left. unfold cleared. rewrite E.
      apply lookup_delete_eq.
  - destruct (pending (clock w)) eqn:Pe; [|discriminate]. injection S as <-.
    destruct F as [[A' B']|(? & _)]; [|congruence].
    unfold flush in A', B'. rewrite Pe in A', B'. auto.
Qed.

(** Running the effect that a render left to run: the function returned by
    the effect before it leaves no interval, and the effect starts one. *)
Lemma effect_restarts w :
  Inv.holds w -> mounted (clock w) = true -> pending (clock w) = true ->
  step w RunEffect = Some (runEffect w) ∧
  Timers.intervals (browser (cleanup w)) = ∅ ∧
  timer (clock (runEffect w)) = Some (nextTimer (browser w)) ∧
  Timers.intervals (browser (runEffect w)) =
    {[ nextTimer (browser w) :=
         {| due := wall (browser w) + 1000; repeating := Some 1000;
            task := Tick (instance (clock w)) (targetDate (props (clock w)))
                      (onTick (props (clock w))) |} ]}.
Proof.
  intros H M Pe. split_and!.
  - cbn [step]. by rewrite Pe.
  - by apply intervals_cleanup.
  - by rewrite runEffect_eq.
  - by apply intervals_runEffect.
Qed.

(** An interval of the table is held by the cleanup. *)
Lemma interval_held (old : nat) w :
  Inv.holds w -> is_Some (Timers.intervals (browser w) !! old) ->
  (old < nextTimer (browser w))%nat ∧
  mounted (clock w) = true ∧ timer (clock w) = Some old.
Proof.
  intros [Ht _ _ _] [t L]. apply intervals_lookup in L as [L R].
  pose proof (Ht old t L) as O.
  destruct (interval_is_handle w old t O R) as [M E].
  destruct O as (A & _). auto.
Qed.

(** A re-render of the component alone with another [Date] object or
    another callback. *)
Lemma update_restarts w p w' :
  Inv.holds w -> step w (Update p) = Some w' ->
  depsChanged (props (clock w)) p = true ->
  Inv.holds w' ∧ mounted (clock w') = true ∧ pending (clock w') = true ∧
  props (clock w') = p ∧ instance (clock w') = instance (clock w) ∧
  wall (browser w') = wall (browser w).
Proof.
  intros H S D. pose proof (step_holds _ _ _ H S) as H'.
  cbn [step] in S. destruct (mounted (clock w)) eqn:M; [|discriminate].
  destruct (negb _); [|discriminate]. cbn in S. injection S as <-.
  destruct (flush_frame w H) as (_ & _ & Mf & If & Pf & _ & Wf & _).
  destruct (rerender_frame p (flush w)) as (Eb & _ & Em & Ei & Ep & Epe).
  rewrite Pf, D in Epe. rewrite Eb, Em, Ei, Ep, Epe.
  split_and!; try done; congruence.
Qed.

(** A re-render with another time value brings another [Date] object. *)
Lemma update_other_date w p w' :
  step w (Update p) = Some w' ->
  targetDate p ≠ targetDate (props (clock w)) ->
  targetRef p ≠ targetRef (props (clock w)).
Proof.
  cbn [step]. intros S D E. destruct (mounted (clock w)); [|discriminate].
  unfold mutated in S.
  rewrite (bool_decide_eq_true_2 _ (eq_sym E)) in S.
  rewrite bool_decide_eq_false_2 in S by congruence. discriminate.
Qed.

(** Every step of the page is made of steps of the clock. *)
Lemma render_trace (s s' : Site.State) (target : Z) (ref : nat)
    (v : Variant) (th : ThemeMode) (replace : bool) :
  Site.render target ref v th replace s = Some s' ->
  ∃ es, Forall (λ e, match e with Elapse _ | Fire _ => False | _ => True end)
          es ∧
        run (Site.world s) es = Some (Site.world s') ∧
        props (clock (Site.world s')) =
          {| targetDate := target; targetRef := ref;
             onTick := Some (S (Site.renders s)); variant := v;
             theme := th |}.
Proof.
  intros R. unfold Site.render in R. destruct replace.
  - destruct (step (Site.world s) Unmount) as [w1|] eqn:S1;
      [|discriminate]. cbn [mbind option_bind] in R.
    destruct (step w1 (Mount _)) as [w'|] eqn:S2; [|discriminate].
    injection R as <-. eexists [Unmount; Mount _]. split_and!.
    + by repeat constructor.
    + cbn [run]. rewrite S1, S2. reflexivity.
    + cbn [step] in S2. destruct (mounted (clock w1)); [discriminate|].
      by injection S2 as <-.
  - destruct (step (Site.world s) (Update _)) as [w'|] eqn:S1;
      [|discriminate]. injection R as <-. eexists [Update _]. split_and!.
    + by repeat constructor.
    + cbn [run]. rewrite S1. reflexivity.
    + cbn [step] in S1. destruct (_ && _); [|discriminate].
      injection S1 as <-. cbn. by destruct (rerender_frame
        {| targetDate := target; targetRef := ref;
           onTick := Some (S (Site.renders s)); variant := v; theme := th |}
        (flush (Site.world s))) as (_ & _ & _ & _ & -> & _).
Qed.

Lemma run_app (es1 es2 : list Event) w w1 w2 :
  run w es1 = Some w1 -> run w1 es2 = Some w2 ->
  run w (es1 ++ es2) = Some w2.
Proof.
  revert w. induction es1 as [|e es IH]; intros w R1 R2; cbn in R1 |- *.
  - by injection R1 as ->.
  - destruct (step w e) as [w0|]; [|discriminate]. by apply IH.
Qed.

Lemma setTickActive_trace (s s' : Site.State) (v : bool) :
  Site.setTickActive v s = Some s' ->
  ∃ es, run (Site.world s) es = Some (Site.world s').
Proof.
  unfold Site.setTickActive. case_bool_decide; intros R.
  - injection R as <-. by exists [].
  - destruct (render_trace _ _ _ _ _ _ _ R) as (es & _ & Rn & _). eauto.
Qed.

Lemma site_step_trace (s s' : Site.State) (e : Site.Event) :
  Site.step s e = Some s' ->
  ∃ es, run (Site.world s) es = Some (Site.world s').
Proof.
  intros S. destruct e as [dt|id|i| |target ref v th replace];
    cbn [Site.step] in S.
  - case_bool_decide; [|discriminate].
    destruct (step (Site.world s) (Elapse dt)) as [w'|] eqn:S1;
      [|discriminate]. injection S as <-. exists [Elapse dt].
    cbn [run]. by rewrite S1.
  - destruct (step (Site.world s) (Fire id)) as [w'|] eqn:S1;
      [|discriminate]. cbn [mbind option_bind] in S.
    assert (run (Site.world s) [Fire id] = Some w') as R1
      by (cbn [run]; by rewrite S1).
    assert (Site.handleTick (Site.withWorld w' s) = Some s' ->
            ∃ es, run (Site.world s) es = Some (Site.world s')) as Hk.
    { unfold Site.handleTick. intros R.
      destruct (Site.setTickActive true _) as [s1|] eqn:A; [|discriminate].
      injection R as <-. cbn.
      destruct (setTickActive_trace _ _ _ A) as (es & Rn).
      exists ([Fire id] ++ es). by eapply run_app. }
    destruct (task <$> _) as [[? ? [?|]|?]|];
      first [by apply Hk | injection S as <-; eauto].
  - destruct (Site.flashes s !! i); [|discriminate].
    case_bool_decide; [|discriminate].
    by destruct (setTickActive_trace _ _ _ S) as (es & Rn); eauto.
  - destruct (step (Site.world s) RunEffect) as [w'|] eqn:S1;
      [|discriminate]. injection S as <-. exists [RunEffect].
    cbn [run]. by rewrite S1.
  - destruct (render_trace _ _ _ _ _ _ _ S) as (es & _ & Rn & _). eauto.
Qed.

Lemma site_run_trace (es : list Site.Event) (s s' : Site.State) :
  Site.run s es = Some s' ->
  ∃ es', run (Site.world s) es' = Some (Site.world s').
Proof.
  revert s. induction es as [|e es IH]; intros s R; cbn in R.
  - injection R as <-. by exists [].
  - destruct (Site.step s e) as [s1|] eqn:S; [|discriminate].
    destruct (site_step_trace _ _ _ S) as (es1 & R1).
    destruct (IH _ R) as (es2 & R2).
    exists (es1 ++ es2). by eapply run_app.
Qed.

Lemma run_settle_gone (old : nat) es : ∀ w w',
  Inv.holds w ->
  (old < nextTimer (browser w))%nat ->
  timers (browser w) !! old = None ∨
    (mounted (clock w) = true ∧ timer (clock w) = Some old) ->
  Forall (λ e, match e with Elapse _ | Fire _ => False | _ => True end) es ->
  run w es = Some w' ->
  (old < nextTimer (browser w'))%nat ∧
  (timers (browser w') !! old = None ∨
     (mounted (clock w') = true ∧ timer (clock w') = Some old)).
Proof.
  induction es as [|e es IH]; intros w w' H A Q K R; cbn in R.
  - by injection R as <-.
  - destruct (step w e) as [w1|] eqn:S; [|discriminate].
    inversion K as [|? ? Ke Kes]; subst.
    destruct (settle_gone old w e w1 H A Q Ke S) as [A1 Q1].
    apply (IH w1 w'); try assumption. eapply step_holds; eauto.
Qed.

End RestartFacts.

(** C5.  One interval at a time.  In every reachable state of the
    component at most one repeating timer is in the table, and none while
    the component is not mounted.  A re-render with another [Date] object
    or another callback leaves the effect to run, and once it has run the
    interval that was running is gone from the table, the table held no
    interval in between, and one new interval is in it; a re-render with
    another target instant is one with another [Date] object.  The theme is not
    among the dependencies of the effect: a re-render with the same [Date]
    object and the same callback leaves the table and the held timer as
    they are, whatever the theme.  In the page every render of [App], a
    change of theme included, hands the clock a new [handleTick], and so
    cancels the running interval and starts one new.  Deactivation leaves
    no interval.  A timer that is gone from the table never returns to it
    and cannot run, for the component alone and in the page. *)
Theorem one_interval_at_a_time (w : World) (s : Site.State) :
  Clock.reachable w -> Site.reachable s ->
  ((∀ id1 t1 id2 t2,
      timers (browser w) !! id1 = Some t1 -> is_Some (repeating t1) ->
      timers (browser w) !! id2 = Some t2 -> is_Some (repeating t2) ->
      id1 = id2) ∧
   (mounted (clock w) = false -> Timers.intervals (browser w) = ∅) ∧
   (∀ p w',
      Clock.step w (Update p) = Some w' ->
      targetDate p ≠ targetDate (props (clock w)) ∨
      targetRef p ≠ targetRef (props (clock w)) ∨
      onTick p ≠ onTick (props (clock w)) ->
      pending (clock w') = true ∧
      ∃ w'',
        Clock.step w' RunEffect = Some w'' ∧
        Timers.intervals (browser (Clock.cleanup w')) = ∅ ∧
        (∀ old, is_Some (Timers.intervals (browser w) !! old) ->
                dead old w'') ∧
        timer (clock w'') = Some (nextTimer (browser w')) ∧
        Timers.intervals (browser w'') =
          {[ nextTimer (browser w') :=
               {| due := wall (browser w) + 1000; repeating := Some 1000;
                  task := Tick (instance (clock w)) (targetDate p)
                            (onTick p) |} ]}) ∧
   (∀ p w',
      Clock.step w (Update p) = Some w' ->
      targetRef p = targetRef (props (clock w)) ->
      onTick p = onTick (props (clock w)) ->
      browser w' = browser (Clock.flush w) ∧
      timer (clock w') = timer (clock (Clock.flush w)) ∧
      pending (clock w') = false ∧
      (pending (clock w) = false ->
       browser w' = browser w ∧ timer (clock w') = timer (clock w))) ∧
   (∀ w', Clock.step w Unmount = Some w' ->
          Timers.intervals (browser w') = ∅) ∧
   (∀ id es w',
      dead id w -> Clock.run w es = Some w' ->
      dead id w' ∧ Clock.step w' (Fire id) = None)) ∧
  ((∀ id1 t1 id2 t2,
      timers (browser (Site.world s)) !! id1 = Some t1 ->
      is_Some (repeating t1) ->
      timers (browser (Site.world s)) !! id2 = Some t2 ->
      is_Some (repeating t2) ->
      id1 = id2) ∧
   (∀ target ref v th replace s1,
      Site.step s (Site.Render target ref v th replace) = Some s1 ->
      pending (clock (Site.world s1)) = true ∧
      ∃ s2,
        Site.step s1 Site.Effect = Some s2 ∧
        Timers.intervals (browser (Clock.cleanup (Site.world s1))) = ∅ ∧
        (∀ old,
           is_Some (Timers.intervals (browser (Site.world s)) !! old) ->
           dead old (Site.world s2)) ∧
        Timers.intervals (browser (Site.world s2)) =
          {[ nextTimer (browser (Site.world s1)) :=
               {| due := wall (browser (Site.world s)) + 1000;
                  repeating := Some 1000;
                  task := Tick (instance (clock (Site.world s1))) target
                            (Some (S (Site.renders s))) |} ]}) ∧
   (∀ id es s',
      dead id (Site.world s) -> Site.run s es = Some s' ->
      dead id (Site.world s') ∧ Site.step s' (Site.RunClock id) = None)).
Proof.
  intros Re Rs. pose proof (InvFacts.reachable_holds w Re) as H.
  pose proof (SiteFacts.site_reachable_holds s Rs) as [Hs Ms Cs _ _ _ _].
  split.
  - split; [intros id1 t1 id2 t2;
             exact (TimerFacts.intervals_unique w id1 t1 id2 t2 H)|].
    split; [by apply TimerFacts.intervals_unmounted|].
    split; [|split; [|split]].
    + intros p w' S D.
      assert (targetRef p ≠ targetRef (props (clock w)) ∨
              onTick p ≠ onTick (props (clock w))) as D'.
      { destruct D as [D|[D|D]]; auto.
        left. eapply RestartFacts.update_other_date; eauto. }
      clear D. apply TimerFacts.depsChanged_true in D'. rename D' into D.
      destruct (RestartFacts.update_restarts w p w' H S D)
        as (H' & M' & Pe' & Ep & Ei & Ew).
      destruct (RestartFacts.effect_restarts w' H' M' Pe')
        as (S' & C & T & I).
      split; [exact Pe'|]. exists (Clock.runEffect w').
      rewrite Ep, Ei, Ew in I. split_and!; try assumption.
      intros old O.
      destruct (RestartFacts.interval_held old w H O) as (A & M & E).
      destruct (RestartFacts.settle_gone old w (Update p) w' H A) as [A' Q'];
        auto.
      apply RestartFacts.runEffect_gone; try assumption.
      destruct Q' as [?|[_ ?]]; auto.
    + intros p w' S D1 D2. cbn [Clock.step] in S.
      destruct (mounted (clock w) && _); [|discriminate]. injection S as <-.
      destruct (InvFacts.flush_frame w H) as (_ & Pf & _ & _ & Ef & _).
      destruct (RestartFacts.rerender_frame p (Clock.flush w))
        as (Eb & Et & _ & _ & _ & Epe).
      rewrite Ef, TimerFacts.depsChanged_same, Pf in Epe by assumption.
      split_and!; try assumption.
      intros Pe. unfold Clock.flush in Eb, Et |- *.
      rewrite Pe in Eb, Et |- *. split; assumption.
    + intros w' S.
      apply TimerFacts.intervals_unmounted.
      * exact (InvFacts.step_holds _ _ _ H S).
      * cbn [Clock.step] in S. destruct (mounted (clock w)); [|discriminate].
        injection S as <-. by rewrite ClockFacts.teardown_eq.
    + intros id es w' D R.
      pose proof (TimerFacts.run_dead id es w w' H D R) as D'.
      split; [exact D' | by apply TimerFacts.dead_cannot_fire].
  - split; [intros id1 t1 id2 t2;
             exact (TimerFacts.intervals_unique _ id1 t1 id2 t2 Hs)|].
    split.
    + intros target ref v th replace s1 S. cbn [Site.step] in S.
      pose proof (λ a b c, SiteFacts.render_spec _ _ _ _ _ _ _ a b c S) as Sp.
      destruct (Sp Hs Ms Cs) as (H1 & M1 & _ & Pe1 & _ & _ & _ & _ & W1 & _).
      clear Sp.
      destruct (RestartFacts.render_trace _ _ _ _ _ _ _ S)
        as (es & K & Rn & Ep).
      destruct (RestartFacts.effect_restarts _ H1 M1 Pe1)
        as (S' & C & T & I).
      split; [exact Pe1|].
      exists (Site.withWorld (Clock.runEffect (Site.world s1)) s1).
      rewrite Ep, W1 in I. cbn [targetDate onTick] in I.
      split_and!; try assumption.
      * cbn [Site.step]. by rewrite S'.
      * intros old O. cbn [Site.world Site.withWorld].
        destruct (RestartFacts.interval_held old _ Hs O) as (A & M & E).
        destruct (RestartFacts.run_settle_gone old es _ _ Hs A
                    (or_intror (conj M E)) K Rn) as [A' Q'].
        apply RestartFacts.runEffect_gone; try assumption.
        destruct Q' as [?|[_ ?]]; auto.
    + intros id es s' D R.
      destruct (RestartFacts.site_run_trace es s s' R) as (es' & R').
      pose proof (TimerFacts.run_dead id es' _ _ Hs D R') as D'.
      split; [exact D'|]. cbn [Site.step].
      by rewrite (TimerFacts.dead_cannot_fire id _ D').
Qed.

Lemma one_interval_at_a_time_witness :
  let p := {| targetDate := 90061000; targetRef := 1; onTick := Some 0%nat;
              variant := large; theme := Theme24 |} in
  let q := {| targetDate := 90061000; targetRef := 2; onTick := Some 0%nat;
              variant := large; theme := Theme24 |} in
  ∃ w w1 w2 s s1 s2,
    Clock.run (Clock.init 0) [Mount p; RunEffect] = Some w ∧
    Clock.step w (Update q) = Some w1 ∧
    Clock.step w1 RunEffect = Some w2 ∧
    dead 0%nat w2 ∧
    timer (clock w2) = Some 1%nat ∧
    Site.run (Site.start 0) [Site.Effect] = Some s ∧
    Site.step s (Site.Render 0 0 small ThemeELF false) = Some s1 ∧
    Site.step s1 Site.Effect = Some s2 ∧
    dead 0%nat (Site.world s2) ∧
    is_Some (Timers.intervals (browser (Site.world s2)) !! 1%nat).
Proof.
  intros p q.
  destruct (Clock.run (Clock.init 0) [Mount p; RunEffect])
    as [w|] eqn:R; [|exfalso; vm_compute in R; discriminate R].
  destruct (Site.run (Site.start 0) [Site.Effect])
    as [s|] eqn:Rs; [|exfalso; vm_compute in Rs; discriminate Rs].
  assert (Re : Clock.reachable w) by (eexists 0, _; exact R).
  assert (Rr : Site.reachable s) by (eexists 0, _; exact Rs).
  destruct (one_interval_at_a_time w s Re Rr)
    as ((_ & _ & U & _) & (_ & V & _)).
  assert (I0 : is_Some (Timers.intervals (browser w) !! 0%nat)).
  { vm_compute in R. injection R as <-. vm_compute. eauto. }
  assert (J0 : is_Some (Timers.intervals (browser (Site.world s)) !! 0%nat)).
  { vm_compute in Rs. injection Rs as <-. vm_compute. eauto. }
  destruct (Clock.step w (Update q)) as [w1|] eqn:S1;
    [|exfalso; vm_compute in R; injection R as <-; vm_compute in S1;
      discriminate S1].
  destruct (U q w1 S1) as (_ & w2 & S2 & _ & D & T & _).
  { right. left. vm_compute in R. injection R as <-. cbn. discriminate. }
  destruct (Site.step s (Site.Render 0 0 small ThemeELF false))
    as [s1|] eqn:S3;
    [|exfalso; vm_compute in Rs; injection Rs as <-; vm_compute in S3;
      discriminate S3].
  destruct (V 0 0%nat small ThemeELF false s1 S3)
    as (_ & s2 & S4 & _ & D' & I').
  exists w, w1, w2, s, s1, s2.
  split_and!; try reflexivity; try assumption.
  - by apply D.
  - rewrite T. vm_compute in R. injection R as <-.
    vm_compute in S1. injection S1 as <-. reflexivity.
  - by apply D'.
  - assert (N : nextTimer (browser (Site.world s1)) = 1%nat).
    { vm_compute in Rs. injection Rs as <-.
      vm_compute in S3. injection S3 as <-. reflexivity. }
    rewrite I', N, lookup_singleton_eq. eauto.
Defined.

(** C7.  In the page the callback does not come once per second.  [App]
    hands the clock a new [handleTick] at every render, and [handleTick]
    itself renders [App] twice, at the tick and 50 ms later; each of these
    renders changes the [onTick] dependency of the effect, which cancels
    the interval and starts it anew.  So in every reachable state of the
    page the callback has been invoked once at each run of the interval
    callback and at no other time, and any two invocations lie at least
    1050 ms apart.  When the page starts at time 0, sets the target to the
    coming Christmas, every timer runs as it falls due and nothing else
    renders the page, the invocations come at 1000, 2050 and 3100 ms: one
    every 1050 ms. *)
Theorem callback_in_app_every_1050_ms (s : Site.State) :
  Site.reachable s ->
  (calls (Site.world s)).*2 = ticks (Site.world s) ∧
  Site.spacedBy 1050 ((calls (Site.world s)).*2) ∧
  ∃ s',
    Site.run (Site.start 0)
      [Site.Effect; Site.Render 30931200000 1 small Theme24 false;
       Site.Effect; Site.Wait 1000; Site.RunClock 1; Site.Effect;
       Site.Wait 50; Site.RunFlash 0; Site.Effect; Site.Wait 50;
       Site.RunClock 2; Site.Wait 950; Site.RunClock 4; Site.Effect;
       Site.Wait 50; Site.RunFlash 0; Site.Effect; Site.Wait 50;
       Site.RunClock 5; Site.Wait 950; Site.RunClock 7] = Some s' ∧
    calls (Site.world s') = [(5%nat, 3100); (3%nat, 2050); (1%nat, 1000)].
Proof.
  intros R.
  destruct (SiteFacts.site_reachable_holds s R) as [_ _ _ _ _ G Ca].
  split; [exact Ca|]. split; [by rewrite Ca|].
  eexists. split; vm_compute; reflexivity.
Qed.

Lemma callback_in_app_every_1050_ms_witness :
  ∃ s,
    Site.run (Site.start 0)
      [Site.Effect; Site.Render 30931200000 1 small Theme24 false;
       Site.Effect; Site.Wait 1000; Site.RunClock 1; Site.Effect;
       Site.Wait 50; Site.RunFlash 0; Site.Effect; Site.Wait 50;
       Site.RunClock 2; Site.Wait 950; Site.RunClock 4] = Some s ∧
    (calls (Site.world s)).*2 = [2050; 1000] ∧
    Site.spacedBy 1050 ((calls (Site.world s)).*2).
Proof.
  destruct (Site.run (Site.start 0)
      [Site.Effect; Site.Render 30931200000 1 small Theme24 false;
       Site.Effect; Site.Wait 1000; Site.RunClock 1; Site.Effect;
       Site.Wait 50; Site.RunFlash 0; Site.Effect; Site.Wait 50;
       Site.RunClock 2; Site.Wait 950; Site.RunClock 4])
    as [s|] eqn:R; [|exfalso; vm_compute in R; discriminate R].
  exists s. split; [reflexivity|]. split.
  - vm_compute in R. injection R as <-. reflexivity.
  - apply callback_in_app_every_1050_ms. eexists 0, _. exact R.
Defined.

(** ** The countdown within one activation *)

Module DownFacts.

Import Clock ClockFacts InvFacts.

Lemma runEffect_shownSince (T τ0 : Z) w :
  Inv.holds w -> mounted (clock w) = true ->
  shownSince T τ0 w -> shownSince T τ0 (runEffect w).
Proof.
  intros H M (Tg & (τ & B & E) & Cl). rewrite runEffect_eq by exact M.
  split_and!; cbn.
  - intros _. auto.
  - exists (wall (browser w)). rewrite (Tg M). split; [lia | reflexivity].
  - intros id t inst tg cb L Tk.
    apply lookup_insert_Some in L as [[_ <-]|[_ L]].
    + cbn in Tk. injection Tk as _ <- _. auto.
    + destruct (cleared_timeouts w id t H L) as [_ L']. eapply Cl; eauto.
Qed.

Lemma flush_shownSince (T τ0 : Z) w :
  Inv.holds w -> shownSince T τ0 w -> shownSince T τ0 (flush w).
Proof.
  intros H U. unfold flush. destruct (pending (clock w)) eqn:Pe; [|exact U].
  apply runEffect_shownSince; try assumption. by apply pending_mounted.
Qed.

Lemma step_shownSince (T τ0 : Z) (w w' : World) (e : Event) :
  Inv.holds w -> shownSince T τ0 w ->
  match e with
  | Mount _ => False
  | Update p => targetDate p = T
  | _ => True
  end ->
  step w e = Some w' -> shownSince T τ0 w'.
Proof.
  intros H U K S.
  pose proof (flush_shownSince T τ0 w H U) as (Tf & (τf & Bf & Ef) & Cf).
  destruct (flush_frame w H) as (Hf & _).
  destruct e as [p|p| | |dt|id]; cbn [step] in S; try contradiction.
  - destruct (mounted (clock w) && _); [|discriminate]. injection S as <-.
    unfold rerender. destruct (depsChanged _ _); (split_and!; cbn; eauto).
  - destruct (mounted (clock w)); [|discriminate]. injection S as <-.
    rewrite teardown_eq. split_and!; cbn; [discriminate | eauto |].
    intros id t inst tg cb L Tk.
    destruct (cleared_timeouts _ id t Hf L) as [_ L']. eapply Cf; eauto.
  - destruct (pending (clock w)) eqn:Pe; [|discriminate]. injection S as <-.
    unfold flush in Tf, Ef, Cf, Bf. rewrite Pe in Tf, Ef, Cf, Bf.
    split_and!; eauto.
  - destruct U as (Tg & (τ & B & E) & Cl).
    destruct (negb _ && _ && _) eqn:G; [|discriminate]. injection S as <-.
    apply andb_true_iff in G as [G _]. apply andb_true_iff in G as [_ D].
    apply bool_decide_eq_true_1 in D.
    split_and!; cbn; [exact Tg | | exact Cl].
    exists τ. split; [lia | exact E].
  - destruct U as (Tg & (τ & B & E) & Cl).
    destruct (timers (browser w) !! id) as [t|] eqn:L; [|discriminate].
    destruct (bool_decide _); [|discriminate]. injection S as <-.
    destruct (fire_cases w id t H L)
      as [(tg & cb & τ1 & R & M & _ & Tk & _ & _ & _ & _ & _ & ->)
         |(i & τ1 & R & Tk & _ & _ & _ & ->)].
    + pose proof (Cl id t _ _ _ L Tk) as ->.
      split_and!; cbn; [exact Tg | |].
      * exists (wall (browser w)). split; [lia | reflexivity].
      * intros j tj inst tg cb' Lj Tj.
        apply lookup_insert_Some in Lj as [[_ <-]|[_ Lj]];
          [discriminate Tj|].
        apply lookup_insert_Some in Lj as [[_ <-]|[_ Lj]].
        -- cbn in Tj. rewrite Tk in Tj. by injection Tj as _ <- _.
        -- eapply Cl; eauto.
    + unfold setPulse. cbn [clock].
      destruct (live i (clock w)); (split_and!; cbn; [exact Tg | eauto |]);
        intros j tj inst tg cb' Lj Tj;
        apply lookup_delete_Some in Lj as [_ Lj]; eapply Cl; eauto.
Qed.

Lemma run_shownSince (T τ0 : Z) (es : list Event) (w w' : World) :
  Inv.holds w -> shownSince T τ0 w -> keepsTarget T es -> noMount es ->
  run w es = Some w' -> shownSince T τ0 w'.
Proof.
  revert w. induction es as [|e es IH]; intros w H U K N R; cbn in R.
  - by injection R as <-.
  - destruct (step w e) as [w1|] eqn:S; [|discriminate].
    inversion K as [|? ? Ke Kes]; subst.
    inversion N as [|? ? Ne Nes]; subst.
    apply (IH w1); try assumption.
    + eapply step_holds; eauto.
    + eapply step_shownSince; eauto. by destruct e.
Qed.

(** A later instant leaves less to show. *)
Lemma toMillis_antitone (T τ τ' : Z) :
  τ <= τ' ->
  toMillis (calculateTimeLeft T τ') <= toMillis (calculateTimeLeft T τ).
Proof.
  intros Le.
  assert (∀ N, 0 <= toMillis (calculateTimeLeft T N)) as P.
  { intros N. destruct (Z_le_gt_dec T N) as [G|G].
    - by rewrite calculateTimeLeft_past.
    - rewrite toMillis_div by lia.
      pose proof (Z.div_pos (T - N) 1000). lia. }
  destruct (Z_le_gt_dec T τ') as [G|G].
  - rewrite (calculateTimeLeft_past T τ') by exact G. apply P.
  - rewrite !toMillis_div by lia.
    pose proof (Z.div_le_mono (T - τ') (T - τ) 1000). lia.
Qed.

(** Once the effect has run, the component shows what its interval
    callback computes for. *)
Lemma settled_shownSince (w : World) :
  Inv.holds w -> mounted (clock w) = true -> pending (clock w) = false ->
  ∃ τ, shownSince (targetDate (props (clock w))) τ w.
Proof.
  intros H M Pe. pose proof H as [Ht _ _ _].
  destruct (handle_mounted w H M Pe) as (id & t & E & L & [ms R]).
  pose proof (Ht id t L) as O. unfold Inv.timerOk in O. rewrite R in O.
  destruct O as (_ & _ & _ & _ & _ & tg & cb & τ & Tk & Pd & D & W & Tl & _).
  destruct (Pd Pe) as [-> ->].
  exists τ. split_and!; [auto | exists τ; split; [lia | exact Tl] |].
  intros j tj inst tg cb' Lj Tj.
  pose proof (Ht j tj Lj) as O. unfold Inv.timerOk in O.
  destruct (repeating tj).
  - destruct O as (_ & _ & _ & _ & _ & tg' & cb'' & τ' & Tk' & Pd' & _).
    destruct (Pd' Pe) as [-> _]. rewrite Tk' in Tj. by injection Tj as _ <- _.
  - destruct O as (_ & _ & i & τ' & Tk' & _). rewrite Tk' in Tj.
    discriminate.
Qed.

End DownFacts.

(** X20.  Within one activation a countdown never goes up.  From a
    reachable state of the mounted component whose effect has run, along
    any events that keep the time value of the target and do not activate
    the component again (ticks, time passing, re-renders with another
    callback or another [Date] object of the same instant, the effects
    they leave, deactivation), the duration shown in a later state is no
    longer than the one shown in an earlier state. *)
Theorem countdown_never_goes_up
    (T : Z) (w w1 w' : World) (es1 es2 : list Event) :
  Clock.reachable w ->
  mounted (clock w) = true ->
  pending (clock w) = false ->
  targetDate (props (clock w)) = T ->
  keepsTarget T (es1 ++ es2) ->
  noMount (es1 ++ es2) ->
  Clock.run w es1 = Some w1 ->
  Clock.run w1 es2 = Some w' ->
  toMillis (timeLeft (clock w')) <= toMillis (timeLeft (clock w1)).
Proof.
  intros Re M Pe Tg K N R1 R2.
  pose proof (InvFacts.reachable_holds w Re) as H.
  destruct (DownFacts.settled_shownSince w H M Pe) as (τ0 & U).
  rewrite Tg in U.
  apply Forall_app in K as [K1 K2]. apply Forall_app in N as [N1 N2].
  pose proof (InvFacts.run_holds es1 _ _ H R1) as H1.
  destruct (DownFacts.run_shownSince T τ0 es1 w w1 H U K1 N1 R1)
    as (Tg1 & (τ1 & B1 & E1) & C1).
  assert (U1 : shownSince T τ1 w1).
  { split_and!; [exact Tg1 | exists τ1; split; [lia | exact E1] | exact C1]. }
  destruct (DownFacts.run_shownSince T τ1 es2 w1 w' H1 U1 K2 N2 R2)
    as (_ & (τ' & B' & E') & _).
  rewrite E1, E'. apply DownFacts.toMillis_antitone. lia.
Qed.

Lemma countdown_never_goes_up_witness :
  let p := {| targetDate := 90061000; targetRef := 0; onTick := None;
              variant := large; theme := Theme24 |} in
  let q := {| targetDate := 90061000; targetRef := 1; onTick := Some 7%nat;
              variant := small; theme := ThemeELF |} in
  ∃ w w1 w',
    Clock.run (Clock.init 0) [Mount p; RunEffect; Elapse 1000; Fire 0%nat]
      = Some w ∧
    Clock.run w [Elapse 100; Fire 1%nat; Update q] = Some w1 ∧
    Clock.run w1 [RunEffect; Elapse 1000; Fire 2%nat; Unmount] = Some w' ∧
    toMillis (timeLeft (clock w')) <= toMillis (timeLeft (clock w1)).
Proof.
  intros p q.
  destruct (Clock.run (Clock.init 0)
              [Mount p; RunEffect; Elapse 1000; Fire 0%nat])
    as [w|] eqn:R; [|exfalso; vm_compute in R; discriminate R].
  destruct (Clock.run w [Elapse 100; Fire 1%nat; Update q])
    as [w1|] eqn:R1;
    [|exfalso; vm_compute in R; injection R as <-; vm_compute in R1;
      discriminate R1].
  destruct (Clock.run w1 [RunEffect; Elapse 1000; Fire 2%nat; Unmount])
    as [w'|] eqn:R2;
    [|exfalso; vm_compute in R; injection R as <-; vm_compute in R1;
      injection R1 as <-; vm_compute in R2; discriminate R2].
  exists w, w1, w'. split; [reflexivity|]. split; [exact R1|].
  split; [exact R2|].
  apply (countdown_never_goes_up 90061000 w w1 w'
           [Elapse 100; Fire 1%nat; Update q]
           [RunEffect; Elapse 1000; Fire 2%nat; Unmount]).
  - eexists 0, _. exact R.
  - vm_compute in R. injection R as <-. reflexivity.
  - vm_compute in R. injection R as <-. reflexivity.
  - vm_compute in R. injection R as <-. reflexivity.
  - by repeat constructor.
  - by repeat constructor.
  - exact R1.
  - exact R2.
Defined.
